(** * Strawberry Music Player, [src/core/utilities.cpp]

    A shallow embedding of the message templating of [Utilities::ReplaceMessage]
    and [Utilities::ReplaceVariable] and of the recursive directory operations
    [Utilities::RemoveRecursive], [Utilities::MoveToTrashRecursive] and
    [Utilities::CopyRecursive], with the properties their description states.

    A [QString] is kept as the list of its characters.  The Qt calls the code
    makes are written out as functions over these lists and over a model of
    a file system:

    - [QString::replace], [QString::remove], [QString::toHtmlEscaped],
      [QString::setNum] and the two regular expressions of [ReplaceMessage]
      (QRegularExpression is PCRE);
    - a file system of regular files and directories, with the conventions
      of Unix (a path is absolute when it starts with a slash, a name is
      hidden when it starts with a dot), in which a file may be inaccessible
      so that steps can fail; [QDir::entryList] lists a directory in the
      order the directory has, [QDir::rmdir] and [QDir::mkpath] take a
      relative name from the directory they are called on;
    - the functions on the file system run in a state that also records the
      calls they make, so that their order can be stated; the recursions
      take fuel, as a tree of directories may be arbitrarily deep.

    Further functions of the file are embedded behind these, each with the
    properties its code shows: [PathWithoutFilenameExtension],
    [FiddleFileExtension], [Prepend], [Updateify], [DecodeHtmlEntities],
    [IsColorDark], [PrettyTime], [PrettyTimeDelta], [PrettySize] of a
    [QSize], [Hmac] and its three callers, [Sha1CoverHash],
    [ConsumeCurrentElement], [ParseUntilElement], [ParseUntilElementCI],
    [ParseRFC822DateTime], [GetRandomString] and its three callers,
    [MacAddress] and [Copy].  What they call outside the file is kept
    abstract where the code does not depend on it: the hash function of
    [QCryptographicHash], the random number generator, and the devices of
    [Copy], which are any that keep the promises of [QIODevice]; an [int]
    wraps around at 32 bits, a byte is a [Byte.byte], a character is taken
    as Latin-1 by [toLower] and [toUtf8], and an XML reader is the token it
    stands on with the tokens still to come. *)

From Stdlib Require Import String Ascii DecimalString.
From Stdlib Require Import List ZArith Bool Arith Lia.
From Stdlib Require DecimalPos DecimalZ.
From Stdlib.Strings Require Byte.
Import ListNotations.

Set Implicit Arguments.

(* ================================================================== *)
(** * Strings *)

Definition QChar := ascii.
Definition QString := list QChar.

(** A string literal, as a [QString]. *)
Definition qs (s : string) : QString := list_ascii_of_string s.
Arguments qs s%_string.

Fixpoint QString_eqb (a b : QString) : bool :=
  match a, b with
  | [], [] => true
  | x :: a', y :: b' => Ascii.eqb x y && QString_eqb a' b'
  | _, _ => false
  end.

(** [s.startsWith(p)] *)
Fixpoint startsWith (s p : QString) {struct p} : bool :=
  match p, s with
  | [], _ => true
  | x :: p', y :: s' => Ascii.eqb x y && startsWith s' p'
  | _ :: _, [] => false
  end.

(** [QString::number(n)] / [QString::setNum(n)] for an [int]: decimal text. *)
Definition QString_number (n : Z) : QString :=
  qs (NilZero.string_of_int (Z.to_int n)).

(** [QString::replace(before, after)]: every occurrence of [before] is
    replaced by [after]; the occurrences are looked for from left to right in
    the string as it was before the call, each search resuming behind the
    previous occurrence.  [skip] counts the characters of an occurrence that
    are still to be dropped. *)
Fixpoint replace_go (before after s : QString) (skip : nat) : QString :=
  match s with
  | [] => []
  | c :: s' =>
      match skip with
      | S k => replace_go before after s' k
      | O =>
          if startsWith s before
          then after ++ replace_go before after s' (length before - 1)
          else c :: replace_go before after s' 0
      end
  end.

(** With an empty [before] Qt inserts [after] in front of every character and
    at the end. *)
Definition QString_replace (s before after : QString) : QString :=
  match before with
  | [] => flat_map (fun c => after ++ [c]) s ++ after
  | _ :: _ => replace_go before after s 0
  end.

(** [QString::remove(i, len)] for [0 <= i]. *)
Definition QString_remove (s : QString) (i len : nat) : QString :=
  firstn i s ++ skipn (i + len) s.

(** The double quote. *)
Definition quote : QChar := ascii_of_nat 34.

(** [QString::toHtmlEscaped()] *)
Definition escape_char (c : QChar) : QString :=
  if Ascii.eqb c "<" then qs "&lt;"
  else if Ascii.eqb c ">" then qs "&gt;"
  else if Ascii.eqb c "&" then qs "&amp;"
  else if Ascii.eqb c quote then qs "&quot;"
  else [c].

Definition toHtmlEscaped (s : QString) : QString := flat_map escape_char s.

(* ================================================================== *)
(** * Regular expressions of [ReplaceMessage] *)

(** The character class [[a-z]]. *)
Definition is_lower (c : QChar) : bool :=
  let n := nat_of_ascii c in (97 <=? n) && (n <=? 122).

Definition percent : QChar := "%"%char.

(** The longest run of [[a-z]] at the head of [s]. *)
Fixpoint lower_run (s : QString) : nat :=
  match s with
  | c :: s' => if is_lower c then S (lower_run s') else 0
  | [] => 0
  end.

(** [[%][a-z]+[%]] matched at the head of [s]: the length of the match.
    The class does not contain the percent sign, so the greedy [[a-z]+] takes
    the whole run of letters and giving letters back cannot help. *)
Definition match_variable_here (s : QString) : option nat :=
  match s with
  | c :: s1 =>
      if Ascii.eqb c percent then
        let n := lower_run s1 in
        if 0 <? n then
          match skipn n s1 with
          | c' :: _ => if Ascii.eqb c' percent then Some (n + 2) else None
          | [] => None
          end
        else None
      else None
  | [] => None
  end.

(** The leftmost match in [s], where [s] starts at offset [i] of the subject:
    [capturedStart()] and [captured(0)]. *)
Fixpoint search_variable (s : QString) (i : nat) : option (nat * QString) :=
  match match_variable_here s with
  | Some n => Some (i, firstn n s)
  | None =>
      match s with
      | [] => None
      | _ :: s' => search_variable s' (S i)
      end
  end.

(** [variable_replacer.match(message, pos)] *)
Definition variable_replacer_match (message : QString) (pos : nat)
  : option (nat * QString) :=
  search_variable (skipn pos message) pos.

Definition LF : QChar := ascii_of_nat 10.

(** [" - (>|$)"] matched at the head of [s].  QRegularExpression is PCRE:
    without the multiline option the dollar asserts the end of the subject or
    the position in front of a line feed that is the last character of the
    subject. *)
Definition match_dangling_here (s : QString) : bool :=
  startsWith s (qs " - ") &&
  match skipn 3 s with
  | [] => true
  | c :: rest =>
      Ascii.eqb c ">" ||
      (Ascii.eqb c LF && match rest with [] => true | _ :: _ => false end)
  end.

(** [copy.indexOf(QRegularExpression(" - (>|$)"))]: the offset of the leftmost
    match, [-1] when there is none. *)
Fixpoint indexOf_dangling_from (s : QString) (i : Z) : Z :=
  if match_dangling_here s then i
  else match s with
       | [] => (-1)%Z
       | _ :: s' => indexOf_dangling_from s' (i + 1)%Z
       end.

Definition indexOf_dangling (s : QString) : Z := indexOf_dangling_from s 0%Z.

(* ================================================================== *)
(** * Song *)

(** [core/song.h] is not among the sources at hand: a [Song] is taken as the
    values its accessors return. *)
Record Song := mkSong {
  PrettyTitle : QString;
  album : QString;
  artist : QString;
  effective_albumartist : QString;
  track : Z;
  disc : Z;
  PrettyYear : QString;
  PrettyOriginalYear : QString;
  genre : QString;
  composer : QString;
  performer : QString;
  grouping : QString;
  PrettyLength : QString;
  basefilename : QString;
  url_toString : QString;
  playcount : Z;
  skipcount : Z;
  PrettyRating : QString
}.

(* ================================================================== *)
(** * ReplaceVariable *)

(** The chain of comparisons of [ReplaceVariable]: [inr value] is the value
    the chain leaves in [value] (the variable itself when no comparison
    holds), [inl text] is the text the [%newline%] branch returns at once. *)
Definition variable_value (variable : QString) (song : Song)
    (newline : QString) : QString + QString :=
  if QString_eqb variable (qs "%title%") then inr (PrettyTitle song)
  else if QString_eqb variable (qs "%album%") then inr (album song)
  else if QString_eqb variable (qs "%artist%") then inr (artist song)
  else if QString_eqb variable (qs "%albumartist%")
       then inr (effective_albumartist song)
  else if QString_eqb variable (qs "%track%")
       then inr (QString_number (track song))
  else if QString_eqb variable (qs "%disc%")
       then inr (QString_number (disc song))
  else if QString_eqb variable (qs "%year%") then inr (PrettyYear song)
  else if QString_eqb variable (qs "%originalyear%")
       then inr (PrettyOriginalYear song)
  else if QString_eqb variable (qs "%genre%") then inr (genre song)
  else if QString_eqb variable (qs "%composer%") then inr (composer song)
  else if QString_eqb variable (qs "%performer%") then inr (performer song)
  else if QString_eqb variable (qs "%grouping%") then inr (grouping song)
  else if QString_eqb variable (qs "%length%") then inr (PrettyLength song)
  else if QString_eqb variable (qs "%filename%") then inr (basefilename song)
  else if QString_eqb variable (qs "%url%") then inr (url_toString song)
  else if QString_eqb variable (qs "%playcount%")
       then inr (QString_number (playcount song))
  else if QString_eqb variable (qs "%skipcount%")
       then inr (QString_number (skipcount song))
  else if QString_eqb variable (qs "%rating%") then inr (PrettyRating song)
  else if QString_eqb variable (qs "%newline%") then inl newline
  else inr variable.

Definition ReplaceVariable (variable : QString) (song : Song)
    (newline : QString) (html_escaped : bool) : QString :=
  match variable_value variable song newline with
  | inl text => text   (* No HTML escaping, return immediately. *)
  | inr value => if html_escaped then toHtmlEscaped value else value
  end.

(* ================================================================== *)
(** * ReplaceMessage *)

(** The [for] loop of [ReplaceMessage]: [pos] and [copy] are its variables,
    [fuel] bounds the number of iterations ([None] when it runs out). *)
Fixpoint ReplaceMessage_loop (fuel : nat) (message : QString) (song : Song)
    (newline : QString) (html_escaped : bool) (pos : nat) (copy : QString)
  : option QString :=
  match fuel with
  | O => None
  | S fuel' =>
      match variable_replacer_match message pos with
      | None => Some copy
      | Some (capturedStart, captured0) =>
          let pos := capturedStart in
          let copy :=
            QString_replace copy captured0
              (ReplaceVariable captured0 song newline html_escaped) in
          let pos := pos + length captured0 in
          ReplaceMessage_loop fuel' message song newline html_escaped pos copy
      end
  end.

(** The two statements behind the loop. *)
Definition remove_dangling (copy : QString) : QString :=
  let index_of := indexOf_dangling copy in
  if (index_of >=? 0)%Z then QString_remove copy (Z.to_nat index_of) 3
  else copy.

Definition ReplaceMessage (message : QString) (song : Song)
    (newline : QString) (html_escaped : bool) : option QString :=
  option_map remove_dangling
    (ReplaceMessage_loop (S (length message)) message song newline
       html_escaped 0 message).

(* ================================================================== *)
(** * The description of the templating, in its own words *)

(** The token grammar: a percent sign, one or more lower case letters, a
    percent sign. *)
Definition is_variable (t : QString) : Prop :=
  exists name, name <> [] /\ Forall (fun c => is_lower c = true) name /\
               t = percent :: name ++ [percent].

(** The token [t] occurs in [message] at offset [i]. *)
Definition variable_at (message : QString) (i : nat) (t : QString) : Prop :=
  is_variable t /\
  exists pre post, message = pre ++ t ++ post /\ length pre = i.

(** [Scan message pos ms]: [ms] lists, with their offsets, the tokens found in
    [message] from offset [pos] on by a scan from left to right in which every
    search takes the leftmost token and starts where the previous token
    ended. *)
Inductive Scan (message : QString) : nat -> list (nat * QString) -> Prop :=
| Scan_end pos :
    (forall i t, pos <= i -> ~ variable_at message i t) ->
    Scan message pos []
| Scan_next pos i t ms :
    pos <= i ->
    variable_at message i t ->
    (forall j t', pos <= j < i -> ~ variable_at message j t') ->
    Scan message (i + length t) ms ->
    Scan message pos ((i, t) :: ms).

(** What the turns of the loop for the tokens [ms] make of the working copy:
    in each turn every occurrence of the token's text in the copy is
    replaced by the token's value. *)
Definition replace_everywhere (song : Song) (newline : QString)
    (html_escaped : bool) (copy : QString) (m : nat * QString) : QString :=
  QString_replace copy (snd m)
    (ReplaceVariable (snd m) song newline html_escaped).

Definition replace_found (song : Song) (newline : QString)
    (html_escaped : bool) (ms : list (nat * QString)) (copy : QString)
  : QString :=
  fold_left (replace_everywhere song newline html_escaped) ms copy.

(** A song for the examples, with the given title and artist. *)
Definition song_with (title artist : QString) : Song :=
  {| PrettyTitle := title; album := qs "Album"; artist := artist;
     effective_albumartist := artist; track := 3; disc := 1;
     PrettyYear := qs "2001"; PrettyOriginalYear := []; genre := qs "Rock";
     composer := []; performer := []; grouping := [];
     PrettyLength := qs "3:05"; basefilename := qs "song.flac";
     url_toString := qs "file:///music/song.flac"; playcount := 7;
     skipcount := 0; PrettyRating := [] |}.

(** Characters [toHtmlEscaped] leaves as they are. *)
Definition plain_char (c : QChar) : Prop :=
  c <> "<"%char /\ c <> ">"%char /\ c <> "&"%char /\ c <> quote.

(** Literal text: no percent sign in it. *)
Definition literal (s : QString) : Prop := Forall (fun c => c <> percent) s.

(** The names the chain of [ReplaceVariable] compares with. *)
Definition dispatch_table : list QString :=
  [ qs "%title%"; qs "%album%"; qs "%artist%"; qs "%albumartist%";
    qs "%track%"; qs "%disc%"; qs "%year%"; qs "%originalyear%";
    qs "%genre%"; qs "%composer%"; qs "%performer%"; qs "%grouping%";
    qs "%length%"; qs "%filename%"; qs "%url%"; qs "%playcount%";
    qs "%skipcount%"; qs "%rating%"; qs "%newline%" ].

(** Substitution as the description has it: one pass from left to right over
    the message, in which every token is replaced by its value and the text
    put in is not looked at again.  [skip] counts the characters of a token
    that are still to be passed over. *)
Fixpoint substitute_single_pass (s : QString) (skip : nat) (song : Song)
    (newline : QString) (html_escaped : bool) : QString :=
  match s with
  | [] => []
  | c :: s' =>
      match skip with
      | S k => substitute_single_pass s' k song newline html_escaped
      | O =>
          match match_variable_here s with
          | Some n =>
              ReplaceVariable (firstn n s) song newline html_escaped ++
              substitute_single_pass s' (n - 1) song newline html_escaped
          | None => c :: substitute_single_pass s' 0 song newline html_escaped
          end
      end
  end.

(** The separator the description has removed: [" - "] in front of [>] or of
    the end of the string. *)
Definition described_dangling_here (s : QString) : bool :=
  startsWith s (qs " - ") &&
  match skipn 3 s with
  | [] => true
  | c :: _ => Ascii.eqb c ">"
  end.

Fixpoint remove_described_dangling (s : QString) : QString :=
  if described_dangling_here s then skipn 3 s
  else match s with
       | [] => []
       | c :: s' => c :: remove_described_dangling s'
       end.

(** [" - "] stands in [s] at offset [i], in front of [>], of the end of the
    string, or of a line feed that ends the string. *)
Definition dangling_at (s : QString) (i : nat) : Prop :=
  exists pre post,
    s = pre ++ qs " - " ++ post /\ length pre = i /\
    (post = [] \/ (exists rest, post = ">"%char :: rest) \/ post = [LF]).

(* ================================================================== *)
(** * Paths *)

Definition slash : QChar := "/"%char.

(** The fields of [s] between its slashes, empty fields included. *)
Fixpoint fields (s : QString) : list QString :=
  match s with
  | [] => [[]]
  | c :: s' =>
      if Ascii.eqb c slash then [] :: fields s'
      else match fields s' with
           | field :: rest => (c :: field) :: rest
           | [] => [[c]]
           end
  end.

(** [s.section('/', -1, -1)]: the last field. *)
Definition section_last (s : QString) : QString := last (fields s) [].

(** [QDir::isAbsolutePath], on Unix. *)
Definition isAbsolute (path : QString) : bool := startsWith path [slash].

(** The name of an entry of a directory: not empty, without slash, and
    neither [.] nor [..]. *)
Definition plain_name (name : QString) : bool :=
  negb (QString_eqb name []) && negb (QString_eqb name (qs ".")) &&
  negb (QString_eqb name (qs "..")) &&
  forallb (fun c => negb (Ascii.eqb c slash)) name.

(** [QFileInfo::isHidden], on Unix: the name starts with a dot. *)
Definition isHidden (name : QString) : bool := startsWith name (qs ".").

(* ================================================================== *)
(** * A file system *)

(** Regular files and directories.  A file that is not [accessible] can be
    neither read nor removed (a permission error); a directory keeps its
    entries in the order in which it lists them. *)
Unset Elimination Schemes.
Inductive Node : Type :=
| File (accessible : bool) (data : QString)
| Dir (entries : list (QString * Node)).
Set Elimination Schemes.

Definition Entries := list (QString * Node).

Definition is_dir (n : Node) : bool :=
  match n with Dir _ => true | File _ _ => false end.

Definition is_file (n : Node) : bool :=
  match n with Dir _ => false | File _ _ => true end.

(** The first entry called [name]. *)
Fixpoint entry (name : QString) (es : Entries) : option Node :=
  match es with
  | [] => None
  | (n, child) :: es' => if QString_eqb n name then Some child else entry name es'
  end.

(** [es] without its first entry called [name]. *)
Fixpoint remove_entry (name : QString) (es : Entries) : Entries :=
  match es with
  | [] => []
  | (n, child) :: es' =>
      if QString_eqb n name then es' else (n, child) :: remove_entry name es'
  end.

(** [es] with [h] applied to its first entry called [name]. *)
Fixpoint update_entry (name : QString) (h : Node -> Node) (es : Entries)
  : Entries :=
  match es with
  | [] => []
  | (n, child) :: es' =>
      if QString_eqb n name then (n, h child) :: es'
      else (n, child) :: update_entry name h es'
  end.

(** The node at the place [p] below [n]. *)
Fixpoint lookup (n : Node) (p : list QString) : option Node :=
  match p with
  | [] => Some n
  | name :: p' =>
      match n with
      | Dir es =>
          match entry name es with
          | Some child => lookup child p'
          | None => None
          end
      | File _ _ => None
      end
  end.

(** [n] with [f] applied to the entries of the directory at [p]. *)
Fixpoint update (n : Node) (p : list QString) (f : Entries -> Entries)
  : Node :=
  match n with
  | File _ _ => n
  | Dir es =>
      match p with
      | [] => Dir (f es)
      | name :: p' => Dir (update_entry name (fun child => update child p' f) es)
      end
  end.

(** One field of a path, walked from the place [at_], which has to be a
    directory: an empty field and [.] stay there, [..] goes up, a name goes
    down (to a place that need not exist). *)
Definition walk (root : Node) (at_ : option (list QString)) (field : QString)
  : option (list QString) :=
  match at_ with
  | Some p =>
      match lookup root p with
      | Some (Dir _) =>
          if QString_eqb field [] || QString_eqb field (qs ".") then Some p
          else if QString_eqb field (qs "..") then Some (removelast p)
          else Some (p ++ [field])
      | _ => None
      end
  | None => None
  end.

(** The place a path names in the file system: the names from the root down
    to it, [None] when the path leads through something that is not a
    directory.  A relative path starts from the working directory [cwd]. *)
Definition resolve (root : Node) (cwd : list QString) (path : QString)
  : option (list QString) :=
  fold_left (walk root) (fields path)
    (Some (if isAbsolute path then [] else cwd)).

(** A place below the root as its parent directory and its name there. *)
Definition parent_and_name (p : list QString)
  : option (list QString * QString) :=
  match p with
  | [] => None
  | _ :: _ => Some (removelast p, last p [])
  end.

(** The entry at [p], when [p] is not the root and its parent is a
    directory that has it. *)
Definition entry_at (root : Node) (p : list QString) : option Node :=
  match parent_and_name p with
  | Some (parent, name) =>
      match lookup root parent with
      | Some (Dir es) => entry name es
      | _ => None
      end
  | None => None
  end.

(** [root] without the entry at [p]. *)
Definition without (root : Node) (p : list QString) : Node :=
  match parent_and_name p with
  | Some (parent, name) => update root parent (remove_entry name)
  | None => root
  end.

(** [unlink]: removes the accessible file at [p]. *)
Definition unlink (root : Node) (p : list QString) : option Node :=
  match entry_at root p with
  | Some (File true _) => Some (without root p)
  | _ => None
  end.

(** [rmdir]: removes the empty directory at [p]. *)
Definition rmdir (root : Node) (p : list QString) : option Node :=
  match entry_at root p with
  | Some (Dir []) => Some (without root p)
  | _ => None
  end.

(** Copies the accessible file at [from] to the place [to], which must be
    free and in a directory. *)
Definition copy_file (root : Node) (from to : list QString) : option Node :=
  match lookup root from, parent_and_name to with
  | Some (File true data), Some (parent, name) =>
      match lookup root parent with
      | Some (Dir es) =>
          match entry name es with
          | None =>
              Some (update root parent (fun es => es ++ [(name, File true data)]))
          | Some _ => None
          end
      | _ => None
      end
  | _, _ => None
  end.

(** One field of a path walked by [mkpath], which makes the directory a
    name goes down to when it is missing. *)
Definition make_step (st : Node * option (list QString)) (field : QString)
  : Node * option (list QString) :=
  match snd st with
  | Some p =>
      match lookup (fst st) p with
      | Some (Dir es) =>
          if QString_eqb field [] || QString_eqb field (qs ".") then st
          else if QString_eqb field (qs "..") then (fst st, Some (removelast p))
          else match entry field es with
               | Some _ => (fst st, Some (p ++ [field]))
               | None =>
                   (update (fst st) p (fun es => es ++ [(field, Dir [])]),
                    Some (p ++ [field]))
               end
      | _ => (fst st, None)
      end
  | None => st
  end.

(** [mkdir -p]: the file system with the directories of [path] that were
    missing, and whether [path] names a directory in the end. *)
Definition make_path (root : Node) (cwd : list QString) (path : QString)
  : Node * bool :=
  let st := fold_left make_step (fields path)
              (root, Some (if isAbsolute path then [] else cwd)) in
  (fst st,
   match snd st with
   | Some p => match lookup (fst st) p with Some (Dir _) => true | _ => false end
   | None => false
   end).

(* ================================================================== *)
(** * The Qt calls on the file system *)

(** [QDir::Filter] *)
Definition QDir_Dirs : Z := 0x001.
Definition QDir_Files : Z := 0x002.
Definition QDir_Hidden : Z := 0x100.
Definition QDir_NoDot : Z := 0x2000.
Definition QDir_NoDotDot : Z := 0x4000.
Definition QDir_NoDotAndDotDot : Z := Z.lor QDir_NoDot QDir_NoDotDot.

Definition has_filter (filters flag : Z) : bool :=
  negb (Z.land filters flag =? 0)%Z.

(** A call that changes the file system. *)
Inductive Step : Type :=
| QFile_remove_step (fileName : QString)
| QFile_moveToTrash_step (fileName : QString)
| QDir_rmdir_step (dir dirName : QString)
| QDir_mkpath_step (dirPath : QString)
| QFile_copy_step (fileName newName : QString).

(** The calls made, with what they returned. *)
Inductive Event : Type :=
| Listed (dir : QString) (filters : Z) (names : list QString)
| Did (step : Step) (ok : bool).

(** The state the functions run in: the file system with its root, the
    working directory and the trash, the calls made so far (oldest first) and
    the warnings written with [qLog]. *)
Record World : Type := mkWorld {
  fs_root : Node;
  fs_cwd : list QString;
  fs_trash : list (list QString * Node);
  calls : list Event;
  warnings : list (list QString)
}.

(** A computation on the world; [None] when the fuel of a recursion is used
    up. *)
Definition M (A : Type) : Type := World -> option (A * World).

Definition ret {A : Type} (a : A) : M A := fun w => Some (a, w).

Definition bind {A B : Type} (m : M A) (k : A -> M B) : M B :=
  fun w => match m w with
           | Some (a, w') => k a w'
           | None => None
           end.

Definition out_of_fuel {A : Type} : M A := fun _ => None.

Notation "x <- m ;; k" := (bind m (fun x => k))
  (at level 61, m at next level, right associativity).

(** [QDir(path)]: an empty path stands for the current directory. *)
Definition QDir (path : QString) : QString :=
  match path with [] => qs "." | _ :: _ => path end.

(** [QDir::filePath]: a relative name is taken from the directory. *)
Definition QDir_filePath (dir fileName : QString) : QString :=
  if isAbsolute fileName then fileName else dir ++ qs "/" ++ fileName.

(** Whether [entryList] lists the entry [name], [child] under [filters]. *)
Definition listed (filters : Z) (e : QString * Node) : bool :=
  (if is_dir (snd e) then has_filter filters QDir_Dirs
   else has_filter filters QDir_Files) &&
  (has_filter filters QDir_Hidden || negb (isHidden (fst e))).

Definition dot_entries (filters : Z) : list QString :=
  if has_filter filters QDir_Dirs then
    (if has_filter filters QDir_NoDot then [] else [qs "."]) ++
    (if has_filter filters QDir_NoDotDot then [] else [qs ".."])
  else [].

(** What [QDir(dir).entryList(filters)] returns in the file system [root]:
    nothing for a place that is not a directory. *)
Definition entry_names (root : Node) (cwd : list QString) (dir : QString)
    (filters : Z) : list QString :=
  match resolve root cwd dir with
  | Some p =>
      match lookup root p with
      | Some (Dir es) =>
          dot_entries filters ++ map fst (filter (listed filters) es)
      | _ => []
      end
  | None => []
  end.

Definition QDir_entryList (dir : QString) (filters : Z) : M (list QString) :=
  fun w =>
    let names := entry_names (fs_root w) (fs_cwd w) dir filters in
    Some (names,
          {| fs_root := fs_root w; fs_cwd := fs_cwd w; fs_trash := fs_trash w;
             calls := calls w ++ [Listed dir filters names];
             warnings := warnings w |}).

(** A change of the file system made at the place a path names. *)
Definition at_path (root : Node) (cwd : list QString) (path : QString)
    (change : Node -> list QString -> option Node) : Node * bool :=
  match resolve root cwd path with
  | Some p =>
      match change root p with
      | Some root' => (root', true)
      | None => (root, false)
      end
  | None => (root, false)
  end.

(** What a step makes of the file system and what it returns.  A step that
    fails leaves the file system as it was, but for [mkpath], which may have
    made some of the directories. *)
Definition apply_step (cwd : list QString) (s : Step) (root : Node)
  : Node * bool :=
  match s with
  | QFile_remove_step fileName => at_path root cwd fileName unlink
  | QFile_moveToTrash_step fileName => at_path root cwd fileName unlink
  | QDir_rmdir_step dir dirName =>
      match dirName with
      | [] => (root, false)
      | _ :: _ => at_path root cwd (QDir_filePath dir dirName) rmdir
      end
  | QDir_mkpath_step dirPath => make_path root cwd dirPath
  | QFile_copy_step fileName newName =>
      match resolve root cwd fileName with
      | Some from =>
          at_path root cwd newName (fun root to => copy_file root from to)
      | None => (root, false)
      end
  end.

(** What a step that succeeds puts into the trash. *)
Definition trashed (cwd : list QString) (s : Step) (root : Node)
  : list (list QString * Node) :=
  match s with
  | QFile_moveToTrash_step fileName =>
      match resolve root cwd fileName with
      | Some p =>
          match lookup root p with
          | Some n => [(p, n)]
          | None => []
          end
      | None => []
      end
  | _ => []
  end.

Definition perform (s : Step) : M bool :=
  fun w =>
    let (root', ok) := apply_step (fs_cwd w) s (fs_root w) in
    Some (ok,
          {| fs_root := root'; fs_cwd := fs_cwd w;
             fs_trash :=
               if ok then fs_trash w ++ trashed (fs_cwd w) s (fs_root w)
               else fs_trash w;
             calls := calls w ++ [Did s ok];
             warnings := warnings w |}).

Definition QFile_remove (fileName : QString) : M bool :=
  perform (QFile_remove_step fileName).

Definition QFile_moveToTrash (fileName : QString) : M bool :=
  perform (QFile_moveToTrash_step fileName).

Definition QDir_rmdir (dir dirName : QString) : M bool :=
  perform (QDir_rmdir_step dir dirName).

Definition QDir_mkpath (dirPath : QString) : M bool :=
  perform (QDir_mkpath_step dirPath).

Definition QFile_copy (fileName newName : QString) : M bool :=
  perform (QFile_copy_step fileName newName).

(** [qLog(Warning) << ...] *)
Definition qLog_Warning (text : list QString) : M unit :=
  fun w =>
    Some (tt,
          {| fs_root := fs_root w; fs_cwd := fs_cwd w; fs_trash := fs_trash w;
             calls := calls w; warnings := warnings w ++ [text] |}).

(** [for (child : children) { if (!body(child)) return false; }], [true]
    when the loop runs to its end. *)
Fixpoint for_children (children : list QString) (body : QString -> M bool)
  : M bool :=
  match children with
  | [] => ret true
  | child :: rest =>
      ok <- body child ;;
      if ok then for_children rest body else ret false
  end.

(* ================================================================== *)
(** * MoveToTrashRecursive, RemoveRecursive, CopyRecursive *)

Definition QT_VERSION_CHECK (major minor patch : Z) : Z :=
  Z.lor (Z.lor (Z.shiftl major 16) (Z.shiftl minor 8)) patch.

Section Utilities.

(** The version of Qt the file is compiled with. *)
Variable QT_VERSION : Z.

Fixpoint MoveToTrashRecursive (fuel : nat) (path : QString) : M bool :=
  if (QT_VERSION >=? QT_VERSION_CHECK 5 15 0)%Z then
    match fuel with
    | O => out_of_fuel
    | S fuel' =>
        let dir := QDir path in
        dirs <- QDir_entryList dir
                  (Z.lor (Z.lor QDir_NoDotAndDotDot QDir_Dirs) QDir_Hidden) ;;
        ok <- for_children dirs (fun child =>
                MoveToTrashRecursive fuel' (path ++ qs "/" ++ child)) ;;
        if ok then
          files <- QDir_entryList dir
                     (Z.lor (Z.lor QDir_NoDotAndDotDot QDir_Files) QDir_Hidden) ;;
          ok <- for_children files (fun child =>
                  QFile_moveToTrash (path ++ qs "/" ++ child)) ;;
          if ok then QDir_rmdir dir path else ret false
        else ret false
    end
  else ret false.

Fixpoint RemoveRecursive (fuel : nat) (path : QString) : M bool :=
  match fuel with
  | O => out_of_fuel
  | S fuel' =>
      let dir := QDir path in
      dirs <- QDir_entryList dir
                (Z.lor (Z.lor QDir_NoDotAndDotDot QDir_Dirs) QDir_Hidden) ;;
      ok <- for_children dirs (fun child =>
              RemoveRecursive fuel' (path ++ qs "/" ++ child)) ;;
      if ok then
        files <- QDir_entryList dir
                   (Z.lor (Z.lor QDir_NoDotAndDotDot QDir_Files) QDir_Hidden) ;;
        ok <- for_children files (fun child =>
                QFile_remove (path ++ qs "/" ++ child)) ;;
        if ok then QDir_rmdir dir path else ret false
      else ret false
  end.

Fixpoint CopyRecursive (fuel : nat) (source destination : QString)
  : M bool :=
  match fuel with
  | O => out_of_fuel
  | S fuel' =>
      (* Make the destination directory *)
      let dir_name := section_last source in
      let dest_path := destination ++ qs "/" ++ dir_name in
      _ <- QDir_mkpath dest_path ;;
      let dir := QDir source in
      dirs <- QDir_entryList dir (Z.lor QDir_NoDotAndDotDot QDir_Dirs) ;;
      ok <- for_children dirs (fun child =>
              ok <- CopyRecursive fuel' (source ++ qs "/" ++ child) dest_path ;;
              if ok then ret true
              else
                _ <- qLog_Warning [qs "Failed to copy dir";
                                   source ++ qs "/" ++ child; qs "to";
                                   dest_path] ;;
                ret false) ;;
      if ok then
        files <- QDir_entryList dir (Z.lor QDir_NoDotAndDotDot QDir_Files) ;;
        for_children files (fun child =>
          ok <- QFile_copy (source ++ qs "/" ++ child)
                           (dest_path ++ qs "/" ++ child) ;;
          if ok then ret true
          else
            _ <- qLog_Warning [qs "Failed to copy file";
                               source ++ qs "/" ++ child; qs "to";
                               dest_path] ;;
            ret false)
      else ret false
  end.

End Utilities.

(* ================================================================== *)
(** * The description of the directory operations, in its own words *)

(** The filters the three functions list a directory with. *)
Definition dirs_and_hidden : Z :=
  Z.lor (Z.lor QDir_NoDotAndDotDot QDir_Dirs) QDir_Hidden.
Definition files_and_hidden : Z :=
  Z.lor (Z.lor QDir_NoDotAndDotDot QDir_Files) QDir_Hidden.
Definition dirs_not_hidden : Z := Z.lor QDir_NoDotAndDotDot QDir_Dirs.
Definition files_not_hidden : Z := Z.lor QDir_NoDotAndDotDot QDir_Files.

(** The names of the directories and of the files among [es], hidden ones
    included, in the order of [es]. *)
Definition dirs_of (es : Entries) : list QString :=
  map fst (filter (fun e => is_dir (snd e)) es).

Definition files_of (es : Entries) : list QString :=
  map fst (filter (fun e => is_file (snd e)) es).

(** The number of directories nested in one another from [n] down. *)
Fixpoint depth (n : Node) : nat :=
  match n with
  | File _ _ => 0
  | Dir es => S (fold_right (fun e d => Nat.max (depth (snd e)) d) 0 es)
  end.

Fixpoint distinct (names : list QString) : bool :=
  match names with
  | [] => true
  | name :: rest =>
      negb (existsb (QString_eqb name) rest) && distinct rest
  end.

(** Every directory from [n] down has entries with names of their own, none
    of them empty, with a slash, [.] or [..]. *)
Fixpoint well_formed (n : Node) : bool :=
  match n with
  | File _ _ => true
  | Dir es =>
      forallb (fun e => plain_name (fst e)) es && distinct (map fst es) &&
      forallb (fun e => well_formed (snd e)) es
  end.

(** Every file from [n] down is accessible. *)
Fixpoint all_accessible (n : Node) : bool :=
  match n with
  | File accessible _ => accessible
  | Dir es => forallb (fun e => all_accessible (snd e)) es
  end.

(** The calls by which the directory [n] at [path] is removed, children
    first: for every directory in it the calls that remove that directory,
    then one call of [leaf] for every file in it, then [rmdir] for the
    directory itself, all of them successful.  [leaf] is [QFile::remove] or
    [QFile::moveToTrash]. *)
Fixpoint removal_calls (leaf : QString -> Step) (path : QString) (n : Node)
  : list Event :=
  match n with
  | File _ _ => []
  | Dir es =>
      Listed (QDir path) dirs_and_hidden (dirs_of es) ::
      flat_map (fun e =>
                  if is_dir (snd e)
                  then removal_calls leaf (path ++ qs "/" ++ fst e) (snd e)
                  else []) es ++
      Listed (QDir path) files_and_hidden (files_of es) ::
      map (fun name => Did (leaf (path ++ qs "/" ++ name)) true) (files_of es)
      ++ [Did (QDir_rmdir_step (QDir path) path) true]
  end.



(** [path] is [source] or lies below it with no hidden name on the way. *)
Inductive visible_below (source : QString) : QString -> Prop :=
| visible_here : visible_below source source
| visible_child path child :
    visible_below source path -> isHidden child = false ->
    visible_below source (path ++ qs "/" ++ child).

(** A call [CopyRecursive] may make from [source]: it lists a directory
    reached without a hidden name and gets no hidden name listed, it copies
    a file reached without a hidden name, or it makes a directory. *)
Definition copies_visible (source : QString) (e : Event) : Prop :=
  match e with
  | Listed dir _ names =>
      (exists path, dir = QDir path /\ visible_below source path) /\
      Forall (fun n => isHidden n = false) names
  | Did (QFile_copy_step fileName _) _ =>
      exists path child,
        fileName = path ++ qs "/" ++ child /\
        visible_below source path /\ isHidden child = false
  | Did (QDir_mkpath_step _) _ => True
  | Did _ _ => False
  end.

(** The shape [RemoveRecursive] and [MoveToTrashRecursive] have in common,
    with the step made for a file left open; the two functions are instances
    of it ([RemoveRecursive_remove_tree],
    [MoveToTrashRecursive_remove_tree]). *)
Fixpoint remove_tree (leaf : QString -> Step) (fuel : nat) (path : QString)
  : M bool :=
  match fuel with
  | O => out_of_fuel
  | S fuel' =>
      let dir := QDir path in
      dirs <- QDir_entryList dir dirs_and_hidden ;;
      ok <- for_children dirs (fun child =>
              remove_tree leaf fuel' (path ++ qs "/" ++ child)) ;;
      if ok then
        files <- QDir_entryList dir files_and_hidden ;;
        ok <- for_children files (fun child =>
                perform (leaf (path ++ qs "/" ++ child))) ;;
        if ok then QDir_rmdir dir path else ret false
      else ret false
  end.

(** [after w w' root evs]: from [w] to [w'] the calls [evs] were made and
    left the file system [root]; the working directory and the warnings
    stayed. *)
Definition after (w w' : World) (root : Node) (evs : list Event) : Prop :=
  fs_root w' = root /\ fs_cwd w' = fs_cwd w /\
  calls w' = calls w ++ evs /\ warnings w' = warnings w.

(** [path] is the absolute path made of the names [p]: a slash in front of
    every name, and nothing else. *)
Definition plain_path (path : QString) (p : list QString) : Prop :=
  fields path = [] :: p /\ Forall (fun name => plain_name name = true) p.

(** [remove_tree] removes the directory [n], wherever it stands: called
    with enough fuel on the absolute path of [n], an entry of a directory of
    the file system, it returns [true], has made the calls
    [removal_calls leaf path n] and leaves the file system without [n]. *)
Definition removes (leaf : QString -> Step) (n : Node) : Prop :=
  forall fuel path w parent name siblings,
    plain_path path (parent ++ [name]) ->
    lookup (fs_root w) parent = Some (Dir siblings) ->
    entry name siblings = Some n ->
    is_dir n = true -> well_formed n = true -> all_accessible n = true ->
    depth n <= fuel ->
    exists w',
      remove_tree leaf fuel path w = Some (true, w') /\
      after w w' (update (fs_root w) parent (remove_entry name))
        (removal_calls leaf path n).




(** The calls of a removal of the directory at [path] and what it returns:
    the directories in it are listed and removed in the same way, one after
    the other; when all of that went well the files in it are listed and
    [leaf] is called for one after the other; when all of that went well too
    [QDir(path).rmdir(path)] is called, and what it returns is returned.
    Nothing is called behind a child that failed, and [false] is
    returned. *)
Unset Elimination Schemes.
Set Elimination Schemes.

(** Every call [m] makes is one of [P]. *)
Definition calls_only {A : Type} (P : Event -> Prop) (m : M A) : Prop :=
  forall w a w',
    m w = Some (a, w') ->
    exists evs, calls w' = calls w ++ evs /\ Forall P evs.

(** Whether [path] names something in the file system. *)
Definition path_exists (root : Node) (cwd : list QString) (path : QString)
  : bool :=
  match resolve root cwd path with
  | Some p => match lookup root p with Some _ => true | None => false end
  | None => false
  end.

(** A file system for the examples: under [/music] an album with a hidden
    file and a hidden directory, a directory with a file that is not
    accessible, and an empty directory; [/backup] is empty.  The working
    directory is [/music]. *)
Definition example_album : Entries :=
  [ (qs "01.flac", File true (qs "fLaC"));
    (qs ".cover.jpg", File true (qs "JFIF"));
    (qs ".thumbs", Dir [ (qs "a.png", File true (qs "PNG")) ]);
    (qs "extras", Dir [ (qs "notes.txt", File true (qs "notes")) ]) ].

Definition example_locked : Entries :=
  [ (qs "a", File true (qs "A"));
    (qs "b", File false (qs "B"));
    (qs "c", File true (qs "C")) ].

Definition example_music : Entries :=
  [ (qs "album", Dir example_album);
    (qs "locked", Dir example_locked);
    (qs "empty", Dir []) ].

Definition example_root : Node :=
  Dir [ (qs "music", Dir example_music); (qs "backup", Dir []) ].

Definition example_world : World :=
  {| fs_root := example_root; fs_cwd := [qs "music"]; fs_trash := [];
     calls := []; warnings := [] |}.


(* ================================================================== *)
(** * More of [QString] *)

(** [s.contains(c)] *)
Definition contains (s : QString) (c : QChar) : bool :=
  existsb (Ascii.eqb c) s.

(** [s.split(sep)], empty parts kept: the fields of [s] between the
    occurrences of the character [sep]. *)
Fixpoint split_by (sep : QChar) (s : QString) : list QString :=
  match s with
  | [] => [[]]
  | c :: s' =>
      if Ascii.eqb c sep then [] :: split_by sep s'
      else match split_by sep s' with
           | field :: rest => (c :: field) :: rest
           | [] => [[c]]
           end
  end.

(** [list.join(sep)] *)
Definition join_by (sep : QChar) (l : list QString) : QString :=
  match l with
  | [] => []
  | field :: rest => field ++ flat_map (fun f => sep :: f) rest
  end.

(** [s.section(sep, start, end)] with the default flags: the fields from
    [start] to [end], both counted from the right when negative, with the
    separators between them. *)
Definition QString_section (s : QString) (sep : QChar) (start end_ : Z)
  : QString :=
  let sections := split_by sep s in
  let sectionsSize := Z.of_nat (length sections) in
  let start := if (start <? 0)%Z then (start + sectionsSize)%Z else start in
  let end_ := if (end_ <? 0)%Z then (end_ + sectionsSize)%Z else end_ in
  if (start >=? sectionsSize)%Z || (end_ <? 0)%Z || (start >? end_)%Z then []
  else
    let first := Z.to_nat start in
    join_by sep (firstn (Z.to_nat end_ + 1 - first) (skipn first sections)).

(* ================================================================== *)
(** * PathWithoutFilenameExtension, FiddleFileExtension *)

Definition PathWithoutFilenameExtension (filename : QString) : QString :=
  if contains (QString_section filename "/"%char (-1) (-1)) "."%char
  then QString_section filename "."%char 0 (-2)
  else filename.

Definition FiddleFileExtension (filename new_extension : QString) : QString :=
  PathWithoutFilenameExtension filename ++ qs "." ++ new_extension.

(* ================================================================== *)
(** * Prepend, Updateify *)

Definition QStringList := list QString.

(** [list[i] = x]; the index is in the range of the list wherever the code
    here writes to one. *)
Fixpoint set_at {A : Type} (l : list A) (i : nat) (x : A) : list A :=
  match l, i with
  | [], _ => []
  | _ :: l', O => x :: l'
  | y :: l', S i' => y :: set_at l' i' x
  end.

(** [for (int i = 0; i < n; ++i) body], on the variables [s] of the loop. *)
Definition for_index {S : Type} (n : nat) (body : nat -> S -> S) (s : S) : S :=
  fold_left (fun s i => body i s) (seq 0 n) s.

(** The count of [ret] stays what it is over the loop. *)
Definition Prepend (text : QString) (list : QStringList) : QStringList :=
  let ret := list in
  for_index (length ret)
    (fun i ret => set_at ret i (text ++ nth i ret [])) ret.

Definition Updateify (list : QStringList) : QStringList :=
  let ret := list in
  for_index (length ret)
    (fun i ret => set_at ret i ((nth i ret [] ++ qs " = :") ++ nth i ret []))
    ret.

(* ================================================================== *)
(** * DecodeHtmlEntities *)

Definition DecodeHtmlEntities (text : QString) : QString :=
  let copy := text in
  let copy := QString_replace copy (qs "&amp;") (qs "&") in
  let copy := QString_replace copy (qs "&#38;") (qs "&") in
  let copy := QString_replace copy (qs "&quot;") [quote] in
  let copy := QString_replace copy (qs "&#34;") [quote] in
  let copy := QString_replace copy (qs "&apos;") (qs "'") in
  let copy := QString_replace copy (qs "&#39;") (qs "'") in
  let copy := QString_replace copy (qs "&lt;") (qs "<") in
  let copy := QString_replace copy (qs "&#60;") (qs "<") in
  let copy := QString_replace copy (qs "&gt;") (qs ">") in
  let copy := QString_replace copy (qs "&#62;") (qs ">") in
  let copy := QString_replace copy (qs "&#x27;") (qs "'") in
  copy.

(** The entities [DecodeHtmlEntities] knows, in the order in which it
    replaces them, each with the text it stands for. *)
Definition html_entities : list (QString * QString) :=
  [ (qs "&amp;", qs "&"); (qs "&#38;", qs "&"); (qs "&quot;", [quote]);
    (qs "&#34;", [quote]); (qs "&apos;", qs "'"); (qs "&#39;", qs "'");
    (qs "&lt;", qs "<"); (qs "&#60;", qs "<"); (qs "&gt;", qs ">");
    (qs "&#62;", qs ">"); (qs "&#x27;", qs "'") ].

(** [s.contains(e)]: the text [e] stands somewhere in [s]. *)
Fixpoint occurs (e s : QString) : bool :=
  startsWith s e ||
  match s with
  | [] => false
  | _ :: s' => occurs e s'
  end.

(** [toHtmlEscaped] for one character when some of its four entities have
    been decoded again: a flag tells whether the entity still stands for its
    character. *)
Definition escape_char_left (amp quot lt gt : bool) (c : QChar) : QString :=
  if Ascii.eqb c "<" then (if lt then qs "&lt;" else [c])
  else if Ascii.eqb c ">" then (if gt then qs "&gt;" else [c])
  else if Ascii.eqb c "&" then (if amp then qs "&amp;" else [c])
  else if Ascii.eqb c quote then (if quot then qs "&quot;" else [c])
  else [c].

(** A text for the examples, with an ampersand, quotes and tags. *)
Definition example_html : QString :=
  qs "<a href=" ++ [quote] ++ qs "x" ++ [quote] ++ qs ">Tom & Jerry</a>".

(* ================================================================== *)
(** * IsColorDark *)

(** An [int] of 32 bits: the value [z] wraps around to. *)
Definition to_int32 (z : Z) : Z :=
  ((z + 2147483648) mod 4294967296 - 2147483648)%Z.

(** The channels of a [QColor], each from 0 to 255. *)
Record QColor := mkQColor {
  red : Z;
  green : Z;
  blue : Z;
  alpha : Z
}.

Definition valid_color (c : QColor) : Prop :=
  (0 <= red c <= 255 /\ 0 <= green c <= 255 /\ 0 <= blue c <= 255 /\
   0 <= alpha c <= 255)%Z.

Definition IsColorDark (color : QColor) : bool :=
  (Z.quot (to_int32 (30 * red color + 59 * green color + 11 * blue color)) 100
   <=? 130)%Z.

(* ================================================================== *)
(** * PrettyTime, PrettyTimeDelta, PrettySize *)

(** [qAbs] on [int]: the negation of the least [int] wraps around. *)
Definition qAbs (t : Z) : Z :=
  if (t >=? 0)%Z then t else to_int32 (- t).

(** [%d] of [QString::asprintf] *)
Definition asprintf_d (n : Z) : QString := QString_number n.

(** [%02d] of [QString::asprintf]: at least two characters, with a zero in
    front of a single digit. *)
Definition asprintf_02d (n : Z) : QString :=
  let s := QString_number n in
  if length s <? 2 then "0"%char :: s else s.

Definition PrettyTime (seconds : Z) : QString :=
  (* last.fm sometimes gets the track length wrong, so you end up with
     negative times. *)
  let seconds := qAbs seconds in
  let hours := Z.quot seconds (60 * 60) in
  let minutes := Z.rem (Z.quot seconds 60) 60 in
  let seconds := Z.rem seconds 60 in
  if (hours >? 0)%Z
  then asprintf_d hours ++ qs ":" ++ asprintf_02d minutes ++ qs ":" ++
       asprintf_02d seconds
  else asprintf_d minutes ++ qs ":" ++ asprintf_02d seconds.

Definition PrettyTimeDelta (seconds : Z) : QString :=
  (if (seconds >=? 0)%Z then qs "+" else qs "-") ++ PrettyTime seconds.

(** [PrettySize(const QSize size)] *)
Record QSize := mkQSize {
  width : Z;
  height : Z
}.

Definition PrettySize (size : QSize) : QString :=
  QString_number (width size) ++ qs "x" ++ QString_number (height size).

Definition is_digit (c : QChar) : Prop :=
  In c (list_ascii_of_string "0123456789").

(** The number a decimal text stands for, [0] for any other text. *)
Definition decimal_value (s : QString) : Z :=
  match NilZero.int_of_string (string_of_list_ascii s) with
  | Some d => Z.of_int d
  | None => 0%Z
  end.

(** The seconds a text of the form [h:mm:ss] or [m:ss] stands for: its
    fields between the colons are the digits of a number to the base 60. *)
Definition clock_value (s : QString) : Z :=
  fold_left (fun v field => (60 * v + decimal_value field)%Z)
    (split_by ":"%char s) 0%Z.

(** The size a text of the form [width x height] stands for. *)
Definition size_value (s : QString) : QSize :=
  let fields := split_by "x"%char s in
  mkQSize (decimal_value (nth 0 fields [])) (decimal_value (nth 1 fields [])).

(* ================================================================== *)
(** * Hmac, HmacSha256, HmacMd5, HmacSha1, Sha1CoverHash *)

Definition QByteArray := list Byte.byte.

(** [a ^ b] on two [char]s, bit by bit. *)
Definition byte_xor (a b : Byte.byte) : Byte.byte :=
  let '(a0, (a1, (a2, (a3, (a4, (a5, (a6, a7))))))) := Byte.to_bits a in
  let '(b0, (b1, (b2, (b3, (b4, (b5, (b6, b7))))))) := Byte.to_bits b in
  Byte.of_bits
    (xorb a0 b0, (xorb a1 b1, (xorb a2 b2, (xorb a3 b3,
     (xorb a4 b4, (xorb a5 b5, (xorb a6 b6, xorb a7 b7))))))).

(** [QCryptographicHash::Algorithm], the algorithms of Qt 5.0. *)
Inductive Algorithm : Type :=
| Md4 | Md5 | Sha1 | Sha224 | Sha256 | Sha384 | Sha512.

(** [QChar::toLower] for the characters of Latin-1: the letters from [A] to
    [Z] and from U+00C0 to U+00DE, the multiplication sign U+00D7 apart. *)
Definition toLower_char (c : QChar) : QChar :=
  let n := nat_of_ascii c in
  if ((65 <=? n) && (n <=? 90)) ||
     ((192 <=? n) && (n <=? 222) && negb (n =? 215))
  then ascii_of_nat (n + 32)
  else c.

Definition QString_toLower (s : QString) : QString := map toLower_char s.

Definition byte_of_N (n : N) : Byte.byte :=
  match Byte.of_N n with
  | Some b => b
  | None => Byte.x00
  end.

(** [QString::toUtf8] for the characters of Latin-1: one byte below U+0080,
    two bytes from there on. *)
Definition toUtf8_char (c : QChar) : QByteArray :=
  let n := N_of_ascii c in
  if (n <? 128)%N then [byte_of_N n]
  else [byte_of_N (N.lor 192 (N.shiftr n 6));
        byte_of_N (N.lor 128 (N.land n 63))].

Definition QString_toUtf8 (s : QString) : QByteArray := flat_map toUtf8_char s.

(** The bytes a [const char *] stands for: those in front of the first zero
    byte. *)
Fixpoint c_string (data : QByteArray) : QByteArray :=
  match data with
  | [] => []
  | b :: data' =>
      if Byte.eqb b Byte.x00 then [] else b :: c_string data'
  end.

Section Hashing.

(** [QCryptographicHash::hash(data, method)] *)
Variable hash : Algorithm -> QByteArray -> QByteArray.

(** [None] when the assertion on the length of the key fails. *)
Definition Hmac (key data : QByteArray) (method : Algorithm)
  : option QByteArray :=
  let block_size := 64 in
  if length key <=? block_size then
    let inner_padding := repeat Byte.x36 block_size in
    let outer_padding := repeat Byte.x5c block_size in
    let paddings :=
      for_index (length key)
        (fun i paddings =>
           let inner_padding := fst paddings in
           let outer_padding := snd paddings in
           let inner_padding :=
             set_at inner_padding i
               (byte_xor (nth i inner_padding Byte.x00) (nth i key Byte.x00)) in
           let outer_padding :=
             set_at outer_padding i
               (byte_xor (nth i outer_padding Byte.x00) (nth i key Byte.x00)) in
           (inner_padding, outer_padding))
        (inner_padding, outer_padding) in
    let inner_padding := fst paddings in
    let outer_padding := snd paddings in
    let part := [] in
    let part := part ++ inner_padding in
    let part := part ++ data in
    let total := [] in
    let total := total ++ outer_padding in
    let total := total ++ hash method part in
    Some (hash method total)
  else None.

Definition HmacSha256 (key data : QByteArray) : option QByteArray :=
  Hmac key data Sha256.

Definition HmacMd5 (key data : QByteArray) : option QByteArray :=
  Hmac key data Md5.

Definition HmacSha1 (key data : QByteArray) : option QByteArray :=
  Hmac key data Sha1.

(** [addData] puts its bytes behind those the hash has been given before;
    [result] is the hash of them all. *)
Definition Sha1CoverHash (artist album : QString) : QByteArray :=
  let hash_data := [] in
  let hash_data :=
    hash_data ++ c_string (QString_toUtf8 (QString_toLower artist)) in
  let hash_data :=
    hash_data ++ c_string (QString_toUtf8 (QString_toLower album)) in
  hash Sha1 hash_data.

(** HMAC as RFC 2104 has it for a key of at most one block: the key is
    filled up with zero bytes to the length of a block [B = 64], and the
    result is [H(K xor opad, H(K xor ipad, text))]. *)
Definition xor_bytes (a b : QByteArray) : QByteArray :=
  map (fun p => byte_xor (fst p) (snd p)) (combine a b).

Definition hmac_rfc2104 (method : Algorithm) (K text : QByteArray)
  : QByteArray :=
  let B := 64 in
  let K := K ++ repeat Byte.x00 (B - length K) in
  let ipad := repeat Byte.x36 B in
  let opad := repeat Byte.x5c B in
  hash method (xor_bytes K opad ++ hash method (xor_bytes K ipad ++ text)).

End Hashing.

(** What the loop of [Hmac] makes of a padding: the bytes of the key are
    combined with the first bytes of the padding. *)
Fixpoint xor_key (padding key : QByteArray) : QByteArray :=
  match padding, key with
  | p :: padding', k :: key' => byte_xor p k :: xor_key padding' key'
  | _, _ => padding
  end.

(** A checksum for the examples: the bytes themselves, in reverse. *)
Definition example_hash (method : Algorithm) (data : QByteArray) : QByteArray :=
  rev data.

(* ================================================================== *)
(** * ConsumeCurrentElement, ParseUntilElement, ParseUntilElementCI *)

(** [QXmlStreamReader::TokenType] *)
Inductive TokenType : Type :=
| NoToken | Invalid | StartDocument | EndDocument | StartElement | EndElement
| Characters | Comment | DTD | EntityReference | ProcessingInstruction.

(** A token with what [name()] returns for it. *)
Record Token : Type := mkToken {
  token_type : TokenType;
  token_name : QString
}.

(** A reader: the token it stands at and the tokens it will read.  After
    the end of the document or an error nothing more is read; an input that
    ends without either is an error. *)
Record QXmlStreamReader : Type := mkReader {
  current : Token;
  pending : list Token
}.

(** [reader->name()] *)
Definition QXmlStreamReader_name (reader : QXmlStreamReader) : QString :=
  token_name (current reader).

Definition atEnd (reader : QXmlStreamReader) : bool :=
  match token_type (current reader) with
  | EndDocument | Invalid => true
  | _ => false
  end.

Definition readNext (reader : QXmlStreamReader) : TokenType * QXmlStreamReader :=
  if atEnd reader then (Invalid, mkReader (mkToken Invalid []) (pending reader))
  else
    match pending reader with
    | t :: rest => (token_type t, mkReader t rest)
    | [] => (Invalid, mkReader (mkToken Invalid []) [])
    end.

(** The [while] loop of [ConsumeCurrentElement], [None] when the fuel runs
    out. *)
Fixpoint ConsumeCurrentElement_loop (fuel : nat) (level : Z)
    (reader : QXmlStreamReader) : option QXmlStreamReader :=
  match fuel with
  | O => None
  | S fuel' =>
      if negb (level =? 0)%Z && negb (atEnd reader) then
        let (type, reader) := readNext reader in
        let level :=
          match type with
          | StartElement => to_int32 (level + 1)
          | EndElement => to_int32 (level - 1)
          | _ => level
          end in
        ConsumeCurrentElement_loop fuel' level reader
      else Some reader
  end.

(** Every turn of the loops reads a token, and the turn behind the last
    token ends them. *)
Definition enough_fuel (reader : QXmlStreamReader) : nat :=
  length (pending reader) + 2.

Definition ConsumeCurrentElement (reader : QXmlStreamReader)
  : option QXmlStreamReader :=
  let level := 1%Z in
  ConsumeCurrentElement_loop (enough_fuel reader) level reader.

Fixpoint ParseUntilElement_loop (fuel : nat) (reader : QXmlStreamReader)
    (name_ : QString) : option (bool * QXmlStreamReader) :=
  match fuel with
  | O => None
  | S fuel' =>
      if negb (atEnd reader) then
        let (type, reader) := readNext reader in
        if match type with StartElement => true | _ => false end &&
           QString_eqb (QXmlStreamReader_name reader) name_
        then Some (true, reader)
        else ParseUntilElement_loop fuel' reader name_
      else Some (false, reader)
  end.

Definition ParseUntilElement (reader : QXmlStreamReader) (name_ : QString)
  : option (bool * QXmlStreamReader) :=
  ParseUntilElement_loop (enough_fuel reader) reader name_.

Fixpoint ParseUntilElementCI_loop (fuel : nat) (reader : QXmlStreamReader)
    (name_ : QString) : option (bool * QXmlStreamReader) :=
  match fuel with
  | O => None
  | S fuel' =>
      if negb (atEnd reader) then
        let (type, reader) := readNext reader in
        match type with
        | StartElement =>
            let element := QString_toLower (QXmlStreamReader_name reader) in
            if QString_eqb element name_ then Some (true, reader)
            else ParseUntilElementCI_loop fuel' reader name_
        | _ => ParseUntilElementCI_loop fuel' reader name_
        end
      else Some (false, reader)
  end.

Definition ParseUntilElementCI (reader : QXmlStreamReader) (name_ : QString)
  : option (bool * QXmlStreamReader) :=
  ParseUntilElementCI_loop (enough_fuel reader) reader name_.

(** A token that ends the reading. *)
Definition ends_reading (t : Token) : bool :=
  match token_type t with
  | EndDocument | Invalid => true
  | _ => false
  end.

Definition is_start (t : Token) : bool :=
  match token_type t with StartElement => true | _ => false end.

Definition is_end (t : Token) : bool :=
  match token_type t with EndElement => true | _ => false end.

(** The tokens between the start and the end of an element: tokens that
    are neither start nor end of an element, and whole elements. *)
Inductive content : list Token -> Prop :=
| content_nil : content []
| content_token t ts :
    is_start t = false -> is_end t = false -> ends_reading t = false ->
    content ts -> content (t :: ts)
| content_element s body e ts :
    is_start s = true -> content body -> is_end e = true -> content ts ->
    content (s :: body ++ e :: ts).

(** The start of an element called [name_]. *)
Definition starts (name_ : QString) (t : Token) : bool :=
  is_start t && QString_eqb (token_name t) name_.

(** The start of an element called [name_] but for the case of its
    letters. *)
Definition startsCI (name_ : QString) (t : Token) : bool :=
  is_start t && QString_eqb (QString_toLower (token_name t)) name_.

(** The shape the loops of [ParseUntilElement] and [ParseUntilElementCI]
    have in common, with the test of the token left open. *)
Fixpoint find_token (found : Token -> bool) (fuel : nat)
    (reader : QXmlStreamReader) : option (bool * QXmlStreamReader) :=
  match fuel with
  | O => None
  | S fuel' =>
      if negb (atEnd reader) then
        let (_, reader) := readNext reader in
        if found (current reader) then Some (true, reader)
        else find_token found fuel' reader
      else Some (false, reader)
  end.

(** A document for the examples:
    [<rss><Channel><title>News</title></Channel></rss>]. *)
Definition example_tokens : list Token :=
  [ mkToken StartElement (qs "rss");
    mkToken StartElement (qs "Channel");
    mkToken StartElement (qs "title");
    mkToken Characters [];
    mkToken EndElement (qs "title");
    mkToken EndElement (qs "Channel");
    mkToken EndElement (qs "rss");
    mkToken EndDocument [] ].

Definition example_reader : QXmlStreamReader :=
  mkReader (mkToken StartDocument []) example_tokens.

(* ================================================================== *)
(** * GetRandomString and the functions that call it *)

(** [s.at(i)], [None] when [i] is not an index of [s]. *)
Definition QString_at (s : QString) (i : Z) : option QChar :=
  if (i <? 0)%Z then None else nth_error s (Z.to_nat i).

Section Random.

(** [QRandomGenerator::global()] and its [bounded(lowest, highest)], which
    returns a number and leaves the generator in a new state. *)
Variable Generator : Type.
Variable bounded : Generator -> Z -> Z -> Z * Generator.

(** The loop of [GetRandomString] with [n] turns to go; [None] when [at]
    is called with an index out of range. *)
Fixpoint GetRandomString_loop (n : nat) (UseCharacters randstr : QString)
    (global : Generator) : option (QString * Generator) :=
  match n with
  | O => Some (randstr, global)
  | S n' =>
      let (index, global) :=
        bounded global 0 (Z.of_nat (length UseCharacters)) in
      match QString_at UseCharacters index with
      | Some nextchar =>
          GetRandomString_loop n' UseCharacters (randstr ++ [nextchar]) global
      | None => None
      end
  end.

Definition GetRandomString (len : Z) (UseCharacters : QString)
    (global : Generator) : option (QString * Generator) :=
  let randstr := [] in
  GetRandomString_loop (Z.to_nat len) UseCharacters randstr global.

Definition GetRandomStringWithChars (len : Z) (global : Generator)
  : option (QString * Generator) :=
  let UseCharacters :=
    qs "ABCDEFGHIJKLMNOPQRSTUVWXYZabcdefghijklmnopqrstuvwxyz" in
  GetRandomString len UseCharacters global.

Definition GetRandomStringWithCharsAndNumbers (len : Z) (global : Generator)
  : option (QString * Generator) :=
  let UseCharacters :=
    qs "ABCDEFGHIJKLMNOPQRSTUVWXYZabcdefghijklmnopqrstuvwxyz0123456789" in
  GetRandomString len UseCharacters global.

Definition CryptographicRandomString (len : Z) (global : Generator)
  : option (QString * Generator) :=
  let UseCharacters :=
    qs "ABCDEFGHIJKLMNOPQRSTUVWXYZabcdefghijklmnopqrstuvwxyz0123456789-._~" in
  GetRandomString len UseCharacters global.

End Random.

(** The unreserved characters of RFC 3986: letters, digits, hyphen, period,
    underscore and tilde. *)
Definition unreserved (c : QChar) : bool :=
  let n := nat_of_ascii c in
  ((65 <=? n) && (n <=? 90)) || ((97 <=? n) && (n <=? 122)) ||
  ((48 <=? n) && (n <=? 57)) ||
  Ascii.eqb c "-" || Ascii.eqb c "." || Ascii.eqb c "_" || Ascii.eqb c "~".

(** A generator for the examples: a linear congruential one. *)
Definition example_bounded (g : Z) (lowest highest : Z) : Z * Z :=
  ((lowest + g mod (highest - lowest))%Z,
   ((g * 1103515245 + 12345) mod 2147483648)%Z).

(* ================================================================== *)
(** * MacAddress *)

(** [QNetworkInterface::InterfaceFlag] *)
Definition IsUp : Z := 0x1.
Definition IsRunning : Z := 0x2.
Definition CanBroadcast : Z := 0x4.
Definition IsLoopBack : Z := 0x8.
Definition IsPointToPoint : Z := 0x10.
Definition CanMulticast : Z := 0x20.

(** [QNetworkInterface::InterfaceType] *)
Inductive InterfaceType : Type :=
| Loopback | Virtual | Ethernet | Slip | CanBus | Ppp | Fddi | Wifi | Phonet
| Ieee802154 | SixLoWPAN | Ieee80216 | Ieee1394 | Unknown.

Record QNetworkInterface : Type := mkInterface {
  hardwareAddress : QString;
  flags : Z;
  type : InterfaceType
}.

Definition isEmpty (s : QString) : bool :=
  match s with [] => true | _ :: _ => false end.

(** The test in front of [continue]: the interface is left out. *)
Definition left_out (netif : QNetworkInterface) : bool :=
  QString_eqb (hardwareAddress netif) (qs "00:00:00:00:00:00") ||
  negb (Z.land (flags netif) IsLoopBack =? 0)%Z ||
  negb (negb (Z.land (flags netif) IsUp =? 0)%Z) ||
  negb (negb (Z.land (flags netif) IsRunning =? 0)%Z).

Definition is_wired_or_wifi (netif : QNetworkInterface) : bool :=
  match type netif with
  | Ethernet | Wifi => true
  | _ => false
  end.

(** [allInterfaces] is what [QNetworkInterface::allInterfaces()] returns. *)
Definition MacAddress (allInterfaces : list QNetworkInterface) : QString :=
  let ret := [] in
  let ret :=
    fold_left
      (fun ret netif =>
         if left_out netif then ret
         else if isEmpty ret || is_wired_or_wifi netif
              then hardwareAddress netif
              else ret)
      allInterfaces ret in
  if isEmpty ret then qs "00:00:00:00:00:00" else ret.

(** Interfaces for the examples: the loopback, a tunnel, two Ethernet
    cards of which the second is down, and a wireless card. *)
Definition example_interfaces : list QNetworkInterface :=
  [ mkInterface (qs "00:00:00:00:00:00") (Z.lor (Z.lor IsUp IsRunning) IsLoopBack)
      Loopback;
    mkInterface (qs "0a:00:27:00:00:01") (Z.lor IsUp IsRunning) Virtual;
    mkInterface (qs "52:54:00:12:34:56")
      (Z.lor (Z.lor IsUp IsRunning) CanBroadcast) Ethernet;
    mkInterface (qs "52:54:00:12:34:57") CanBroadcast Ethernet;
    mkInterface (qs "a4:5e:60:c1:02:03")
      (Z.lor (Z.lor IsUp IsRunning) CanBroadcast) Wifi;
    mkInterface (qs "0a:00:27:00:00:02") (Z.lor IsUp IsRunning) Virtual ].

(* ================================================================== *)
(** * Copy *)

(** [QIODevice::OpenModeFlag], the two modes [Copy] opens with. *)
Inductive OpenMode : Type := ReadOnly | WriteOnly.

(** A byte of a buffer that was allocated with [new char[n]]: it has no
    value before one is stored in it. *)
Definition Cell := option Byte.byte.

(** [chunk] stored in [data] from the offset [pos] on. *)
Definition store (data : list Cell) (pos : Z) (chunk : QByteArray)
  : list Cell :=
  firstn (Z.to_nat pos) data ++ map Some chunk ++
  skipn (Z.to_nat pos + length chunk) data.

Section Devices.

(** A [QIODevice] with the virtual functions [Copy] calls: each of them
    returns its result and the device in its new state.  [read] returns the
    number of bytes read, [-1] for an error, with the bytes it has stored
    at [data]; [write] is given the bytes from [data] on and returns the
    number of bytes written, [-1] for an error.  [source] and [destination]
    are taken to be two devices. *)
Variable QIODevice : Type.
Variable open : QIODevice -> OpenMode -> bool * QIODevice.
Variable size : QIODevice -> Z.
Variable read : QIODevice -> Z -> Z * QByteArray * QIODevice.
Variable write : QIODevice -> list Cell -> Z * QIODevice.

(** The first [do] loop: [inl source] for [return false], [inr] with the
    buffer and the source when the loop has come to its end; [None] when the
    fuel runs out. *)
Fixpoint Copy_read (fuel : nat) (source : QIODevice) (bytes pos : Z)
    (data : list Cell) : option (QIODevice + list Cell * QIODevice) :=
  match fuel with
  | O => None
  | S fuel' =>
      let '(bytes_read, chunk, source) := read source (bytes - pos) in
      if (bytes_read =? -1)%Z then Some (inl source)
      else
        let data := store data pos chunk in
        let pos := (pos + bytes_read)%Z in
        if (bytes_read >? 0)%Z && negb (pos =? bytes)%Z
        then Copy_read fuel' source bytes pos data
        else Some (inr (data, source))
  end.

(** The second [do] loop: what is returned, and the destination. *)
Fixpoint Copy_write (fuel : nat) (destination : QIODevice) (bytes pos : Z)
    (data : list Cell) : option (bool * QIODevice) :=
  match fuel with
  | O => None
  | S fuel' =>
      let (bytes_written, destination) :=
        write destination (skipn (Z.to_nat pos) data) in
      if (bytes_written =? -1)%Z then Some (false, destination)
      else
        let pos := (pos + bytes_written)%Z in
        if (bytes_written >? 0)%Z && negb (pos =? bytes)%Z
        then Copy_write fuel' destination bytes pos data
        else Some (true, destination)
  end.

(** Every turn of a loop but the last one moves [pos] on by a byte at
    least. *)
Definition Copy (source destination : QIODevice)
  : option (bool * QIODevice * QIODevice) :=
  let (ok, source) := open source ReadOnly in
  if negb ok then Some (false, source, destination)
  else
    let (ok, destination) := open destination WriteOnly in
    if negb ok then Some (false, source, destination)
    else
      let bytes := size source in
      let data := repeat (@None Byte.byte) (Z.to_nat bytes) in
      let fuel := S (Z.to_nat bytes) in
      match Copy_read fuel source bytes 0 data with
      | None => None
      | Some (inl source) => Some (false, source, destination)
      | Some (inr (data, source)) =>
          match Copy_write fuel destination bytes 0 data with
          | None => None
          | Some (ok, destination) => Some (ok, source, destination)
          end
      end.

End Devices.

(** A device in memory for the examples: its bytes, how many of them have
    been read, how many bytes more than one it takes or gives in one call at
    most, and whether it can be opened. *)
Record Buffer : Type := mkBuffer {
  buffer_data : list Cell;
  buffer_pos : nat;
  buffer_more : nat;
  buffer_opens : bool
}.

Definition Buffer_open (b : Buffer) (mode : OpenMode) : bool * Buffer :=
  (buffer_opens b, b).

Definition cell_value (c : Cell) : Byte.byte :=
  match c with Some b => b | None => Byte.x00 end.

Definition Buffer_unread (b : Buffer) : QByteArray :=
  map cell_value (skipn (buffer_pos b) (buffer_data b)).

Definition Buffer_size (b : Buffer) : Z := Z.of_nat (length (Buffer_unread b)).

Definition Buffer_read (b : Buffer) (maxlen : Z) : Z * QByteArray * Buffer :=
  let n := Nat.min (Z.to_nat maxlen) (S (buffer_more b)) in
  let chunk := firstn n (Buffer_unread b) in
  (Z.of_nat (length chunk), chunk,
   mkBuffer (buffer_data b) (buffer_pos b + length chunk) (buffer_more b)
     (buffer_opens b)).

Definition Buffer_write (b : Buffer) (data : list Cell) : Z * Buffer :=
  let chunk := firstn (S (buffer_more b)) data in
  (Z.of_nat (length chunk),
   mkBuffer (buffer_data b ++ chunk) (buffer_pos b) (buffer_more b)
     (buffer_opens b)).

(** A source of five bytes that gives two bytes in a call, and an empty
    destination that takes three. *)
Definition example_source : Buffer :=
  mkBuffer (map Some [Byte.x66; Byte.x4c; Byte.x61; Byte.x43; Byte.x00]) 0 1
    true.

Definition example_destination : Buffer := mkBuffer [] 0 2 true.

(* ================================================================== *)
(** * ParseRFC822DateTime *)

(** The classes [\d] and [\w] of a QRegularExpression without the option
    for Unicode properties: the digits, and the letters, the digits and the
    underscore of ASCII. *)
Definition is_d (c : QChar) : bool :=
  let n := nat_of_ascii c in (48 <=? n) && (n <=? 57).

Definition is_w (c : QChar) : bool :=
  let n := nat_of_ascii c in
  ((65 <=? n) && (n <=? 90)) || ((97 <=? n) && (n <=? 122)) ||
  ((48 <=? n) && (n <=? 57)) || (n =? 95).

(** A piece of a regular expression: a class of characters repeated from
    [item_min] to [item_max] times, without end when there is no
    [item_max]; a single character is such a class, repeated once. *)
Record Item : Type := mkItem {
  item_class : QChar -> bool;
  item_min : nat;
  item_max : option nat
}.

(** The number of characters of the class at the head of [s]. *)
Fixpoint class_run (class : QChar -> bool) (s : QString) : nat :=
  match s with
  | c :: s' => if class c then S (class_run class s') else 0
  | [] => 0
  end.

(** A repetition is greedy: it takes [count] characters when the rest of
    the expression, [rest], matches behind them, and tries one character
    less when it does not, down to [min].  The result is what the pieces
    have matched, one text for every piece. *)
Fixpoint try_counts (rest : QString -> option (list QString)) (s : QString)
    (min count : nat) : option (list QString) :=
  match rest (skipn count s) with
  | Some captured => Some (firstn count s :: captured)
  | None =>
      match count with
      | O => None
      | S count' =>
          if min <=? count' then try_counts rest s min count' else None
      end
  end.

(** The pieces [items], one behind the other, matched at the head of
    [s]. *)
Fixpoint match_items (items : list Item) (s : QString)
  : option (list QString) :=
  match items with
  | [] => Some []
  | item :: items' =>
      let run := class_run (item_class item) s in
      let count :=
        match item_max item with
        | Some max => Nat.min run max
        | None => run
        end in
      if item_min item <=? count
      then try_counts (match_items items') s (item_min item) count
      else None
  end.

(** [regexp.match(text)]: the match that starts leftmost. *)
Fixpoint search_items (items : list Item) (s : QString)
  : option (list QString) :=
  match match_items items s with
  | Some captured => Some captured
  | None =>
      match s with
      | [] => None
      | _ :: s' => search_items items s'
      end
  end.

Definition one (c : QChar) : Item := mkItem (Ascii.eqb c) 1 (Some 1).

(** [(\d{1,2}) (\w{3,12}) (\d+) (\d{1,2}):(\d{1,2}):(\d{1,2})] *)
Definition rfc822_regexp : list Item :=
  [ mkItem is_d 1 (Some 2); one " "%char; mkItem is_w 3 (Some 12);
    one " "%char; mkItem is_d 1 None; one " "%char; mkItem is_d 1 (Some 2);
    one ":"%char; mkItem is_d 1 (Some 2); one ":"%char;
    mkItem is_d 1 (Some 2) ].

(** [s.toInt()] for a text of digits: [0] when the number is not an
    [int]. *)
Definition QString_toInt (s : QString) : Z :=
  let v := decimal_value s in
  if (v <=? 2147483647)%Z then v else 0%Z.

Definition monthmap : list (QString * Z) :=
  [ (qs "Jan", 1); (qs "Feb", 2); (qs "Mar", 3); (qs "Apr", 4);
    (qs "May", 5); (qs "Jun", 6); (qs "Jul", 7); (qs "Aug", 8);
    (qs "Sep", 9); (qs "Oct", 10); (qs "Nov", 11); (qs "Dec", 12);
    (qs "January", 1); (qs "February", 2); (qs "March", 3); (qs "April", 4);
    (qs "May", 5); (qs "June", 6); (qs "July", 7); (qs "August", 8);
    (qs "September", 9); (qs "October", 10); (qs "November", 11);
    (qs "December", 12) ]%Z.

(** [map[key]] for a [QMap<QString, int>]: [0] for a key the map has
    not. *)
Fixpoint QMap_value (map : list (QString * Z)) (key : QString) : Z :=
  match map with
  | [] => 0%Z
  | (k, v) :: map' => if QString_eqb k key then v else QMap_value map' key
  end.

(** A [QDate] and a [QTime] as the numbers they are made of, and a
    [QDateTime] as the two it is made of; [QDateTime()] is
    [NullDateTime]. *)
Record QDate : Type := mkQDate { year : Z; month : Z; day : Z }.
Record QTime : Type := mkQTime { hour : Z; minute : Z; second : Z }.

Inductive QDateTime : Type :=
| NullDateTime
| mkQDateTime (date : QDate) (time : QTime).

(** [QDate::isValid]: there is no year 0, and the day is one of the
    month. *)
Definition isLeapYear (y : Z) : bool :=
  let y := if (y <? 1)%Z then (y + 1)%Z else y in
  (y mod 4 =? 0)%Z && (negb (y mod 100 =? 0)%Z || (y mod 400 =? 0)%Z).

Definition monthDays (m : Z) : Z :=
  nth (Z.to_nat m) [0; 31; 28; 31; 30; 31; 30; 31; 31; 30; 31; 30; 31]%Z 0%Z.

Definition QDate_isValid (d : QDate) : bool :=
  negb (year d =? 0)%Z &&
  ((day d >? 0)%Z && (month d >? 0)%Z && (month d <=? 12)%Z) &&
  ((day d <=? monthDays (month d))%Z ||
   ((day d =? 29)%Z && (month d =? 2)%Z && isLeapYear (year d))).

Definition ParseRFC822DateTime (text : QString) : QDateTime :=
  match search_items rfc822_regexp text with
  | None => NullDateTime
  | Some captured =>
      let DAYS := 1 in
      let MONTHS := 2 in
      let YEARS := 3 in
      let HOURS := 4 in
      let MINUTES := 5 in
      let SECONDS := 6 in
      (* the groups are the pieces 1, 3, 5, 7, 9 and 11 of the expression *)
      let group n := nth (2 * (n - 1)) captured [] in
      let date :=
        mkQDate (QString_toInt (group YEARS))
          (QMap_value monthmap (group MONTHS))
          (QString_toInt (group DAYS)) in
      let time :=
        mkQTime (QString_toInt (group HOURS)) (QString_toInt (group MINUTES))
          (QString_toInt (group SECONDS)) in
      mkQDateTime date time
  end.

(** A text of [min] to [max] characters of a class. *)
Definition field_of (class : QChar -> bool) (min max : nat) (f : QString)
  : Prop :=
  Forall (fun c => class c = true) f /\ min <= length f <= max.

(** Whether [s] starts with a character of the class. *)
Definition starts_with (class : QChar -> bool) (s : QString) : bool :=
  match s with
  | c :: _ => class c
  | [] => false
  end.

(* ================================================================== *)
(** * What [CopyRecursive] copies *)

(** The entries [CopyRecursive] lists: those that are not hidden. *)
Definition visible_dir (e : QString * Node) : bool :=
  is_dir (snd e) && negb (isHidden (fst e)).

Definition visible_file (e : QString * Node) : bool :=
  is_file (snd e) && negb (isHidden (fst e)).

(** The copy [CopyRecursive] makes of a directory: the directories in it
    that are not hidden, copied in the same way and in their order, and
    behind them the files in it that are not hidden. *)
Fixpoint copy_of (n : Node) : Node :=
  match n with
  | File _ data => File true data
  | Dir es =>
      Dir (flat_map (fun e =>
                       if visible_dir e then [(fst e, copy_of (snd e))]
                       else []) es ++
           flat_map (fun e =>
                       if visible_file e then [(fst e, copy_of (snd e))]
                       else []) es)
  end.

(** What [CopyRecursive] can copy: every file it comes to, going down
    through the directories that are not hidden, is accessible. *)
Fixpoint copyable (n : Node) : bool :=
  match n with
  | File accessible _ => accessible
  | Dir es => forallb (fun e => isHidden (fst e) || copyable (snd e)) es
  end.

(** [CopyRecursive] on the directory [n], wherever it stands: called with
    enough fuel on the absolute path of [n] and on the absolute path of a
    directory that is not in [n] and has no entry with the name of [n], it
    returns, and returns whether [n] can be copied; when it can, no warning
    is written and the directory has got the copy of [n] as its last
    entry. *)
Definition copies (n : Node) : Prop :=
  forall fuel source destination w sparent sname dp D,
    plain_path source (sparent ++ [sname]) ->
    plain_path destination dp ->
    lookup (fs_root w) (sparent ++ [sname]) = Some n ->
    lookup (fs_root w) dp = Some (Dir D) ->
    entry sname D = None ->
    (forall rest, dp <> (sparent ++ [sname]) ++ rest) ->
    is_dir n = true -> well_formed n = true -> depth n <= fuel ->
    exists w',
      CopyRecursive fuel source destination w = Some (copyable n, w') /\
      (copyable n = true ->
       fs_root w' =
         update (fs_root w) dp (fun es => es ++ [(sname, copy_of n)]) /\
       fs_cwd w' = fs_cwd w /\ warnings w' = warnings w).


(* ================================================================== *)
(** * Properties of the string operations *)

Lemma QString_eqb_spec (a b : QString) : reflect (a = b) (QString_eqb a b).
Proof.
  revert b; induction a as [|x a IH]; intros [|y b]; simpl;
    try (constructor; congruence).
  destruct (Ascii.eqb_spec x y) as [->|Hxy]; simpl.
  - destruct (IH b) as [->|Hab]; constructor; congruence.
  - constructor; congruence.
Qed.

Lemma QString_eqb_refl (a : QString) : QString_eqb a a = true.
Proof. destruct (QString_eqb_spec a a); congruence. Qed.

Lemma QString_eqb_neq (a b : QString) : a <> b -> QString_eqb a b = false.
Proof. destruct (QString_eqb_spec a b); congruence. Qed.

Lemma startsWith_app (p r : QString) : startsWith (p ++ r) p = true.
Proof.
  induction p as [|x p IH]; simpl; [reflexivity|].
  now rewrite Ascii.eqb_refl, IH.
Qed.

Lemma startsWith_inv (s p : QString) :
  startsWith s p = true -> s = p ++ skipn (length p) s.
Proof.
  revert s; induction p as [|x p IH]; intros s H; simpl in *; [reflexivity|].
  destruct s as [|y s]; [discriminate|].
  apply andb_prop in H as [Hxy Hs].
  apply Ascii.eqb_eq in Hxy; subst y.
  simpl; f_equal; auto.
Qed.

Lemma startsWith_head (s p : QString) (c d : QChar) :
  c <> d -> startsWith (d :: s) (c :: p) = false.
Proof.
  intros H; simpl. destruct (Ascii.eqb_spec c d); [contradiction|reflexivity].
Qed.

Lemma replace_go_skip (before after s : QString) (k : nat) :
  replace_go before after s k = replace_go before after (skipn k s) 0.
Proof.
  revert k; induction s as [|c s IH]; intros [|k]; simpl; auto.
Qed.

Lemma replace_go_match (before after s : QString) :
  before <> [] -> startsWith s before = true ->
  replace_go before after s 0 =
  after ++ replace_go before after (skipn (length before) s) 0.
Proof.
  intros Hb Hs. destruct before as [|b0 before]; [congruence|].
  destruct s as [|c s]; [discriminate|].
  cbn [replace_go]. rewrite Hs. f_equal.
  rewrite replace_go_skip. simpl. now rewrite Nat.sub_0_r.
Qed.

Lemma replace_go_nomatch (before after s : QString) (c : QChar) :
  startsWith (c :: s) before = false ->
  replace_go before after (c :: s) 0 = c :: replace_go before after s 0.
Proof. intros H. cbn [replace_go]. now rewrite H. Qed.

(** Replacing a text by itself changes nothing. *)
Lemma replace_go_same (before s : QString) :
  before <> [] -> replace_go before before s 0 = s.
Proof.
  intros Hb. remember (length s) as n eqn:Hn.
  revert s Hn; induction n as [n IH] using lt_wf_ind; intros s Hn.
  destruct s as [|c s]; [reflexivity|].
  destruct (startsWith (c :: s) before) eqn:Hs.
  - rewrite replace_go_match by assumption.
    pose proof (startsWith_inv _ _ Hs) as E.
    rewrite (IH (length (skipn (length before) (c :: s)))); auto.
    rewrite length_skipn. subst n. destruct before; [congruence|]. simpl. lia.
  - rewrite replace_go_nomatch by assumption. f_equal.
    apply (IH (length s)); auto. subst n; simpl; lia.
Qed.

Lemma QString_replace_nonempty (s before after : QString) :
  before <> [] -> QString_replace s before after = replace_go before after s 0.
Proof. destruct before; [congruence|reflexivity]. Qed.

Lemma QString_replace_same (s t : QString) :
  t <> [] -> QString_replace s t t = s.
Proof.
  intros Ht. rewrite QString_replace_nonempty by assumption.
  now apply replace_go_same.
Qed.

(* ================================================================== *)
(** * Properties of the token search *)

Lemma percent_not_lower : is_lower percent = false.
Proof. reflexivity. Qed.

Lemma lower_run_app (name r : QString) :
  Forall (fun c => is_lower c = true) name ->
  lower_run (name ++ r) = length name + lower_run r.
Proof.
  induction 1 as [|c name Hc _ IH]; simpl; [reflexivity|].
  now rewrite Hc, IH.
Qed.

Lemma lower_run_firstn (s : QString) :
  Forall (fun c => is_lower c = true) (firstn (lower_run s) s).
Proof.
  induction s as [|c s IH]; simpl; [constructor|].
  destruct (is_lower c) eqn:Hc; simpl; [constructor; assumption|constructor].
Qed.

Lemma lower_run_le (s : QString) : lower_run s <= length s.
Proof.
  induction s as [|c s IH]; simpl; [lia|]. destruct (is_lower c); simpl; lia.
Qed.

Lemma is_variable_length (t : QString) : is_variable t -> 3 <= length t.
Proof.
  intros (name & Hne & _ & ->). destruct name; [congruence|].
  simpl. rewrite length_app. simpl. lia.
Qed.

Lemma is_variable_nonempty (t : QString) : is_variable t -> t <> [].
Proof. intros H E. apply is_variable_length in H. subst; simpl in H; lia. Qed.

Lemma match_variable_here_complete (t r : QString) :
  is_variable t -> match_variable_here (t ++ r) = Some (length t).
Proof.
  intros (name & Hne & Hlow & ->).
  cbn [app match_variable_here]. rewrite Ascii.eqb_refl.
  rewrite <- app_assoc, lower_run_app by assumption.
  cbn [app lower_run]. rewrite percent_not_lower, Nat.add_0_r.
  cbv zeta.
  rewrite skipn_app, skipn_all, Nat.sub_diag. cbn [app skipn].
  rewrite Ascii.eqb_refl.
  destruct name as [|c name]; [congruence|].
  cbn [length Nat.ltb Nat.leb]. rewrite length_app. cbn [length]. f_equal. lia.
Qed.

Lemma match_variable_here_sound (s : QString) (n : nat) :
  match_variable_here s = Some n ->
  is_variable (firstn n s) /\ length (firstn n s) = n /\
  s = firstn n s ++ skipn n s.
Proof.
  destruct s as [|c s]; [discriminate|]. cbn [match_variable_here].
  destruct (Ascii.eqb_spec c percent) as [->|]; [|discriminate].
  pose proof (lower_run_firstn s) as Hlow.
  pose proof (lower_run_le s) as Hle.
  pose proof (firstn_skipn (lower_run s) s) as Hsplit.
  cbv zeta.
  destruct (lower_run s) as [|m] eqn:Hrun; [discriminate|].
  cbn [Nat.ltb Nat.leb].
  destruct (skipn (S m) s) as [|c' rest] eqn:Hskip; [discriminate|].
  destruct (Ascii.eqb_spec c' percent) as [->|]; [|discriminate].
  intros [= <-].
  assert (Hlen : length (firstn (S m) s) = S m)
    by (rewrite length_firstn; lia).
  remember (firstn (S m) s) as name eqn:Hname.
  assert (Hfirst : firstn (S m + 2) (percent :: s)
                   = percent :: name ++ [percent]).
  { rewrite <- Hsplit.
    replace (S m + 2) with (S (S m + 1)) by lia. cbn [firstn]. f_equal.
    rewrite firstn_app, Hlen, firstn_all2 by lia.
    replace (S m + 1 - S m) with 1 by lia. reflexivity. }
  change (S (m + 2)) with (S m + 2).
  rewrite Hfirst. split; [|split].
  - exists name. repeat split; auto.
    intros E. rewrite E in Hlen. discriminate.
  - cbn [length]. rewrite length_app, Hlen. cbn [length]. lia.
  - rewrite <- Hfirst. now rewrite firstn_skipn.
Qed.

(** A token occurs at offset [i] exactly when the expression matches there. *)
Lemma variable_at_match (message : QString) (i : nat) (t : QString) :
  variable_at message i t <->
  i <= length message /\
  match_variable_here (skipn i message) = Some (length t) /\
  firstn (length t) (skipn i message) = t.
Proof.
  split.
  - intros (Hv & pre & post & -> & <-).
    rewrite skipn_app, skipn_all, Nat.sub_diag. cbn [app skipn].
    rewrite match_variable_here_complete by assumption.
    rewrite firstn_app, firstn_all, Nat.sub_diag, app_nil_r.
    rewrite length_app. repeat split; auto. lia.
  - intros (Hi & Hm & Hf).
    apply match_variable_here_sound in Hm as (Hv & _ & Hs).
    rewrite Hf in Hv, Hs. split; [assumption|].
    exists (firstn i message), (skipn (length t) (skipn i message)).
    split.
    + now rewrite <- Hs, firstn_skipn.
    + rewrite length_firstn. lia.
Qed.

Lemma search_variable_some (s : QString) (i j : nat) (t : QString) :
  search_variable s i = Some (j, t) ->
  exists k, j = i + k /\ k <= length s /\
            match_variable_here (skipn k s) = Some (length t) /\
            firstn (length t) (skipn k s) = t /\
            forall k', k' < k -> match_variable_here (skipn k' s) = None.
Proof.
  revert i; induction s as [|c s IH]; intros i; cbn [search_variable].
  - simpl. discriminate.
  - destruct (match_variable_here (c :: s)) as [n|] eqn:Hm.
    + intros [= <- <-]. exists 0.
      pose proof (match_variable_here_sound _ Hm) as (_ & Hlen & _).
      cbn [skipn]. rewrite Hlen. repeat split; auto; try lia.
    + intros H. apply IH in H as (k & -> & Hk & Hmk & Hf & Hmin).
      exists (S k). cbn [skipn length]. repeat split; auto; try lia.
      intros [|k'] Hk'; cbn [skipn]; [assumption|]. apply Hmin. lia.
Qed.

Lemma search_variable_none (s : QString) (i : nat) :
  search_variable s i = None ->
  forall k, match_variable_here (skipn k s) = None.
Proof.
  revert i; induction s as [|c s IH]; intros i; cbn [search_variable].
  - intros _ k. now rewrite skipn_nil.
  - destruct (match_variable_here (c :: s)) eqn:Hm; [discriminate|].
    intros H [|k]; cbn [skipn]; [assumption|]. now apply (IH (S i)).
Qed.

Lemma variable_replacer_match_some (message : QString) (pos i : nat)
    (t : QString) :
  pos <= length message ->
  variable_replacer_match message pos = Some (i, t) ->
  pos <= i /\ variable_at message i t /\
  (forall j t', pos <= j < i -> ~ variable_at message j t').
Proof.
  unfold variable_replacer_match. intros Hpos H.
  apply search_variable_some in H as (k & -> & Hk & Hm & Hf & Hmin).
  rewrite length_skipn in Hk. rewrite skipn_skipn in Hm, Hf.
  replace (k + pos) with (pos + k) in Hm, Hf by lia.
  split; [lia|]. split.
  - apply variable_at_match. repeat split; auto. lia.
  - intros j t' Hj (_ & Hm' & _)%variable_at_match.
    specialize (Hmin (j - pos)). rewrite skipn_skipn in Hmin.
    replace (j - pos + pos) with j in Hmin by lia.
    rewrite Hmin in Hm' by lia. discriminate.
Qed.

Lemma variable_replacer_match_none (message : QString) (pos : nat) :
  variable_replacer_match message pos = None ->
  forall i t, pos <= i -> ~ variable_at message i t.
Proof.
  unfold variable_replacer_match. intros H i t Hi (_ & Hm & _)%variable_at_match.
  pose proof (search_variable_none _ _ H (i - pos)) as Hn.
  rewrite skipn_skipn in Hn. replace (i - pos + pos) with i in Hn by lia.
  congruence.
Qed.

Lemma variable_at_bound (message : QString) (i : nat) (t : QString) :
  variable_at message i t -> i + length t <= length message.
Proof.
  intros (_ & pre & post & -> & <-). rewrite !length_app. lia.
Qed.

Lemma variable_at_unique (message : QString) (i : nat) (t t' : QString) :
  variable_at message i t -> variable_at message i t' -> t = t'.
Proof.
  intros (_ & Hm & Hf)%variable_at_match (_ & Hm' & Hf')%variable_at_match.
  rewrite Hm in Hm'. injection Hm' as Hlen.
  rewrite <- Hf, <- Hf'. now rewrite Hlen.
Qed.

(** The scan finds one list of tokens. *)
Lemma Scan_unique (message : QString) (pos : nat)
    (ms ms' : list (nat * QString)) :
  Scan message pos ms -> Scan message pos ms' -> ms = ms'.
Proof.
  intros H; revert ms'.
  induction H as [pos Hnone|pos i t ms Hi Hat Hleft Hscan IH];
    intros ms' H'; inversion H' as [pos' Hnone'|pos' i' t' ms2 Hi' Hat' Hleft'
                                      Hscan']; subst.
  - reflexivity.
  - now elim (Hnone i' t' Hi').
  - now elim (Hnone' i t Hi).
  - assert (i' = i) as ->.
    { destruct (Nat.lt_trichotomy i i') as [Hlt|[Heq|Hgt]]; auto.
      - elim (Hleft' i t); [lia|assumption].
      - elim (Hleft i' t'); [lia|assumption]. }
    assert (t' = t) as -> by (eapply variable_at_unique; eauto).
    f_equal. now apply IH.
Qed.

(* ================================================================== *)
(** * The loop of [ReplaceMessage] *)

Section Loop.

Variables (message : QString) (song : Song) (newline : QString)
          (html_escaped : bool).

Lemma ReplaceMessage_loop_scan (fuel pos : nat) (copy : QString) :
  pos <= length message -> length message - pos < fuel ->
  exists ms,
    Scan message pos ms /\
    ReplaceMessage_loop fuel message song newline html_escaped pos copy
    = Some (replace_found song newline html_escaped ms copy).
Proof.
  revert pos copy; induction fuel as [|fuel IH]; intros pos copy Hpos Hfuel;
    [lia|].
  cbn [ReplaceMessage_loop].
  destruct (variable_replacer_match message pos) as [[i t]|] eqn:Hm.
  - pose proof (variable_replacer_match_some _ Hpos Hm) as (Hi & Hat & Hleft).
    pose proof (variable_at_bound Hat) as Hb.
    pose proof (is_variable_length (proj1 Hat)) as Hlen.
    destruct (IH (i + length t)
                 (QString_replace copy t
                    (ReplaceVariable t song newline html_escaped)))
      as (ms & Hscan & Hrun); [lia|lia|].
    exists ((i, t) :: ms). split.
    + now apply Scan_next.
    + exact Hrun.
  - exists []. split; [|reflexivity].
    apply Scan_end. now apply variable_replacer_match_none.
Qed.

Lemma ReplaceMessage_scan :
  exists ms,
    Scan message 0 ms /\
    ReplaceMessage message song newline html_escaped
    = Some (remove_dangling
             (replace_found song newline html_escaped ms message)).
Proof.
  destruct (@ReplaceMessage_loop_scan (S (length message)) 0 message)
    as (ms & Hscan & Hrun); [lia|lia|].
  exists ms. split; [assumption|].
  unfold ReplaceMessage. now rewrite Hrun.
Qed.

End Loop.

(* ================================================================== *)
(** * A message with one token between literal text *)

Lemma match_variable_here_literal (c : QChar) (s : QString) :
  c <> percent -> match_variable_here (c :: s) = None.
Proof.
  intros H. cbn [match_variable_here].
  destruct (Ascii.eqb_spec c percent); [contradiction|reflexivity].
Qed.

Lemma search_variable_literal_app (pre r : QString) (i : nat) :
  literal pre ->
  search_variable (pre ++ r) i = search_variable r (i + length pre).
Proof.
  intros H; revert i; induction H as [|c pre Hc _ IH]; intros i.
  - simpl. now rewrite Nat.add_0_r.
  - cbn [app search_variable length].
    rewrite match_variable_here_literal by assumption.
    rewrite IH. f_equal. lia.
Qed.

Lemma search_variable_literal (s : QString) (i : nat) :
  literal s -> search_variable s i = None.
Proof.
  intros H. rewrite <- (app_nil_r s), search_variable_literal_app by assumption.
  reflexivity.
Qed.

Lemma is_variable_head (t : QString) :
  is_variable t -> exists t', t = percent :: t'.
Proof. intros (name & _ & _ & ->). eauto. Qed.

Lemma replace_go_literal_app (before after pre r : QString) :
  literal pre -> is_variable before ->
  replace_go before after (pre ++ r) 0 = pre ++ replace_go before after r 0.
Proof.
  intros H (t' & ->)%is_variable_head.
  induction H as [|c pre Hc _ IH]; [reflexivity|].
  cbn [app]. rewrite replace_go_nomatch, IH; [reflexivity|].
  apply startsWith_head. congruence.
Qed.

Lemma replace_go_literal (before after s : QString) :
  literal s -> is_variable before -> replace_go before after s 0 = s.
Proof.
  intros H Hv. rewrite <- (app_nil_r s) at 1.
  rewrite replace_go_literal_app by assumption. simpl. apply app_nil_r.
Qed.

Lemma QString_replace_one (pre t post v : QString) :
  literal pre -> literal post -> is_variable t ->
  QString_replace (pre ++ t ++ post) t v = pre ++ v ++ post.
Proof.
  intros Hpre Hpost Ht.
  pose proof (is_variable_nonempty Ht) as Hne.
  rewrite QString_replace_nonempty by assumption.
  rewrite replace_go_literal_app by assumption.
  rewrite replace_go_match by (auto using startsWith_app).
  rewrite skipn_app, skipn_all, Nat.sub_diag. cbn [app skipn].
  now rewrite replace_go_literal.
Qed.

Lemma ReplaceMessage_one_variable (pre t post : QString) (song : Song)
    (newline : QString) (html_escaped : bool) :
  literal pre -> literal post -> is_variable t ->
  ReplaceMessage (pre ++ t ++ post) song newline html_escaped
  = Some (remove_dangling
            (pre ++ ReplaceVariable t song newline html_escaped ++ post)).
Proof.
  intros Hpre Hpost Ht.
  pose proof (is_variable_length Ht) as Hlen.
  unfold ReplaceMessage.
  assert (Hfuel : exists n, S (length (pre ++ t ++ post)) = S (S n)).
  { exists (length (pre ++ t ++ post) - 1). rewrite !length_app. lia. }
  destruct Hfuel as [n ->].
  cbn [ReplaceMessage_loop].
  unfold variable_replacer_match at 1. cbn [skipn].
  rewrite search_variable_literal_app by assumption.
  assert (Hs : search_variable (t ++ post) (0 + length pre)
               = Some (length pre, t)).
  { pose proof (match_variable_here_complete post Ht) as Hm.
    destruct (t ++ post) as [|c r] eqn:E.
    - apply (f_equal (@length _)) in E. rewrite length_app in E.
      simpl in E. lia.
    - cbn [search_variable]. rewrite Hm, <- E.
      now rewrite firstn_app, firstn_all, Nat.sub_diag, app_nil_r. }
  rewrite Hs. unfold variable_replacer_match.
  replace (skipn (length pre + length t) (pre ++ t ++ post)) with post.
  - rewrite search_variable_literal by assumption.
    cbn [option_map]. now rewrite QString_replace_one.
  - rewrite app_assoc, skipn_app, length_app, Nat.sub_diag.
    rewrite skipn_all2 by (rewrite length_app; lia). reflexivity.
Qed.

(* ================================================================== *)
(** * Properties of [ReplaceVariable] *)

Lemma variable_value_inl (variable : QString) (song : Song)
    (newline text : QString) :
  variable_value variable song newline = inl text ->
  variable = qs "%newline%" /\ text = newline.
Proof.
  unfold variable_value.
  repeat match goal with
         | |- context [if QString_eqb ?a ?b then _ else _] =>
             destruct (QString_eqb_spec a b); try discriminate
         end.
  intros [= <-]. auto.
Qed.

Lemma variable_value_unknown (variable : QString) (song : Song)
    (newline : QString) :
  ~ In variable dispatch_table ->
  variable_value variable song newline = inr variable.
Proof.
  intros H. unfold variable_value.
  repeat match goal with
         | |- context [if QString_eqb ?a ?b then _ else _] =>
             destruct (QString_eqb_spec a b) as [E|_];
             [exfalso; apply H; rewrite E; simpl; tauto|]
         end.
  reflexivity.
Qed.

Lemma ReplaceVariable_newline (song : Song) (newline : QString)
    (html_escaped : bool) :
  ReplaceVariable (qs "%newline%") song newline html_escaped = newline.
Proof. reflexivity. Qed.

Lemma ReplaceVariable_escaped (variable : QString) (song : Song)
    (newline : QString) :
  variable <> qs "%newline%" ->
  ReplaceVariable variable song newline true
  = toHtmlEscaped (ReplaceVariable variable song newline false).
Proof.
  intros H. unfold ReplaceVariable.
  destruct (variable_value variable song newline) as [text|value] eqn:E;
    [|reflexivity].
  apply variable_value_inl in E as [E _]. contradiction.
Qed.

Lemma escape_char_plain (c : QChar) : plain_char c -> escape_char c = [c].
Proof.
  intros (H1 & H2 & H3 & H4). unfold escape_char.
  repeat match goal with
         | |- context [Ascii.eqb ?a ?b] =>
             destruct (Ascii.eqb_spec a b); [contradiction|]
         end.
  reflexivity.
Qed.

Lemma toHtmlEscaped_plain (s : QString) :
  Forall plain_char s -> toHtmlEscaped s = s.
Proof.
  induction 1 as [|c s Hc _ IH]; [reflexivity|].
  unfold toHtmlEscaped in *. cbn [flat_map].
  now rewrite escape_char_plain, IH.
Qed.

Lemma toHtmlEscaped_app (a b : QString) :
  toHtmlEscaped (a ++ b) = toHtmlEscaped a ++ toHtmlEscaped b.
Proof. apply flat_map_app. Qed.

Lemma is_lower_plain (c : QChar) : is_lower c = true -> plain_char c.
Proof.
  intros H. repeat split; intros ->; discriminate.
Qed.

Lemma percent_plain : plain_char percent.
Proof. repeat split; discriminate. Qed.

Lemma is_variable_plain (t : QString) : is_variable t -> Forall plain_char t.
Proof.
  intros (name & _ & Hlow & ->).
  constructor; [apply percent_plain|].
  apply Forall_app. split.
  - eapply Forall_impl; [|exact Hlow]. apply is_lower_plain.
  - constructor; [apply percent_plain|constructor].
Qed.

Lemma ReplaceVariable_unknown (t : QString) (song : Song) (newline : QString)
    (html_escaped : bool) :
  is_variable t -> ~ In t dispatch_table ->
  ReplaceVariable t song newline html_escaped = t.
Proof.
  intros Hv Hn. unfold ReplaceVariable.
  rewrite variable_value_unknown by assumption.
  destruct html_escaped; [|reflexivity].
  apply toHtmlEscaped_plain. now apply is_variable_plain.
Qed.

Lemma Scan_variable_at (message : QString) (pos : nat)
    (ms : list (nat * QString)) :
  Scan message pos ms ->
  forall i t, In (i, t) ms -> variable_at message i t.
Proof.
  induction 1 as [|pos i t ms Hi Hat Hleft Hscan IH]; intros j u; simpl;
    [tauto|].
  intros [[= <- <-]|Hin]; [assumption|now apply IH].
Qed.

Lemma replace_found_inert (song : Song) (newline : QString)
    (html_escaped : bool) (ms : list (nat * QString)) (copy : QString) :
  (forall i t, In (i, t) ms -> is_variable t /\ ~ In t dispatch_table) ->
  replace_found song newline html_escaped ms copy = copy.
Proof.
  unfold replace_found.
  revert copy; induction ms as [|[i t] ms IH]; intros copy H; [reflexivity|].
  cbn [fold_left]. unfold replace_everywhere at 2. cbn [snd].
  destruct (H i t) as [Hv Hn]; [now left|].
  rewrite ReplaceVariable_unknown, QString_replace_same
    by auto using is_variable_nonempty.
  apply IH. intros j u Hin. apply (H j u). now right.
Qed.

(* ================================================================== *)
(** * The separator removed behind the loop *)

Lemma match_dangling_here_spec (s : QString) :
  match_dangling_here s = true <-> dangling_at s 0.
Proof.
  unfold match_dangling_here, dangling_at. split.
  - intros [Hs Hend]%andb_prop.
    apply startsWith_inv in Hs. change (length (qs " - ")) with 3 in Hs.
    exists [], (skipn 3 s). split; [exact Hs|]. split; [reflexivity|].
    destruct (skipn 3 s) as [|c rest]; [now left|right].
    apply orb_prop in Hend as [Hc|[Hc Hr]%andb_prop].
    + apply Ascii.eqb_eq in Hc. subst c. left. now exists rest.
    + apply Ascii.eqb_eq in Hc. subst c. right.
      destruct rest; [reflexivity|discriminate].
  - intros (pre & post & -> & Hpre & Hend).
    apply length_zero_iff_nil in Hpre. subst pre. cbn [app].
    rewrite (startsWith_app (qs " - ") post). cbn [andb].
    change (skipn 3 (qs " - " ++ post)) with post.
    destruct Hend as [->|[[rest ->]| ->]]; reflexivity.
Qed.

Lemma dangling_at_cons (c : QChar) (s : QString) (j : nat) :
  dangling_at (c :: s) (S j) <-> dangling_at s j.
Proof.
  unfold dangling_at. split.
  - intros (pre & post & E & Hlen & Hend).
    destruct pre as [|c' pre]; [discriminate|].
    injection E as <- ->. injection Hlen as <-.
    exists pre, post. repeat split; auto.
  - intros (pre & post & -> & <- & Hend). exists (c :: pre), post. auto.
Qed.

Lemma dangling_at_nil (j : nat) : ~ dangling_at [] j.
Proof.
  intros (pre & post & E & _). destruct pre; discriminate.
Qed.

Lemma indexOf_dangling_from_spec (s : QString) (i0 : Z) :
  (0 <= i0)%Z ->
  (indexOf_dangling_from s i0 = (-1)%Z /\ forall j, ~ dangling_at s j) \/
  (exists k, indexOf_dangling_from s i0 = (i0 + Z.of_nat k)%Z /\
             dangling_at s k /\ forall j, j < k -> ~ dangling_at s j).
Proof.
  revert i0; induction s as [|c s IH]; intros i0 Hi0; cbn [indexOf_dangling_from].
  - destruct (match_dangling_here []) eqn:Hm.
    + apply match_dangling_here_spec in Hm. now apply dangling_at_nil in Hm.
    + left. split; [reflexivity|]. intros j. apply dangling_at_nil.
  - destruct (match_dangling_here (c :: s)) eqn:Hm.
    + right. exists 0. apply match_dangling_here_spec in Hm.
      repeat split; auto; [lia|]. intros j Hj. lia.
    + assert (Hn : ~ dangling_at (c :: s) 0).
      { intros H%match_dangling_here_spec. congruence. }
      destruct (IH (i0 + 1)%Z) as [[E Hnone]|(k & E & Hk & Hmin)]; [lia| |].
      * left. split; [assumption|].
        intros [|j]; [assumption|]. rewrite dangling_at_cons. apply Hnone.
      * right. exists (S k). repeat split.
        -- rewrite E. lia.
        -- now apply dangling_at_cons.
        -- intros [|j] Hj; [assumption|].
           rewrite dangling_at_cons. apply Hmin. lia.
Qed.

(** [remove_dangling] takes out the three characters of the leftmost
    such separator, and nothing when there is none. *)
Lemma remove_dangling_spec (s : QString) :
  (exists pre post,
      s = pre ++ qs " - " ++ post /\
      (post = [] \/ (exists rest, post = ">"%char :: rest) \/ post = [LF]) /\
      (forall j, j < length pre -> ~ dangling_at s j) /\
      remove_dangling s = pre ++ post) \/
  ((forall j, ~ dangling_at s j) /\ remove_dangling s = s).
Proof.
  unfold remove_dangling, indexOf_dangling.
  destruct (indexOf_dangling_from_spec s (i0 := 0))
    as [[E Hnone]|(k & E & (pre & post & Hs & Hlen & Hend) & Hmin)]; [lia| |].
  - right. rewrite E. split; [assumption|reflexivity].
  - left. rewrite E. exists pre, post. subst k.
    repeat split; auto.
    destruct (Z.geb_spec (0 + Z.of_nat (length pre)) 0); [|lia].
    replace (Z.to_nat (0 + Z.of_nat (length pre))) with (length pre) by lia.
    unfold QString_remove. rewrite Hs.
    rewrite firstn_app, firstn_all, Nat.sub_diag. cbn [firstn].
    rewrite app_nil_r. f_equal.
    rewrite skipn_app, skipn_all2 by lia.
    replace (length pre + 3 - length pre) with 3 by lia. reflexivity.
Qed.

(* ================================================================== *)
(** * The templating: what the description says *)

Lemma is_variable_newline : is_variable (qs "%newline%").
Proof.
  exists (qs "newline"). repeat split; [discriminate|].
  repeat constructor.
Qed.

(** C1 (as amended).  [ReplaceMessage] finds the tokens by a scan of the
    message itself, from left to right, every search taking the leftmost
    token and starting where the previous token ended, so that text a
    substitution puts in is never searched for tokens.  For every token found
    it replaces every occurrence of the token's text in the working copy by
    the token's value; the result is the working copy after these turns,
    with the dangling separator removed. *)
Theorem ReplaceMessage_scans_message (message : QString) (song : Song)
    (newline : QString) (html_escaped : bool) :
  exists ms,
    Scan message 0 ms /\
    (forall ms', Scan message 0 ms' -> ms' = ms) /\
    ReplaceMessage message song newline html_escaped
    = Some (remove_dangling
              (replace_found song newline html_escaped ms message)).
Proof.
  destruct (@ReplaceMessage_loop_scan message song newline html_escaped
              (S (length message)) 0 message) as (ms & Hscan & Hrun).
  - lia.
  - lia.
  - exists ms. split; [exact Hscan|]. split.
    + intros ms' Hscan'. eapply Scan_unique; eauto.
    + unfold ReplaceMessage. rewrite Hrun. reflexivity.
Qed.

(** C1 (as stated) fails.  The artist of the song is the text [%title%]: the
    turn for [%artist%] puts that text into the working copy and the turn
    for [%title%] replaces it there, so the result is [T/T] where one pass
    over the message gives [%title%/T]. *)
Lemma injected_token_is_substituted :
  ReplaceMessage (qs "%artist%/%title%") (song_with (qs "T") (qs "%title%"))
    [LF] false = Some (qs "T/T") /\
  remove_dangling
    (substitute_single_pass (qs "%artist%/%title%") 0
       (song_with (qs "T") (qs "%title%")) [LF] false) = qs "%title%/T" /\
  ReplaceMessage (qs "%artist%/%title%") (song_with (qs "T") (qs "%title%"))
    [LF] false
  <> Some (remove_dangling
             (substitute_single_pass (qs "%artist%/%title%") 0
                (song_with (qs "T") (qs "%title%")) [LF] false)).
Proof.
  split; [|split]; [vm_compute; reflexivity..|].
  intros H. vm_compute in H. discriminate.
Qed.

(** C2.  [%newline%] is replaced by the newline string the caller gave, as
    it is, whatever the flag: [ReplaceVariable] returns that string, a message
    with this token between literal text becomes the text with the string in
    the token's place, and [ReplaceMessage("%newline%", song, "<br>", true)]
    is [<br>]. *)
Theorem newline_not_escaped (pre post : QString) (song : Song)
    (newline : QString) (html_escaped : bool) :
  literal pre -> literal post ->
  ReplaceVariable (qs "%newline%") song newline html_escaped = newline /\
  ReplaceMessage (pre ++ qs "%newline%" ++ post) song newline html_escaped
  = Some (remove_dangling (pre ++ newline ++ post)) /\
  ReplaceMessage (qs "%newline%") song (qs "<br>") true = Some (qs "<br>").
Proof.
  intros Hpre Hpost. split; [apply ReplaceVariable_newline|]. split.
  - rewrite ReplaceMessage_one_variable
      by auto using is_variable_newline.
    now rewrite ReplaceVariable_newline.
  - reflexivity.
Qed.

(** C2, at the message [a%newline%b] with the newline [<br>] and the flag
    set. *)
Lemma newline_not_escaped_witness :
  ReplaceMessage (qs "a%newline%b") (song_with (qs "Song") []) (qs "<br>") true
  = Some (qs "a<br>b").
Proof.
  refine (proj1 (proj2
    (@newline_not_escaped (qs "a") (qs "b") (song_with (qs "Song") [])
       (qs "<br>") true _ _)));
    repeat constructor; discriminate.
Defined.

Lemma is_variable_unknowntoken : is_variable (qs "%unknowntoken%").
Proof.
  exists (qs "unknowntoken"). repeat split; [discriminate|].
  repeat constructor.
Qed.

Lemma unknowntoken_not_dispatched : ~ In (qs "%unknowntoken%") dispatch_table.
Proof.
  unfold dispatch_table. intros H.
  repeat (destruct H as [H|H]; [discriminate H|]). exact H.
Qed.

(** C3.  [ReplaceMessage] returns a string for every message, song, newline
    string and flag.  A token whose name is not in the dispatch table is
    resolved to its own text, and a message all of whose tokens are of this
    kind comes back as it is, up to the separator removed at the end; so
    [ReplaceMessage("%unknowntoken%", song, "\n", false)] is
    [%unknowntoken%]. *)
Theorem unknown_variable_inert :
  (forall message song newline html_escaped,
      exists out,
        ReplaceMessage message song newline html_escaped = Some out) /\
  (forall t song newline html_escaped,
      is_variable t -> ~ In t dispatch_table ->
      ReplaceVariable t song newline html_escaped = t) /\
  (forall message song newline html_escaped,
      (forall i t, variable_at message i t -> ~ In t dispatch_table) ->
      ReplaceMessage message song newline html_escaped
      = Some (remove_dangling message)) /\
  (forall song,
      ReplaceMessage (qs "%unknowntoken%") song [LF] false
      = Some (qs "%unknowntoken%")).
Proof.
  split; [|split; [|split]].
  - intros message song newline html_escaped.
    destruct (ReplaceMessage_scan message song newline html_escaped)
      as (ms & _ & E).
    eauto.
  - intros. now apply ReplaceVariable_unknown.
  - intros message song newline html_escaped Hunknown.
    destruct (ReplaceMessage_scan message song newline html_escaped)
      as (ms & Hscan & E).
    rewrite E, replace_found_inert; [reflexivity|].
    intros i t Hin.
    pose proof (Scan_variable_at Hscan _ _ Hin) as Hat.
    split; [exact (proj1 Hat)|]. eapply Hunknown, Hat.
  - intros song. reflexivity.
Qed.

(** C3, at the token [%unknowntoken%] with the flag set. *)
Lemma unknown_variable_inert_witness :
  ReplaceVariable (qs "%unknowntoken%") (song_with (qs "Song") []) [LF] true
  = qs "%unknowntoken%".
Proof.
  exact (proj1 (proj2 unknown_variable_inert) (qs "%unknowntoken%")
           (song_with (qs "Song") []) [LF] true
           is_variable_unknowntoken unknowntoken_not_dispatched).
Defined.

(** C4 (as amended).  Behind the substitutions [ReplaceMessage] removes the
    three characters of the leftmost [" - "] that stands in front of [>], of
    the end of the string, or of a line feed that ends the string, and
    nothing else; what follows the separator stays.  When there is no such
    separator the string is returned as it is.  With the title [Song] and an
    empty artist the message [%title% - %artist%] gives [Song]. *)
Theorem dangling_separator_removed (message : QString) (song : Song)
    (newline : QString) (html_escaped : bool) :
  (exists copy,
      ReplaceMessage_loop (S (length message)) message song newline
        html_escaped 0 message = Some copy /\
      ((exists pre post,
           copy = pre ++ qs " - " ++ post /\
           (post = [] \/ (exists rest, post = ">"%char :: rest) \/
            post = [LF]) /\
           (forall j, j < length pre -> ~ dangling_at copy j) /\
           ReplaceMessage message song newline html_escaped
           = Some (pre ++ post)) \/
       ((forall j, ~ dangling_at copy j) /\
        ReplaceMessage message song newline html_escaped = Some copy))) /\
  (PrettyTitle song = qs "Song" -> artist song = [] ->
   ReplaceMessage (qs "%title% - %artist%") song newline html_escaped
   = Some (qs "Song")).
Proof.
  split.
  - destruct (@ReplaceMessage_loop_scan message song newline html_escaped
                (S (length message)) 0 message) as (ms & _ & E); [lia|lia|].
    exists (replace_found song newline html_escaped ms message).
    split; [assumption|].
    unfold ReplaceMessage. rewrite E. cbn [option_map].
    destruct (remove_dangling_spec
                (replace_found song newline html_escaped ms message))
      as [(pre & post & Hs & Hend & Hmin & Hr)|[Hnone Hr]].
    + left. exists pre, post. rewrite Hr. auto.
    + right. rewrite Hr. auto.
  - destruct song; cbn [PrettyTitle artist]. intros -> ->.
    destruct html_escaped; reflexivity.
Qed.

(** C4 (as amended), at the song with the title [Song] and no artist. *)
Lemma dangling_separator_removed_witness :
  ReplaceMessage (qs "%title% - %artist%") (song_with (qs "Song") []) [LF]
    false = Some (qs "Song").
Proof.
  exact (proj2 (dangling_separator_removed (qs "%title% - %artist%")
                  (song_with (qs "Song") []) [LF] false)
           eq_refl eq_refl).
Defined.

(** C4 (as stated) fails.  In [Song - ] followed by a line feed no [" - "]
    stands in front of [>] or of the end of the string, so the description
    leaves the string alone; the dollar of the expression also holds in
    front of a line feed that ends the string, and [ReplaceMessage] removes
    the separator. *)
Lemma separator_before_final_newline_removed :
  ReplaceMessage_loop 20 (qs "%title% - %newline%")
    (song_with (qs "Song") []) [LF] false 0 (qs "%title% - %newline%")
  = Some (qs "Song - " ++ [LF]) /\
  remove_described_dangling (qs "Song - " ++ [LF]) = qs "Song - " ++ [LF] /\
  ReplaceMessage (qs "%title% - %newline%") (song_with (qs "Song") []) [LF]
    false = Some (qs "Song" ++ [LF]) /\
  ReplaceMessage (qs "%title% - %newline%") (song_with (qs "Song") []) [LF]
    false
  <> option_map remove_described_dangling
       (ReplaceMessage_loop 20 (qs "%title% - %newline%")
          (song_with (qs "Song") []) [LF] false 0 (qs "%title% - %newline%")).
Proof.
  repeat split; try (vm_compute; reflexivity).
  intros H. vm_compute in H. discriminate.
Qed.

(** C5.  With the flag set the value of every token other than [%newline%]
    is the unescaped value passed through [toHtmlEscaped], which writes
    [&amp;], [&lt;], [&gt;] and [&quot;] for the four characters and leaves
    every other character as it is; the literal text around a token is not
    escaped. *)
Theorem values_html_escaped (pre t post : QString) (song : Song)
    (newline : QString) :
  literal pre -> literal post -> is_variable t -> t <> qs "%newline%" ->
  ReplaceVariable t song newline true
  = toHtmlEscaped (ReplaceVariable t song newline false) /\
  ReplaceMessage (pre ++ t ++ post) song newline true
  = Some (remove_dangling
            (pre ++ toHtmlEscaped (ReplaceVariable t song newline false)
                 ++ post)) /\
  toHtmlEscaped (qs "&<>" ++ [quote]) = qs "&amp;&lt;&gt;&quot;" /\
  (forall a b, toHtmlEscaped (a ++ b) = toHtmlEscaped a ++ toHtmlEscaped b) /\
  (forall s, Forall plain_char s -> toHtmlEscaped s = s).
Proof.
  intros Hpre Hpost Ht Hn.
  pose proof (ReplaceVariable_escaped song newline Hn) as E.
  split; [assumption|]. split.
  - rewrite ReplaceMessage_one_variable by assumption. now rewrite E.
  - split; [reflexivity|]. split; [apply toHtmlEscaped_app|].
    apply toHtmlEscaped_plain.
Qed.

Lemma is_variable_artist : is_variable (qs "%artist%").
Proof.
  exists (qs "artist"). repeat split; [discriminate|].
  repeat constructor.
Qed.

(** C5, at the message [<b>%artist%</b>] with the artist [A&B]. *)
Lemma values_html_escaped_witness :
  ReplaceMessage (qs "<b>%artist%</b>") (song_with (qs "Song") (qs "A&B"))
    [LF] true = Some (qs "<b>A&amp;B</b>").
Proof.
  refine (proj1 (proj2
    (@values_html_escaped (qs "<b>") (qs "%artist%") (qs "</b>")
       (song_with (qs "Song") (qs "A&B")) [LF] _ _
       is_variable_artist _)));
    repeat constructor; discriminate.
Defined.

(* ================================================================== *)
(** * Properties of the file system *)

(** Induction over a node and the nodes in it. *)
Lemma Node_ind (P : Node -> Prop) :
  (forall accessible data, P (File accessible data)) ->
  (forall es, Forall (fun e => P (snd e)) es -> P (Dir es)) ->
  forall n, P n.
Proof.
  intros HF HD.
  fix IH 1. intros [a d|es]; [apply HF|].
  apply HD. induction es as [|[name child] es IHes]; constructor.
  - apply IH.
  - exact IHes.
Qed.

Lemma lookup_app (n : Node) (p q : list QString) :
  lookup n (p ++ q) =
  match lookup n p with Some m => lookup m q | None => None end.
Proof.
  revert n; induction p as [|name p IH]; intros n; [reflexivity|].
  cbn [app lookup]. destruct n as [|es]; [reflexivity|].
  destruct (entry name es); [apply IH|reflexivity].
Qed.

Lemma entry_update_entry (name : QString) (h : Node -> Node) (es : Entries) :
  entry name (update_entry name h es) = option_map h (entry name es).
Proof.
  induction es as [|[n c] es IH]; [reflexivity|]. cbn [update_entry entry].
  destruct (QString_eqb n name) eqn:E; cbn [entry]; rewrite E; auto.
Qed.

Lemma update_entry_ext (name : QString) (h1 h2 : Node -> Node) (es : Entries) :
  (forall c, h1 c = h2 c) -> update_entry name h1 es = update_entry name h2 es.
Proof.
  intros H. induction es as [|[n c] es IH]; [reflexivity|].
  cbn [update_entry]. now rewrite H, IH.
Qed.

Lemma update_entry_twice (name : QString) (h1 h2 : Node -> Node)
    (es : Entries) :
  update_entry name h2 (update_entry name h1 es)
  = update_entry name (fun c => h2 (h1 c)) es.
Proof.
  induction es as [|[n c] es IH]; [reflexivity|]. cbn [update_entry].
  destruct (QString_eqb n name) eqn:E; cbn [update_entry]; rewrite E;
    [reflexivity|now rewrite IH].
Qed.

Lemma remove_entry_update_entry (name : QString) (h : Node -> Node)
    (es : Entries) :
  remove_entry name (update_entry name h es) = remove_entry name es.
Proof.
  induction es as [|[n c] es IH]; [reflexivity|].
  cbn [update_entry remove_entry].
  destruct (QString_eqb n name) eqn:E; cbn [remove_entry]; rewrite E;
    [reflexivity|now rewrite IH].
Qed.

Lemma update_ext (n : Node) (p : list QString) (f g : Entries -> Entries) :
  (forall es, f es = g es) -> update n p f = update n p g.
Proof.
  intros H. revert n; induction p as [|name p IH]; intros [a d|es];
    cbn [update]; try reflexivity.
  - now rewrite H.
  - f_equal. apply update_entry_ext. intros c. apply IH.
Qed.

Lemma update_twice (n : Node) (p : list QString) (f g : Entries -> Entries) :
  update (update n p f) p g = update n p (fun es => g (f es)).
Proof.
  revert n; induction p as [|name p IH]; intros [a d|es]; cbn [update];
    try reflexivity.
  f_equal. rewrite update_entry_twice. apply update_entry_ext.
  intros c. apply IH.
Qed.

Lemma lookup_update (n : Node) (p : list QString) (f : Entries -> Entries)
    (es : Entries) :
  lookup n p = Some (Dir es) -> lookup (update n p f) p = Some (Dir (f es)).
Proof.
  revert n; induction p as [|name p IH]; intros n; cbn [lookup].
  - intros [= ->]. reflexivity.
  - destruct n as [|es0]; [discriminate|]. cbn [update lookup].
    rewrite entry_update_entry.
    destruct (entry name es0) as [child|]; [|discriminate].
    cbn [option_map]. apply IH.
Qed.

(** Updating the directory at [p ++ [name]] changes, in the directory at
    [p], the entry [name]. *)
Lemma lookup_update_parent (n : Node) (p : list QString) (name : QString)
    (f : Entries -> Entries) (es : Entries) :
  lookup n p = Some (Dir es) ->
  lookup (update n (p ++ [name]) f) p
  = Some (Dir (update_entry name (fun c => update c [] f) es)).
Proof.
  revert n; induction p as [|q p IH]; intros n; cbn [lookup app].
  - intros [= ->]. reflexivity.
  - destruct n as [|es0]; [discriminate|]. cbn [update lookup].
    rewrite entry_update_entry.
    destruct (entry q es0) as [child|]; [|discriminate].
    cbn [option_map]. apply IH.
Qed.

Lemma update_parent_after (n : Node) (p : list QString) (name : QString)
    (f g : Entries -> Entries) :
  update (update n (p ++ [name]) f) p g
  = update n p (fun es => g (update_entry name (fun c => update c [] f) es)).
Proof.
  revert n; induction p as [|q p IH]; intros [a d|es]; cbn [update app];
    try reflexivity.
  f_equal. rewrite update_entry_twice. apply update_entry_ext.
  intros c. apply IH.
Qed.

Lemma parent_and_name_snoc (p : list QString) (name : QString) :
  parent_and_name (p ++ [name]) = Some (p, name).
Proof.
  unfold parent_and_name.
  destruct (p ++ [name]) eqn:E; [now destruct p|].
  rewrite <- E. now rewrite removelast_last, last_last.
Qed.

Lemma update_entry_id (name : QString) (h : Node -> Node) (es : Entries)
    (c : Node) :
  entry name es = Some c -> h c = c -> update_entry name h es = es.
Proof.
  intros He Hc. induction es as [|[n c'] es IH]; [reflexivity|].
  cbn [entry update_entry] in *.
  destruct (QString_eqb n name); [|now rewrite IH].
  injection He as ->. now rewrite Hc.
Qed.

Lemma update_id (n : Node) (p : list QString) (es : Entries) :
  lookup n p = Some (Dir es) -> update n p (fun _ => es) = n.
Proof.
  revert n; induction p as [|name p IH]; intros n; cbn [lookup].
  - intros [= ->]. reflexivity.
  - destruct n as [|es0]; [discriminate|]. cbn [update].
    destruct (entry name es0) as [child|] eqn:E; [|discriminate].
    intros H. f_equal. eapply update_entry_id; eauto.
Qed.

Lemma lookup_child (root : Node) (parent : list QString) (name : QString)
    (siblings : Entries) :
  lookup root parent = Some (Dir siblings) ->
  lookup root (parent ++ [name]) = entry name siblings.
Proof.
  intros H. rewrite lookup_app, H. cbn [lookup].
  now destruct (entry name siblings).
Qed.

Lemma entry_at_child (root : Node) (parent : list QString) (name : QString)
    (siblings : Entries) :
  lookup root parent = Some (Dir siblings) ->
  entry_at root (parent ++ [name]) = entry name siblings.
Proof.
  intros H. unfold entry_at. now rewrite parent_and_name_snoc, H.
Qed.

Lemma without_child (root : Node) (parent : list QString) (name : QString) :
  without root (parent ++ [name]) = update root parent (remove_entry name).
Proof. unfold without. now rewrite parent_and_name_snoc. Qed.

Lemma entry_app_notin (name : QString) (F R : Entries) :
  existsb (QString_eqb name) (map fst F) = false ->
  entry name (F ++ R) = entry name R.
Proof.
  induction F as [|[n c] F IH]; [reflexivity|]. cbn [map fst existsb app entry].
  intros [H1 H2]%orb_false_elim.
  destruct (QString_eqb_spec n name) as [->|].
  - now rewrite QString_eqb_refl in H1.
  - auto.
Qed.

Lemma remove_entry_app_notin (name : QString) (F R : Entries) :
  existsb (QString_eqb name) (map fst F) = false ->
  remove_entry name (F ++ R) = F ++ remove_entry name R.
Proof.
  induction F as [|[n c] F IH]; [reflexivity|].
  cbn [map fst existsb app remove_entry].
  intros [H1 H2]%orb_false_elim.
  destruct (QString_eqb_spec n name) as [->|].
  - now rewrite QString_eqb_refl in H1.
  - now rewrite IH.
Qed.

Lemma distinct_app_head (F : list QString) (name : QString)
    (R : list QString) :
  distinct (F ++ name :: R) = true ->
  existsb (QString_eqb name) F = false.
Proof.
  induction F as [|n F IH]; [reflexivity|]. cbn [app distinct existsb].
  intros [H1 H2]%andb_prop. rewrite (IH H2), orb_false_r.
  apply negb_true_iff in H1. rewrite existsb_app in H1.
  apply orb_false_elim in H1 as [_ H1]. cbn [existsb] in H1.
  apply orb_false_elim in H1 as [H1 _].
  destruct (QString_eqb_spec name n) as [->|]; [|reflexivity].
  now rewrite QString_eqb_refl in H1.
Qed.

(* ================================================================== *)
(** * Properties of paths *)

Lemma fields_nonempty (s : QString) : fields s <> [].
Proof.
  induction s as [|c s IH]; simpl; [discriminate|].
  destruct (Ascii.eqb c slash); [discriminate|].
  destruct (fields s); [contradiction|discriminate].
Qed.

Lemma fields_app (a b : QString) :
  fields (a ++ slash :: b) = fields a ++ fields b.
Proof.
  induction a as [|c a IH]; cbn [app fields].
  - now rewrite Ascii.eqb_refl.
  - destruct (Ascii.eqb c slash); [now rewrite IH|].
    rewrite IH. pose proof (fields_nonempty a) as Hne.
    destruct (fields a); [contradiction|reflexivity].
Qed.

Lemma plain_name_spec (name : QString) :
  plain_name name = true ->
  name <> [] /\ name <> qs "." /\ name <> qs ".." /\
  Forall (fun c => c <> slash) name.
Proof.
  unfold plain_name. intros H.
  repeat (apply andb_prop in H as [H ?]).
  repeat match goal with
         | H : negb (QString_eqb ?a ?b) = true |- _ =>
             apply negb_true_iff in H;
             destruct (QString_eqb_spec a b); [discriminate|]
         end.
  repeat split; auto.
  apply Forall_forall. intros c Hc.
  match goal with H : forallb _ _ = true |- _ =>
    rewrite forallb_forall in H; specialize (H c Hc) end.
  intros ->. discriminate.
Qed.

Lemma fields_plain (name : QString) :
  Forall (fun c => c <> slash) name -> fields name = [name].
Proof.
  induction 1 as [|c name Hc _ IH]; [reflexivity|].
  cbn [fields]. destruct (Ascii.eqb_spec c slash); [contradiction|].
  now rewrite IH.
Qed.

Lemma walk_plain (root : Node) (p : list QString) (name : QString)
    (es : Entries) :
  lookup root p = Some (Dir es) -> plain_name name = true ->
  walk root (Some p) name = Some (p ++ [name]).
Proof.
  intros Hp (H1 & H2 & H3 & _)%plain_name_spec. unfold walk.
  now rewrite Hp, !QString_eqb_neq by assumption.
Qed.

Lemma walk_empty (root : Node) (p : list QString) (es : Entries) :
  lookup root p = Some (Dir es) -> walk root (Some p) [] = Some p.
Proof. intros Hp. unfold walk. now rewrite Hp. Qed.

Lemma walk_from_nowhere (root : Node) (l : list QString) :
  fold_left (walk root) l None = None.
Proof. induction l; auto. Qed.

Lemma isAbsolute_child (path child : QString) :
  path <> [] ->
  isAbsolute (path ++ qs "/" ++ child) = isAbsolute path.
Proof. destruct path; [congruence|reflexivity]. Qed.

Lemma plain_path_nonempty (path : QString) (p : list QString) :
  plain_path path p -> p <> [] -> path <> [].
Proof. intros [H _] Hp ->. cbn in H. injection H as H. auto. Qed.

Lemma plain_path_absolute (path : QString) (p : list QString) :
  plain_path path p -> p <> [] -> isAbsolute path = true.
Proof.
  intros [H _] Hp.
  destruct path as [|c path]; [cbn in H; injection H as H; now elim Hp|].
  cbn [fields] in H. unfold isAbsolute. cbn [startsWith].
  destruct (Ascii.eqb_spec c slash) as [->|]; [reflexivity|].
  destruct (fields path); discriminate.
Qed.

Lemma plain_path_child (path : QString) (p : list QString) (child : QString) :
  plain_path path p -> plain_name child = true ->
  plain_path (path ++ qs "/" ++ child) (p ++ [child]).
Proof.
  intros [H Hp] Hc. split.
  - change (qs "/" ++ child) with (slash :: child).
    rewrite fields_app, H.
    pose proof (plain_name_spec _ Hc) as (_ & _ & _ & Hs).
    now rewrite fields_plain.
  - apply Forall_app. split; [assumption|]. now constructor.
Qed.

Lemma lookup_prefix_dir (root : Node) (p q : list QString) (n : Node) :
  lookup root (p ++ q) = Some n -> q <> [] ->
  exists es, lookup root p = Some (Dir es).
Proof.
  rewrite lookup_app. destruct (lookup root p) as [[a d|es]|]; try discriminate.
  - destruct q; [congruence|discriminate].
  - eauto.
Qed.

Lemma walk_names (root : Node) (names start : list QString) (es : Entries) :
  Forall (fun name => plain_name name = true) names ->
  names <> [] ->
  lookup root (start ++ removelast names) = Some (Dir es) ->
  fold_left (walk root) names (Some start) = Some (start ++ names).
Proof.
  intros Hplain. revert start.
  induction Hplain as [|n names Hn Hnames IH]; intros start Hne Hlook;
    [congruence|].
  destruct names as [|m names].
  - cbn [removelast] in Hlook. rewrite app_nil_r in Hlook.
    cbn [fold_left]. eapply walk_plain; eauto.
  - change (removelast (n :: m :: names)) with (n :: removelast (m :: names))
      in Hlook.
    destruct (@lookup_prefix_dir root start _ _ Hlook) as [es' Hstart];
      [discriminate|].
    change (fold_left (walk root) (n :: m :: names) (Some start))
      with (fold_left (walk root) (m :: names) (walk root (Some start) n)).
    rewrite (@walk_plain _ _ _ _ Hstart Hn).
    rewrite IH; [now rewrite <- app_assoc|discriminate|].
    now rewrite <- app_assoc.
Qed.

(** The absolute path made of the names of a place resolves to the place
    when the parent of the place is a directory. *)
Lemma resolve_plain_path (root : Node) (cwd : list QString) (path : QString)
    (parent : list QString) (name : QString) (siblings : Entries) :
  plain_path path (parent ++ [name]) ->
  lookup root parent = Some (Dir siblings) ->
  resolve root cwd path = Some (parent ++ [name]).
Proof.
  intros Hpath Hpar.
  pose proof (plain_path_absolute Hpath) as Habs.
  destruct Hpath as [Hf Hplain]. unfold resolve.
  rewrite Hf, Habs by (now destruct parent). cbn [fold_left].
  assert (Hroot : exists es, lookup root [] = Some (Dir es)).
  { destruct parent as [|q parent]; [eauto|].
    apply (@lookup_prefix_dir root [] (q :: parent) _ Hpar). discriminate. }
  destruct Hroot as [es Hroot]. rewrite (@walk_empty _ _ _ Hroot).
  apply (@walk_names root (parent ++ [name]) [] siblings); auto.
  - now destruct parent.
  - cbn [app]. now rewrite removelast_last.
Qed.

Lemma child_path_nonempty (path child : QString) :
  path ++ qs "/" ++ child <> [].
Proof. destruct path; discriminate. Qed.

Lemma QDir_nonempty (path : QString) : path <> [] -> QDir path = path.
Proof. destruct path; [congruence|reflexivity]. Qed.

Lemma QDir_filePath_absolute (dir path : QString) :
  isAbsolute path = true -> QDir_filePath dir path = path.
Proof. unfold QDir_filePath. now intros ->. Qed.

(* ================================================================== *)
(** * Properties of the Qt calls *)

Lemma after_refl (w : World) : after w w (fs_root w) [].
Proof. unfold after. now rewrite app_nil_r. Qed.

Lemma after_trans (w w1 w2 : World) (r1 r2 : Node) (e1 e2 : list Event) :
  after w w1 r1 e1 -> after w1 w2 r2 e2 -> after w w2 r2 (e1 ++ e2).
Proof.
  unfold after. intros (H1 & H2 & H3 & H4) (H5 & H6 & H7 & H8).
  repeat split; try congruence. now rewrite H7, H3, app_assoc.
Qed.

Lemma at_path_true (root : Node) (cwd : list QString) (path : QString)
    (change : Node -> list QString -> option Node) (p : list QString)
    (root' : Node) :
  resolve root cwd path = Some p -> change root p = Some root' ->
  at_path root cwd path change = (root', true).
Proof. intros H1 H2. unfold at_path. now rewrite H1, H2. Qed.

Lemma perform_true (s : Step) (w : World) (root' : Node) :
  apply_step (fs_cwd w) s (fs_root w) = (root', true) ->
  exists w', perform s w = Some (true, w') /\ after w w' root' [Did s true].
Proof.
  intros H. unfold perform. rewrite H. eexists. split; [reflexivity|].
  repeat split.
Qed.

Lemma QDir_entryList_run (dir : QString) (filters : Z) (w : World) :
  exists w',
    QDir_entryList dir filters w
    = Some (entry_names (fs_root w) (fs_cwd w) dir filters, w') /\
    after w w' (fs_root w)
      [Listed dir filters (entry_names (fs_root w) (fs_cwd w) dir filters)].
Proof.
  unfold QDir_entryList. eexists. split; [reflexivity|]. repeat split.
Qed.

Lemma listed_dirs_and_hidden (e : QString * Node) :
  listed dirs_and_hidden e = is_dir (snd e).
Proof. unfold listed. destruct (is_dir (snd e)); reflexivity. Qed.

Lemma listed_files_and_hidden (e : QString * Node) :
  listed files_and_hidden e = is_file (snd e).
Proof. unfold listed. destruct e as [n [|]]; reflexivity. Qed.

Lemma entry_names_dirs (root : Node) (cwd : list QString) (dir : QString)
    (p : list QString) (es : Entries) :
  resolve root cwd dir = Some p -> lookup root p = Some (Dir es) ->
  entry_names root cwd dir dirs_and_hidden = dirs_of es.
Proof.
  intros Hp H. unfold entry_names, dirs_of. rewrite Hp, H.
  change (dot_entries dirs_and_hidden) with (@nil QString). cbn [app].
  f_equal. apply filter_ext. apply listed_dirs_and_hidden.
Qed.

Lemma entry_names_files (root : Node) (cwd : list QString) (dir : QString)
    (p : list QString) (es : Entries) :
  resolve root cwd dir = Some p -> lookup root p = Some (Dir es) ->
  entry_names root cwd dir files_and_hidden = files_of es.
Proof.
  intros Hp H. unfold entry_names, files_of. rewrite Hp, H.
  change (dot_entries files_and_hidden) with (@nil QString). cbn [app].
  f_equal. apply filter_ext. apply listed_files_and_hidden.
Qed.

(* ================================================================== *)
(** * Removing a directory, children first *)

Lemma distinct_app_remove (A : list QString) (x : QString) (B : list QString) :
  distinct (A ++ x :: B) = true -> distinct (A ++ B) = true.
Proof.
  induction A as [|a A IH]; cbn [app distinct].
  - now intros [_ H]%andb_prop.
  - intros [H1 H2]%andb_prop. rewrite (IH H2), andb_true_r.
    apply negb_true_iff in H1. apply negb_true_iff.
    rewrite existsb_app in *. cbn [existsb] in H1.
    apply orb_false_elim in H1 as [H1 [_ H3]%orb_false_elim].
    now rewrite H1, H3.
Qed.

Lemma filter_filter {A : Type} (f : A -> bool) (l : list A) :
  filter f (filter f l) = filter f l.
Proof.
  induction l as [|a l IH]; [reflexivity|]. cbn [filter].
  destruct (f a) eqn:E; [cbn [filter]; now rewrite E, IH|assumption].
Qed.

Section RemoveTree.

Variable leaf : QString -> Step.
Hypothesis leaf_unlink :
  forall cwd path root,
    apply_step cwd (leaf path) root = at_path root cwd path unlink.

Lemma files_loop (path : QString) (P : list QString) (root0 : Node)
    (es0 : Entries) :
  plain_path path P -> lookup root0 P = Some (Dir es0) ->
  forall (cur : Entries) (w : World),
    fs_root w = update root0 P (fun _ => cur) ->
    Forall (fun e => plain_name (fst e) = true /\
                     exists d, snd e = File true d) cur ->
    exists w',
      for_children (map fst cur)
        (fun child => perform (leaf (path ++ qs "/" ++ child))) w
      = Some (true, w') /\
      after w w' (update root0 P (fun _ => []))
        (map (fun name => Did (leaf (path ++ qs "/" ++ name)) true)
             (map fst cur)).
Proof.
  intros Hpath Hlook.
  induction cur as [|[c n] cur IH]; intros w Hroot Hall.
  - exists w. split; [reflexivity|]. rewrite <- Hroot. apply after_refl.
  - apply Forall_cons_iff in Hall as [[Hplain [d Hd]] Hall'].
    cbn [fst snd] in *. subst n.
    cbn [map fst for_children]. unfold bind.
    destruct (@perform_true (leaf (path ++ qs "/" ++ c)) w
                (update root0 P (fun _ => cur)))
      as (w1 & E1 & A1).
    { assert (Hcur : lookup (fs_root w) P
                     = Some (Dir ((c, File true d) :: cur)))
        by (rewrite Hroot;
            exact (@lookup_update _ _ (fun _ => (c, File true d) :: cur) _
                     Hlook)).
      rewrite leaf_unlink.
      apply (@at_path_true _ _ _ _ (P ++ [c])).
      - eapply resolve_plain_path; eauto using plain_path_child.
      - unfold unlink. rewrite (@entry_at_child _ _ _ _ Hcur).
        cbn [entry]. rewrite QString_eqb_refl.
        rewrite without_child, Hroot, update_twice. apply f_equal.
        apply update_ext. intros _. cbn [remove_entry].
        now rewrite QString_eqb_refl. }
    rewrite E1.
    destruct A1 as (R1 & C1 & L1 & W1).
    destruct (IH w1) as (w2 & E2 & A2); [assumption|assumption|].
    exists w2. split; [assumption|].
    apply (@after_trans w w1 w2 (fs_root w1) _ [_] _);
      [repeat split; assumption|assumption].
Qed.

Lemma dirs_loop (fuel : nat) (path : QString) (P : list QString)
    (root0 : Node) (es0 : Entries) :
  plain_path path P -> lookup root0 P = Some (Dir es0) ->
  forall (R F : Entries) (w : World),
    fs_root w = update root0 P (fun _ => F ++ R) ->
    distinct (map fst (F ++ R)) = true ->
    Forall (fun e => plain_name (fst e) = true /\
                     well_formed (snd e) = true /\
                     all_accessible (snd e) = true /\
                     (is_dir (snd e) = true -> depth (snd e) <= fuel) /\
                     removes leaf (snd e)) R ->
    exists w',
      for_children (dirs_of R)
        (fun child => remove_tree leaf fuel (path ++ qs "/" ++ child)) w
      = Some (true, w') /\
      after w w'
        (update root0 P (fun _ => F ++ filter (fun e => is_file (snd e)) R))
        (flat_map (fun e =>
                     if is_dir (snd e)
                     then removal_calls leaf (path ++ qs "/" ++ fst e) (snd e)
                     else []) R).
Proof.
  intros Hpath Hlook.
  induction R as [|[n c] R IH]; intros F w Hroot Hdist Hall.
  - exists w. split; [reflexivity|]. cbn [filter flat_map].
    rewrite <- Hroot. apply after_refl.
  - apply Forall_cons_iff in Hall as [(Hplain & Hwf & Hacc & Hdep & Hrem) Hall'].
    cbn [fst snd] in *. destruct c as [a d|sub].
    + (* a file: the loop over the directories passes it *)
      destruct (IH (F ++ [(n, File a d)]) w) as (w' & E & A); auto.
      * now rewrite <- app_assoc.
      * now rewrite <- app_assoc.
      * exists w'. split; [exact E|].
        cbn [filter snd is_file flat_map is_dir fst app].
        now rewrite <- app_assoc in A.
    + (* a directory: it is removed, then the loop goes on *)
      change (dirs_of ((n, Dir sub) :: R)) with (n :: dirs_of R).
      cbn [for_children]. unfold bind.
      rewrite map_app in Hdist. cbn [map fst] in Hdist.
      pose proof (distinct_app_head _ _ _ Hdist) as Hnotin.
      destruct (Hrem fuel (path ++ qs "/" ++ n) w P n
                  (F ++ (n, Dir sub) :: R)) as (w1 & E1 & A1); auto.
      * now apply plain_path_child.
      * rewrite Hroot.
        exact (@lookup_update _ _ (fun _ => F ++ (n, Dir sub) :: R) _ Hlook).
      * rewrite entry_app_notin by assumption. cbn [entry].
        now rewrite QString_eqb_refl.
      * rewrite E1. destruct A1 as (R1 & C1 & L1 & W1).
        destruct (IH F w1) as (w2 & E2 & A2); auto.
        -- rewrite R1, Hroot, update_twice. apply update_ext. intros _.
           rewrite remove_entry_app_notin by assumption.
           cbn [remove_entry]. now rewrite QString_eqb_refl.
        -- rewrite map_app. eapply distinct_app_remove; eauto.
        -- exists w2. split; [assumption|].
           cbn [filter snd is_file flat_map is_dir fst].
           apply (@after_trans w w1 w2 (fs_root w1)); [|assumption].
           repeat split; assumption.
Qed.

Lemma depth_entries (es : Entries) (fuel : nat) :
  depth (Dir es) <= S fuel -> Forall (fun e => depth (snd e) <= fuel) es.
Proof.
  cbn [depth]. intros H. apply le_S_n in H.
  induction es as [|e es IH]; constructor; cbn [fold_right] in H; [lia|].
  apply IH. lia.
Qed.

Theorem remove_tree_removes (n : Node) : removes leaf n.
Proof.
  induction n as [a d|es IHes] using Node_ind;
    intros fuel path w parent name siblings Hpath Hpar Hent Hdir Hwf
      Hacc Hdep; [discriminate|].
  assert (Hne : path <> [])
    by (apply (plain_path_nonempty Hpath); now destruct parent).
  assert (Habs : isAbsolute path = true)
    by (apply (plain_path_absolute Hpath); now destruct parent).
  destruct fuel as [|fuel]; [cbn [depth] in Hdep; lia|].
  cbn [well_formed] in Hwf.
  apply andb_prop in Hwf as [[Hplain Hdist]%andb_prop Hwfs].
  cbn [all_accessible] in Hacc.
  rewrite forallb_forall in Hplain, Hwfs, Hacc.
  pose proof (depth_entries Hdep) as Hdeps. rewrite Forall_forall in Hdeps.
  rewrite Forall_forall in IHes.
  assert (Hlook : lookup (fs_root w) (parent ++ [name]) = Some (Dir es))
    by (now rewrite (@lookup_child _ _ name _ Hpar)).
  (* while the entries of the directory change, its path resolves to it *)
  assert (Hres : forall w' cur,
             fs_cwd w' = fs_cwd w ->
             fs_root w' = update (fs_root w) (parent ++ [name]) (fun _ => cur) ->
             resolve (fs_root w') (fs_cwd w') path = Some (parent ++ [name]) /\
             lookup (fs_root w') (parent ++ [name]) = Some (Dir cur)).
  { intros w' cur _ Hroot. rewrite Hroot. split.
    - eapply resolve_plain_path; [exact Hpath|].
      exact (@lookup_update_parent _ _ name (fun _ => cur) _ Hpar).
    - exact (@lookup_update _ _ (fun _ => cur) _ Hlook). }
  assert (Hid : fs_root w = update (fs_root w) (parent ++ [name]) (fun _ => es))
    by (symmetry; now apply update_id).
  cbn [remove_tree]. rewrite QDir_nonempty by assumption. unfold bind.
  (* the directories *)
  destruct (QDir_entryList_run path dirs_and_hidden w) as (w1 & E1 & A1).
  destruct (Hres w es eq_refl Hid) as [Hr0 Hl0].
  rewrite (@entry_names_dirs _ _ _ _ _ Hr0 Hl0) in E1, A1.
  rewrite E1. destruct A1 as (R1 & C1 & L1 & W1).
  destruct (@dirs_loop fuel path (parent ++ [name]) (fs_root w) es Hpath Hlook
              es [] w1) as (w2 & E2 & A2).
  { cbn [app]. congruence. }
  { exact Hdist. }
  { apply Forall_forall. intros e He. repeat split; auto. }
  rewrite E2. cbn [app] in A2. destruct A2 as (R2 & C2 & L2 & W2).
  (* the files *)
  destruct (QDir_entryList_run path files_and_hidden w2) as (w3 & E3 & A3).
  destruct (Hres w2 (filter (fun e => is_file (snd e)) es)) as [Hr2 Hl2];
    [congruence|assumption|].
  rewrite (@entry_names_files _ _ _ _ _ Hr2 Hl2) in E3, A3.
  unfold files_of in E3, A3. rewrite filter_filter in E3, A3.
  rewrite E3. destruct A3 as (R3 & C3 & L3 & W3).
  destruct (@files_loop path (parent ++ [name]) (fs_root w) es Hpath Hlook
              (filter (fun e => is_file (snd e)) es) w3) as (w4 & E4 & A4).
  { congruence. }
  { apply Forall_forall. intros [c m] [Hin Hfile]%filter_In.
    cbn [fst snd] in *. split; [exact (Hplain _ Hin)|].
    specialize (Hacc _ Hin). cbn [snd] in Hacc.
    destruct m as [a d|]; [|discriminate]. cbn in Hacc. subst a. eauto. }
  rewrite E4. destruct A4 as (R4 & C4 & L4 & W4).
  (* the directory itself *)
  destruct (Hres w4 []) as [Hr4 Hl4]; [congruence|assumption|].
  destruct (@perform_true (QDir_rmdir_step path path) w4
              (update (fs_root w) parent (remove_entry name)))
    as (w5 & E5 & A5).
  { cbn [apply_step]. destruct path as [|c0 path0] eqn:Epath; [congruence|].
    rewrite <- Epath in *.
    rewrite QDir_filePath_absolute by assumption.
    apply (@at_path_true _ _ _ _ (parent ++ [name])); [assumption|].
    unfold rmdir. rewrite R4.
    rewrite (@entry_at_child _ _ _
               (update_entry name (fun c => update c [] (fun _ => []))
                  siblings))
      by (exact (@lookup_update_parent _ _ name (fun _ => []) _ Hpar)).
    rewrite entry_update_entry, Hent. cbn [option_map update].
    rewrite without_child, update_parent_after. apply f_equal.
    apply update_ext. intros es'. apply remove_entry_update_entry. }
  unfold QDir_rmdir. rewrite E5. exists w5. split; [reflexivity|].
  destruct A5 as (R5 & C5 & L5 & W5).
  repeat split; try congruence.
  rewrite L5, L4, L3, L2, L1. cbn [removal_calls].
  rewrite QDir_nonempty by assumption.
  unfold files_of. rewrite <- !app_assoc. reflexivity.
Qed.

End RemoveTree.

(* ================================================================== *)
(** * Giving up at the first failure *)











(* ================================================================== *)
(** * The two instances of [remove_tree] *)

Lemma bind_ext {A B : Type} (m : M A) (k1 k2 : A -> M B) (w : World) :
  (forall a w', k1 a w' = k2 a w') -> bind m k1 w = bind m k2 w.
Proof.
  intros H. unfold bind. destruct (m w) as [[a w']|]; auto.
Qed.

Lemma for_children_ext (children : list QString)
    (body1 body2 : QString -> M bool) (w : World) :
  (forall child w', body1 child w' = body2 child w') ->
  for_children children body1 w = for_children children body2 w.
Proof.
  intros H. revert w; induction children as [|c rest IH]; intros w;
    [reflexivity|].
  cbn [for_children]. unfold bind. rewrite H.
  destruct (body2 c w) as [[[|] w']|]; auto.
Qed.

Lemma RemoveRecursive_remove_tree (fuel : nat) (path : QString) (w : World) :
  RemoveRecursive fuel path w = remove_tree QFile_remove_step fuel path w.
Proof.
  revert path w; induction fuel as [|fuel IH]; intros path w; [reflexivity|].
  cbn [RemoveRecursive remove_tree].
  apply bind_ext. intros dirs w1.
  unfold bind at 1 4.
  rewrite (@for_children_ext dirs _
             (fun child =>
                remove_tree QFile_remove_step fuel (path ++ qs "/" ++ child)))
    by (intros; apply IH).
  reflexivity.
Qed.

Lemma MoveToTrashRecursive_remove_tree (QT_VERSION : Z) (fuel : nat)
    (path : QString) (w : World) :
  (QT_VERSION >= QT_VERSION_CHECK 5 15 0)%Z ->
  MoveToTrashRecursive QT_VERSION fuel path w
  = remove_tree QFile_moveToTrash_step fuel path w.
Proof.
  intros Hv. apply Z.geb_ge in Hv.
  revert path w; induction fuel as [|fuel IH]; intros path w;
    cbn [MoveToTrashRecursive remove_tree]; rewrite Hv; [reflexivity|].
  apply bind_ext. intros dirs w1.
  unfold bind at 1 4.
  rewrite (@for_children_ext dirs _
             (fun child =>
                remove_tree QFile_moveToTrash_step fuel
                  (path ++ qs "/" ++ child)))
    by (intros; apply IH).
  reflexivity.
Qed.

(* ================================================================== *)
(** * The order of the calls of a removal *)

Lemma perform_calls (s : Step) (w : World) (ok : bool) (w' : World) :
  perform s w = Some (ok, w') -> calls w' = calls w ++ [Did s ok].
Proof.
  unfold perform.
  destruct (apply_step (fs_cwd w) s (fs_root w)) as [root' ok'].
  now intros [= <- <-].
Qed.



(* ================================================================== *)
(** * The calls of a copy *)

Lemma calls_only_weaken {A : Type} (P Q : Event -> Prop) (m : M A) :
  (forall e, P e -> Q e) -> calls_only P m -> calls_only Q m.
Proof.
  intros HPQ Hm w a w' E. destruct (Hm _ _ _ E) as (evs & L & HP).
  exists evs. split; [assumption|]. eapply Forall_impl; eauto.
Qed.

Lemma calls_only_ret {A : Type} (P : Event -> Prop) (a : A) :
  calls_only P (ret a).
Proof.
  intros w a' w' [= <- <-]. exists []. rewrite app_nil_r. auto.
Qed.

Lemma calls_only_bind {A B : Type} (P : Event -> Prop) (Q : A -> Prop)
    (m : M A) (k : A -> M B) :
  calls_only P m ->
  (forall w a w', m w = Some (a, w') -> Q a) ->
  (forall a, Q a -> calls_only P (k a)) ->
  calls_only P (bind m k).
Proof.
  intros Hm HQ Hk w b w'. unfold bind.
  destruct (m w) as [[a w1]|] eqn:E1; [|discriminate]. intros E2.
  destruct (Hm _ _ _ E1) as (e1 & L1 & P1).
  destruct (Hk a (HQ _ _ _ E1) _ _ _ E2) as (e2 & L2 & P2).
  exists (e1 ++ e2). rewrite L2, L1, app_assoc. split; [reflexivity|].
  apply Forall_app. now split.
Qed.

Lemma calls_only_perform (P : Event -> Prop) (s : Step) :
  (forall ok, P (Did s ok)) -> calls_only P (perform s).
Proof.
  intros HP w ok w' E. apply perform_calls in E.
  exists [Did s ok]. split; [assumption|]. repeat constructor. apply HP.
Qed.

Lemma calls_only_qLog (P : Event -> Prop) (text : list QString) :
  calls_only P (qLog_Warning text).
Proof.
  intros w a w' [= <- <-]. exists []. cbn [calls]. rewrite app_nil_r. auto.
Qed.

Lemma calls_only_for_children (P : Event -> Prop) (children : list QString)
    (body : QString -> M bool) :
  (forall child, In child children -> calls_only P (body child)) ->
  calls_only P (for_children children body).
Proof.
  induction children as [|child rest IH]; intros Hbody; cbn [for_children].
  - apply calls_only_ret.
  - apply (@calls_only_bind _ _ P (fun _ => True)); auto.
    + apply Hbody. now left.
    + intros [|] _; [|apply calls_only_ret].
      apply IH. intros c Hc. apply Hbody. now right.
Qed.

Lemma filter_names (a : QString * Node -> bool) (g : QString -> bool)
    (es : Entries) :
  map fst (filter (fun e => a e && g (fst e)) es)
  = filter g (map fst (filter a es)).
Proof.
  induction es as [|e es IH]; [reflexivity|]. cbn [filter].
  destruct (a e); cbn [andb map filter]; [|assumption].
  destruct (g (fst e)); cbn [map]; now rewrite IH.
Qed.

Lemma entry_names_visible_dirs (root : Node) (cwd : list QString)
    (dir : QString) (p : list QString) (es : Entries) :
  resolve root cwd dir = Some p -> lookup root p = Some (Dir es) ->
  entry_names root cwd dir dirs_not_hidden
  = filter (fun n => negb (isHidden n)) (dirs_of es).
Proof.
  intros Hp H. unfold entry_names, dirs_of. rewrite Hp, H.
  change (dot_entries dirs_not_hidden) with (@nil QString). cbn [app].
  rewrite <- filter_names. f_equal. apply filter_ext.
  intros e. unfold listed. destruct (is_dir (snd e)); reflexivity.
Qed.

Lemma entry_names_visible_files (root : Node) (cwd : list QString)
    (dir : QString) (p : list QString) (es : Entries) :
  resolve root cwd dir = Some p -> lookup root p = Some (Dir es) ->
  entry_names root cwd dir files_not_hidden
  = filter (fun n => negb (isHidden n)) (files_of es).
Proof.
  intros Hp H. unfold entry_names, files_of. rewrite Hp, H.
  change (dot_entries files_not_hidden) with (@nil QString). cbn [app].
  rewrite <- filter_names. f_equal. apply filter_ext.
  intros [n [a d|sub]]; reflexivity.
Qed.

Lemma entry_names_not_hidden (root : Node) (cwd : list QString)
    (dir : QString) (filters : Z) :
  has_filter filters QDir_Hidden = false -> dot_entries filters = [] ->
  Forall (fun n => isHidden n = false)
    (entry_names root cwd dir filters).
Proof.
  intros Hh Hdot. unfold entry_names.
  destruct (resolve root cwd dir) as [p|]; [|constructor].
  destruct (lookup root p) as [[a d|es]|]; try constructor.
  rewrite Hdot. cbn [app]. apply Forall_forall.
  intros n (e & <- & [_ He]%filter_In)%in_map_iff.
  unfold listed in He. rewrite Hh in He. cbn [orb] in He.
  apply andb_prop in He as [_ He]. now apply negb_true_iff in He.
Qed.

Lemma visible_below_trans (source middle path : QString) :
  visible_below source middle -> visible_below middle path ->
  visible_below source path.
Proof.
  intros H1 H2. induction H2 as [|path child H2 IH Hc]; [assumption|].
  now apply visible_child.
Qed.

Lemma copies_visible_child (source child : QString) (e : Event) :
  isHidden child = false ->
  copies_visible (source ++ qs "/" ++ child) e -> copies_visible source e.
Proof.
  intros Hc.
  assert (Hv : visible_below source (source ++ qs "/" ++ child))
    by (apply visible_child; [constructor|assumption]).
  destruct e as [dir filters names|[f|f|d n|d|f n] ok]; cbn [copies_visible];
    auto.
  - intros [(path & -> & Hp) Hn]. split; [|assumption].
    exists path. split; [reflexivity|]. eapply visible_below_trans; eauto.
  - intros (path & c & -> & Hp & Hh). exists path, c.
    repeat split; auto. eapply visible_below_trans; eauto.
Qed.

Lemma CopyRecursive_visible (fuel : nat) (source destination : QString) :
  calls_only (copies_visible source) (CopyRecursive fuel source destination).
Proof.
  revert source destination; induction fuel as [|fuel IH];
    intros source destination; [intros w a w'; discriminate|].
  cbn [CopyRecursive].
  apply (@calls_only_bind _ _ _ (fun _ => True)); auto.
  { apply calls_only_perform. intros ok. exact I. }
  intros _ _.
  apply (@calls_only_bind _ _ _
           (fun names => Forall (fun n => isHidden n = false) names)).
  { intros w names w' [= <- <-]. cbn [calls].
    eexists. split; [reflexivity|]. repeat constructor.
    - exists source. split; [reflexivity|constructor].
    - now apply entry_names_not_hidden. }
  { intros w names w' [= <- _]. now apply entry_names_not_hidden. }
  intros dirs Hdirs. rewrite Forall_forall in Hdirs.
  apply (@calls_only_bind _ _ _ (fun _ => True)); auto.
  { apply calls_only_for_children. intros child Hin.
    apply (@calls_only_bind _ _ _ (fun _ => True)); auto.
    - eapply calls_only_weaken; [|apply IH].
      intros e. apply copies_visible_child. auto.
    - intros [|] _; [apply calls_only_ret|].
      apply (@calls_only_bind _ _ _ (fun _ => True)); auto.
      + apply calls_only_qLog.
      + intros _ _. apply calls_only_ret. }
  intros [|] _; [|apply calls_only_ret].
  apply (@calls_only_bind _ _ _
           (fun names => Forall (fun n => isHidden n = false) names)).
  { intros w names w' [= <- <-]. cbn [calls].
    eexists. split; [reflexivity|]. repeat constructor.
    - exists source. split; [reflexivity|constructor].
    - now apply entry_names_not_hidden. }
  { intros w names w' [= <- _]. now apply entry_names_not_hidden. }
  intros files Hfiles. rewrite Forall_forall in Hfiles.
  apply calls_only_for_children. intros child Hin.
  apply (@calls_only_bind _ _ _ (fun _ => True)); auto.
  - apply calls_only_perform. intros ok. cbn [copies_visible].
    exists source, child. repeat split; auto. constructor.
  - intros [|] _; [apply calls_only_ret|].
    apply (@calls_only_bind _ _ _ (fun _ => True)); auto.
    + apply calls_only_qLog.
    + intros _ _. apply calls_only_ret.
Qed.

(* ================================================================== *)
(** * A path that names nothing *)

Lemma entry_at_lookup (root : Node) (p : list QString) (n : Node) :
  entry_at root p = Some n -> lookup root p = Some n.
Proof.
  unfold entry_at, parent_and_name.
  destruct p as [|q p]; [discriminate|].
  destruct (lookup root (removelast (q :: p))) as [[a d|es]|] eqn:E;
    try discriminate.
  intros He.
  rewrite (app_removelast_last [] (l := q :: p)) by discriminate.
  now rewrite (@lookup_child _ _ _ _ E).
Qed.

Lemma entry_names_nothing (root : Node) (cwd : list QString) (dir : QString)
    (filters : Z) :
  path_exists root cwd dir = false -> entry_names root cwd dir filters = [].
Proof.
  unfold path_exists, entry_names.
  destruct (resolve root cwd dir) as [p|]; [|reflexivity].
  destruct (lookup root p); [discriminate|reflexivity].
Qed.

Lemma at_path_nothing (root : Node) (cwd : list QString) (path : QString)
    (change : Node -> list QString -> option Node) :
  (forall p, resolve root cwd path = Some p -> change root p = None) ->
  at_path root cwd path change = (root, false).
Proof.
  intros H. unfold at_path.
  destruct (resolve root cwd path) as [p|]; [|reflexivity].
  now rewrite H.
Qed.

Lemma rmdir_exists (root : Node) (p : list QString) (root' : Node) :
  rmdir root p = Some root' -> exists n, lookup root p = Some n.
Proof.
  unfold rmdir. destruct (entry_at root p) as [n|] eqn:E; [|discriminate].
  intros _. exists n. now apply entry_at_lookup.
Qed.

(** Below a path that names nothing, no path names anything. *)
Lemma resolve_below_nothing (root : Node) (cwd : list QString)
    (path more : QString) :
  path <> [] -> path_exists root cwd path = false ->
  resolve root cwd (path ++ qs "/" ++ more) = None.
Proof.
  intros Hne Hex. unfold resolve.
  rewrite isAbsolute_child by assumption.
  change (qs "/" ++ more) with (slash :: more).
  rewrite fields_app, fold_left_app.
  fold (resolve root cwd path).
  unfold path_exists in Hex.
  destruct (resolve root cwd path) as [p|]; [|apply walk_from_nowhere].
  pose proof (fields_nonempty more) as Hf.
  destruct (fields more) as [|f rest]; [contradiction|].
  cbn [fold_left]. unfold walk at 2.
  destruct (lookup root p); [discriminate|]. apply walk_from_nowhere.
Qed.

Lemma rmdir_step_nothing (root : Node) (cwd : list QString) (path : QString) :
  path_exists root cwd (QDir path) = false ->
  apply_step cwd (QDir_rmdir_step (QDir path) path) root = (root, false).
Proof.
  intros Hex. destruct path as [|c rest]; [reflexivity|].
  cbn [apply_step].
  remember (c :: rest) as path eqn:E.
  assert (Hne : path <> []) by (subst; discriminate). clear E c rest.
  rewrite QDir_nonempty in * by assumption.
  apply at_path_nothing. intros p Hp.
  destruct (rmdir root p) as [root'|] eqn:Hr; [|reflexivity].
  exfalso. apply rmdir_exists in Hr as [n Hn].
  unfold QDir_filePath in Hp. destruct (isAbsolute path) eqn:Habs.
  - unfold path_exists in Hex. rewrite Hp, Hn in Hex. discriminate.
  - rewrite resolve_below_nothing in Hp by assumption. discriminate.
Qed.

Lemma remove_tree_nothing (leaf : QString -> Step) (fuel : nat)
    (path : QString) (w : World) :
  path_exists (fs_root w) (fs_cwd w) (QDir path) = false ->
  exists w',
    remove_tree leaf (S fuel) path w = Some (false, w') /\
    after w w' (fs_root w)
      [Listed (QDir path) dirs_and_hidden [];
       Listed (QDir path) files_and_hidden [];
       Did (QDir_rmdir_step (QDir path) path) false].
Proof.
  intros Hex. cbn [remove_tree]. unfold bind, QDir_entryList.
  rewrite !entry_names_nothing by assumption. cbn [for_children ret].
  cbn [fs_root fs_cwd].
  rewrite entry_names_nothing by assumption. cbn [for_children ret].
  unfold QDir_rmdir, perform. cbn [fs_root fs_cwd calls fs_trash warnings].
  rewrite rmdir_step_nothing by assumption.
  eexists. split; [reflexivity|].
  repeat split. cbn [calls]. now rewrite <- !app_assoc.
Qed.

Lemma entry_remove_entry (name : QString) (es : Entries) :
  distinct (map fst es) = true -> entry name (remove_entry name es) = None.
Proof.
  induction es as [|[n c] es IH]; [reflexivity|].
  cbn [map fst distinct remove_entry]. intros [H1 H2]%andb_prop.
  destruct (QString_eqb_spec n name) as [->|Hne].
  - apply negb_true_iff in H1. clear IH H2.
    induction es as [|[m c'] es IH]; [reflexivity|].
    cbn [map fst existsb entry] in *.
    apply orb_false_elim in H1 as [H1 H3].
    destruct (QString_eqb_spec m name) as [->|];
      [now rewrite QString_eqb_refl in H1|auto].
  - cbn [entry]. rewrite QString_eqb_neq by assumption. auto.
Qed.

(* ================================================================== *)
(** * The directory operations: what the description says *)

Lemma RemoveRecursive_removes (fuel : nat) (path : QString) (w : World)
    (parent : list QString) (name : QString) (siblings es : Entries) :
  plain_path path (parent ++ [name]) ->
  lookup (fs_root w) parent = Some (Dir siblings) ->
  entry name siblings = Some (Dir es) ->
  well_formed (Dir es) = true -> all_accessible (Dir es) = true ->
  depth (Dir es) <= fuel ->
  exists w',
    RemoveRecursive fuel path w = Some (true, w') /\
    after w w' (without (fs_root w) (parent ++ [name]))
      (removal_calls QFile_remove_step path (Dir es)).
Proof.
  intros. rewrite RemoveRecursive_remove_tree, without_child.
  eapply (@remove_tree_removes QFile_remove_step); eauto.
Qed.

Lemma MoveToTrashRecursive_removes (QT_VERSION : Z) (fuel : nat)
    (path : QString) (w : World) (parent : list QString) (name : QString)
    (siblings es : Entries) :
  (QT_VERSION >= QT_VERSION_CHECK 5 15 0)%Z ->
  plain_path path (parent ++ [name]) ->
  lookup (fs_root w) parent = Some (Dir siblings) ->
  entry name siblings = Some (Dir es) ->
  well_formed (Dir es) = true -> all_accessible (Dir es) = true ->
  depth (Dir es) <= fuel ->
  exists w',
    MoveToTrashRecursive QT_VERSION fuel path w = Some (true, w') /\
    after w w' (without (fs_root w) (parent ++ [name]))
      (removal_calls QFile_moveToTrash_step path (Dir es)).
Proof.
  intros. rewrite MoveToTrashRecursive_remove_tree, without_child by assumption.
  eapply (@remove_tree_removes QFile_moveToTrash_step); eauto.
Qed.


Lemma removal_calls_last (leaf : QString -> Step) (path : QString)
    (es : Entries) :
  exists evs,
    removal_calls leaf path (Dir es)
    = evs ++ [Did (QDir_rmdir_step (QDir path) path) true].
Proof.
  cbn [removal_calls]. eexists.
  rewrite app_comm_cons, (app_comm_cons _ _ (Listed _ files_and_hidden _)).
  rewrite !app_assoc. reflexivity.
Qed.

Lemma removal_calls_children (leaf : QString -> Step) (path : QString)
    (es : Entries) (child : QString) (n : Node) :
  In (child, n) es ->
  In (Did (if is_dir n
           then QDir_rmdir_step (path ++ qs "/" ++ child)
                  (path ++ qs "/" ++ child)
           else leaf (path ++ qs "/" ++ child)) true)
     (removal_calls leaf path (Dir es)).
Proof.
  intros Hin. cbn [removal_calls]. right. apply in_or_app.
  destruct n as [a d|sub]; cbn [is_dir].
  - right. right. apply in_or_app. left.
    apply in_map_iff. exists child. split; [reflexivity|].
    unfold files_of. apply in_map_iff. exists (child, File a d).
    split; [reflexivity|]. apply filter_In. auto.
  - left. apply in_flat_map. exists (child, Dir sub). split; [assumption|].
    cbn [snd fst is_dir].
    destruct (removal_calls_last leaf (path ++ qs "/" ++ child) sub)
      as [evs ->].
    apply in_or_app. right. left.
    now rewrite QDir_nonempty by apply child_path_nonempty.
Qed.

(** C6.  [RemoveRecursive] and [MoveToTrashRecursive] list the directories
    and the files of a directory with the hidden ones, and on a tree they can
    remove they deal with every entry of the directory, hidden or not: a file
    is removed (moved to the trash), a directory is removed in the same way.
    [CopyRecursive] lists without the hidden entries: whatever the file
    system, it never lists a directory and never copies a file that is
    reached from [source] through a hidden name, and no hidden name is listed
    to it.  For the listings themselves: with the filters of the first two
    functions [entryList] returns every directory (every file) of a
    directory, with the filters of [CopyRecursive] those that are not
    hidden. *)
Theorem hidden_entries_policy (QT_VERSION : Z) (fuel : nat)
    (path source destination : QString) (w : World) (parent : list QString)
    (name : QString) (siblings es : Entries) :
  plain_path path (parent ++ [name]) ->
  lookup (fs_root w) parent = Some (Dir siblings) ->
  entry name siblings = Some (Dir es) ->
  well_formed (Dir es) = true -> all_accessible (Dir es) = true ->
  depth (Dir es) <= fuel ->
  (exists w' evs,
      RemoveRecursive fuel path w = Some (true, w') /\
      calls w' = calls w ++ evs /\
      In (Listed path dirs_and_hidden (dirs_of es)) evs /\
      In (Listed path files_and_hidden (files_of es)) evs /\
      forall child n,
        In (child, n) es ->
        In child (dirs_of es ++ files_of es) /\
        In (Did (if is_dir n
                 then QDir_rmdir_step (path ++ qs "/" ++ child)
                        (path ++ qs "/" ++ child)
                 else QFile_remove_step (path ++ qs "/" ++ child)) true)
           evs) /\
  ((QT_VERSION >= QT_VERSION_CHECK 5 15 0)%Z ->
   exists w' evs,
     MoveToTrashRecursive QT_VERSION fuel path w = Some (true, w') /\
     calls w' = calls w ++ evs /\
     In (Listed path dirs_and_hidden (dirs_of es)) evs /\
     In (Listed path files_and_hidden (files_of es)) evs /\
     forall child n,
       In (child, n) es ->
       In child (dirs_of es ++ files_of es) /\
       In (Did (if is_dir n
                then QDir_rmdir_step (path ++ qs "/" ++ child)
                       (path ++ qs "/" ++ child)
                else QFile_moveToTrash_step (path ++ qs "/" ++ child)) true)
          evs) /\
  (forall ok w',
      CopyRecursive fuel source destination w = Some (ok, w') ->
      exists evs,
        calls w' = calls w ++ evs /\ Forall (copies_visible source) evs) /\
  (forall root cwd dir p entries,
      resolve root cwd dir = Some p -> lookup root p = Some (Dir entries) ->
      entry_names root cwd dir
        (Z.lor (Z.lor QDir_NoDotAndDotDot QDir_Dirs) QDir_Hidden)
      = dirs_of entries /\
      entry_names root cwd dir
        (Z.lor (Z.lor QDir_NoDotAndDotDot QDir_Files) QDir_Hidden)
      = files_of entries /\
      entry_names root cwd dir (Z.lor QDir_NoDotAndDotDot QDir_Dirs)
      = filter (fun n => negb (isHidden n)) (dirs_of entries) /\
      entry_names root cwd dir (Z.lor QDir_NoDotAndDotDot QDir_Files)
      = filter (fun n => negb (isHidden n)) (files_of entries)).
Proof.
  intros Hpath Hpar Hent Hwf Hacc Hdep.
  assert (Hne : path <> [])
    by (apply (plain_path_nonempty Hpath); now destruct parent).
  assert (Hall : forall leaf,
             In (Listed path dirs_and_hidden (dirs_of es))
                (removal_calls leaf path (Dir es)) /\
             In (Listed path files_and_hidden (files_of es))
                (removal_calls leaf path (Dir es)) /\
             forall child n,
               In (child, n) es ->
               In child (dirs_of es ++ files_of es) /\
               In (Did (if is_dir n
                        then QDir_rmdir_step (path ++ qs "/" ++ child)
                               (path ++ qs "/" ++ child)
                        else leaf (path ++ qs "/" ++ child)) true)
                  (removal_calls leaf path (Dir es))).
  { intros leaf. split; [|split].
    - cbn [removal_calls]. rewrite QDir_nonempty by assumption. now left.
    - cbn [removal_calls]. rewrite QDir_nonempty by assumption.
      right. apply in_or_app. right. now left.
    - intros child n Hin. split; [|now apply removal_calls_children].
      apply in_or_app. unfold dirs_of, files_of.
      destruct n as [a d|sub]; [right|left];
        apply in_map_iff; eexists; (split; [|apply filter_In; split; eauto]);
        reflexivity. }
  split; [|split].
  - destruct (@RemoveRecursive_removes fuel path w parent name siblings es
                Hpath Hpar Hent Hwf Hacc Hdep) as (w' & E & _ & _ & L & _).
    exists w', (removal_calls QFile_remove_step path (Dir es)).
    destruct (Hall QFile_remove_step) as (H1 & H2 & H3). auto.
  - intros Hv.
    destruct (@MoveToTrashRecursive_removes QT_VERSION fuel path w parent
                name siblings es Hv Hpath Hpar Hent Hwf Hacc Hdep)
      as (w' & E & _ & _ & L & _).
    exists w', (removal_calls QFile_moveToTrash_step path (Dir es)).
    destruct (Hall QFile_moveToTrash_step) as (H1 & H2 & H3). auto.
  - split; [intros ok w'; apply CopyRecursive_visible|].
    intros root cwd dir p entries Hp Hl. repeat split.
    + exact (@entry_names_dirs _ _ _ _ _ Hp Hl).
    + exact (@entry_names_files _ _ _ _ _ Hp Hl).
    + exact (@entry_names_visible_dirs _ _ _ _ _ Hp Hl).
    + exact (@entry_names_visible_files _ _ _ _ _ Hp Hl).
Qed.

Lemma example_album_path : plain_path (qs "/music/album") [qs "music"; qs "album"].
Proof. split; [reflexivity|repeat constructor]. Qed.

(** C6, at the album of the example: its hidden file [.cover.jpg] is removed
    and its hidden directory [.thumbs] is. *)
Lemma hidden_entries_policy_witness :
  exists w' evs,
    RemoveRecursive 3 (qs "/music/album") example_world = Some (true, w') /\
    calls w' = evs /\
    In (Did (QFile_remove_step (qs "/music/album/.cover.jpg")) true) evs /\
    In (Did (QDir_rmdir_step (qs "/music/album/.thumbs")
               (qs "/music/album/.thumbs")) true) evs.
Proof.
  destruct (proj1 (@hidden_entries_policy 0 3 (qs "/music/album")
                     (qs "/music/album") (qs "/backup") example_world
                     [qs "music"] (qs "album") example_music example_album
                     example_album_path eq_refl eq_refl eq_refl eq_refl
                     (le_S _ _ (le_n 2))))
    as (w' & evs & E & L & _ & _ & H).
  exists w', evs. repeat split; auto.
  - exact (proj2 (H (qs ".cover.jpg") (File true (qs "JFIF"))
                    (or_intror (or_introl eq_refl)))).
  - exact (proj2 (H (qs ".thumbs") (Dir [(qs "a.png", File true (qs "PNG"))])
                    (or_intror (or_intror (or_introl eq_refl))))).
Defined.

(** C6, the copy of the album of the example into [/backup]: the hidden file
    and the hidden directory are not in the copy. *)
Example copy_leaves_hidden_entries :
  option_map (fun r => (fst r, lookup (fs_root (snd r)) [qs "backup"]))
    (CopyRecursive 3 (qs "/music/album") (qs "/backup") example_world)
  = Some (true,
          Some (Dir [ (qs "album",
                       Dir [ (qs "extras",
                              Dir [ (qs "notes.txt", File true (qs "notes")) ]);
                             (qs "01.flac", File true (qs "fLaC")) ]) ])).
Proof. vm_compute. reflexivity. Qed.




(** C9.  Compiled with a Qt older than 5.15, [MoveToTrashRecursive] returns
    [false] for every path, makes no call and leaves the file system and
    the trash as they are. *)
Theorem trash_unavailable (QT_VERSION : Z) (fuel : nat) (path : QString)
    (w : World) :
  (QT_VERSION < QT_VERSION_CHECK 5 15 0)%Z ->
  MoveToTrashRecursive QT_VERSION fuel path w = Some (false, w).
Proof.
  intros Hv. apply Z.leb_gt in Hv. rewrite <- Z.geb_leb in Hv.
  destruct fuel; cbn [MoveToTrashRecursive]; now rewrite Hv.
Qed.

(** C9, at Qt 5.14.2 and the album of the example. *)
Lemma trash_unavailable_witness :
  MoveToTrashRecursive (QT_VERSION_CHECK 5 14 2) 3 (qs "/music/album")
    example_world = Some (false, example_world).
Proof.
  exact (@trash_unavailable (QT_VERSION_CHECK 5 14 2) 3 (qs "/music/album")
           example_world eq_refl).
Defined.

(** C9 does not hold for a platform without a trash.  Whether files can be
    moved to the trash is tested when the file is compiled and by the version
    of Qt only; compiled with Qt 5.15 the function walks the directory on
    every platform.  In a directory [/a] that holds nothing but an empty
    directory [b] it makes no call of [QFile::moveToTrash], the only call
    that needs a trash: it removes the two directories with [rmdir] and
    returns [true].  Nothing has gone to the trash, and [/a] is gone. *)
Lemma trash_compiled_in_removes_directories :
  option_map
    (fun r => (fst r, calls (snd r), fs_trash (snd r), fs_root (snd r)))
    (MoveToTrashRecursive (QT_VERSION_CHECK 5 15 0) 2 (qs "/a")
       {| fs_root := Dir [(qs "a", Dir [(qs "b", Dir [])])];
          fs_cwd := []; fs_trash := []; calls := []; warnings := [] |})
  = Some (true,
          [ Listed (qs "/a") dirs_and_hidden [qs "b"];
            Listed (qs "/a/b") dirs_and_hidden [];
            Listed (qs "/a/b") files_and_hidden [];
            Did (QDir_rmdir_step (qs "/a/b") (qs "/a/b")) true;
            Listed (qs "/a") files_and_hidden [];
            Did (QDir_rmdir_step (qs "/a") (qs "/a")) true ],
          [], Dir []).
Proof. vm_compute. reflexivity. Qed.

(** C10.  On a path that names nothing [RemoveRecursive] returns [false]:
    the two listings are empty, [rmdir] fails, and the file system stays as
    it is.  So it does on the path of a directory that a call before has
    removed. *)
Theorem removal_of_nothing (fuel : nat) (path : QString) (w : World) :
  (path_exists (fs_root w) (fs_cwd w) (QDir path) = false ->
   exists w',
     RemoveRecursive (S fuel) path w = Some (false, w') /\
     after w w' (fs_root w)
       [Listed (QDir path) dirs_and_hidden [];
        Listed (QDir path) files_and_hidden [];
        Did (QDir_rmdir_step (QDir path) path) false]) /\
  (forall parent name siblings es,
      plain_path path (parent ++ [name]) ->
      lookup (fs_root w) parent = Some (Dir siblings) ->
      distinct (map fst siblings) = true ->
      entry name siblings = Some (Dir es) ->
      well_formed (Dir es) = true -> all_accessible (Dir es) = true ->
      depth (Dir es) <= fuel ->
      exists w1 w2,
        RemoveRecursive fuel path w = Some (true, w1) /\
        path_exists (fs_root w1) (fs_cwd w1) path = false /\
        RemoveRecursive (S fuel) path w1 = Some (false, w2) /\
        fs_root w2 = fs_root w1).
Proof.
  split.
  - intros Hex. rewrite RemoveRecursive_remove_tree.
    now apply remove_tree_nothing.
  - intros parent name siblings es Hpath Hpar Hdist Hent Hwf Hacc Hdep.
    destruct (@RemoveRecursive_removes fuel path w parent name siblings es
                Hpath Hpar Hent Hwf Hacc Hdep) as (w1 & E1 & R1 & C1 & _).
    assert (Hgone : path_exists (fs_root w1) (fs_cwd w1) path = false).
    { rewrite R1, without_child. unfold path_exists.
      rewrite (@resolve_plain_path _ _ _ parent name
                 (remove_entry name siblings))
        by (auto using lookup_update).
      rewrite (@lookup_child _ _ name (remove_entry name siblings))
        by (auto using lookup_update).
      now rewrite entry_remove_entry. }
    assert (Hne : path <> [])
      by (apply (plain_path_nonempty Hpath); now destruct parent).
    destruct (@remove_tree_nothing QFile_remove_step fuel path w1)
      as (w2 & E2 & R2 & _); [now rewrite QDir_nonempty|].
    exists w1, w2. rewrite (RemoveRecursive_remove_tree (S fuel)). auto.
Qed.

(** C10, at [/music/gone], which the example does not have. *)
Lemma removal_of_nothing_witness :
  exists w',
    RemoveRecursive 1 (qs "/music/gone") example_world = Some (false, w') /\
    fs_root w' = example_root.
Proof.
  destruct (proj1 (removal_of_nothing 0 (qs "/music/gone") example_world)
              eq_refl) as (w' & E & R & _).
  exists w'. split; assumption.
Defined.

(** C10, the album of the example removed twice. *)
Example second_removal_fails :
  match RemoveRecursive 3 (qs "/music/album") example_world with
  | Some (ok1, w1) =>
      Some (ok1, option_map fst (RemoveRecursive 3 (qs "/music/album") w1))
  | None => None
  end = Some (true, Some false).
Proof. vm_compute. reflexivity. Qed.

(** A relative path.  [QDir::rmdir] takes a relative name from the
    directory it is called on, so that [QDir("empty").rmdir("empty")] names
    [empty/empty]: on the relative path of an empty directory
    [RemoveRecursive] returns [false] and the directory stays, where it
    removes the directory on its absolute path. *)
Example relative_path_rmdir :
  option_map (fun r => (fst r, lookup (fs_root (snd r)) [qs "music"; qs "empty"]))
    (RemoveRecursive 1 (qs "empty") example_world)
  = Some (false, Some (Dir [])) /\
  option_map (fun r => (fst r, lookup (fs_root (snd r)) [qs "music"; qs "empty"]))
    (RemoveRecursive 1 (qs "/music/empty") example_world)
  = Some (true, None).
Proof. split; vm_compute; reflexivity. Qed.

(* ================================================================== *)
(** * Properties of [split] and [section] *)

Lemma split_by_nonempty (sep : QChar) (s : QString) : split_by sep s <> [].
Proof.
  induction s as [|c s IH]; simpl; [discriminate|].
  destruct (Ascii.eqb c sep); [discriminate|].
  destruct (split_by sep s); [contradiction|discriminate].
Qed.

Lemma split_by_nosep (sep : QChar) (s : QString) :
  Forall (fun c => c <> sep) s -> split_by sep s = [s].
Proof.
  induction 1 as [|c s Hc _ IH]; simpl; [reflexivity|].
  destruct (Ascii.eqb_spec c sep); [contradiction|]. now rewrite IH.
Qed.

Lemma split_by_app (sep : QChar) (a b : QString) :
  split_by sep (a ++ sep :: b) =
  removelast (split_by sep a) ++ [last (split_by sep a) []] ++ split_by sep b.
Proof.
  induction a as [|c a IH]; simpl.
  - now rewrite Ascii.eqb_refl.
  - destruct (Ascii.eqb_spec c sep) as [->|Hc].
    + rewrite IH. pose proof (split_by_nonempty sep a) as Hne.
      destruct (split_by sep a) as [|f r]; [contradiction|]. reflexivity.
    + rewrite IH. pose proof (split_by_nonempty sep a) as Hne.
      destruct (split_by sep a) as [|f r]; [contradiction|].
      destruct r; reflexivity.
Qed.

Lemma split_by_snoc (sep : QChar) (a b : QString) :
  Forall (fun c => c <> sep) b ->
  split_by sep (a ++ sep :: b) = split_by sep a ++ [b].
Proof.
  intros Hb. rewrite split_by_app, (split_by_nosep Hb).
  pose proof (split_by_nonempty sep a) as Hne.
  rewrite app_assoc, <- app_removelast_last by assumption. reflexivity.
Qed.

Lemma join_by_snoc (sep : QChar) (l : list QString) (b : QString) :
  l <> [] -> join_by sep (l ++ [b]) = join_by sep l ++ sep :: b.
Proof.
  destruct l as [|f r]; [congruence|]; intros _. simpl.
  rewrite flat_map_app. simpl. now rewrite app_nil_r, app_assoc.
Qed.

(** Joining the fields gives the string back. *)
Lemma join_by_split_by (sep : QChar) (s : QString) :
  join_by sep (split_by sep s) = s.
Proof.
  induction s as [|c s IH]; simpl; [reflexivity|].
  pose proof (split_by_nonempty sep s) as Hne.
  destruct (Ascii.eqb_spec c sep) as [->|Hc].
  - destruct (split_by sep s) as [|f r]; [contradiction|].
    simpl in *. now rewrite IH.
  - destruct (split_by sep s) as [|f r]; [contradiction|].
    simpl in *. now rewrite IH.
Qed.

(** A string has no separator, or a last one. *)
Lemma last_separator (sep : QChar) (s : QString) :
  Forall (fun c => c <> sep) s \/
  exists a b, s = a ++ sep :: b /\ Forall (fun c => c <> sep) b.
Proof.
  induction s as [|c s [IH|(a & b & -> & Hb)]].
  - left; constructor.
  - destruct (Ascii.eqb_spec c sep) as [->|Hc].
    + right. exists [], s. auto.
    + left. constructor; auto.
  - right. exists (c :: a), b. auto.
Qed.

Lemma section_in_range (start end_ size : Z) :
  (start < size)%Z -> (0 <= end_)%Z -> (start <= end_)%Z ->
  (start >=? size)%Z || (end_ <? 0)%Z || (start >? end_)%Z = false.
Proof.
  intros H1 H2 H3. rewrite Z.geb_leb, Z.gtb_ltb.
  rewrite (proj2 (Z.leb_gt size start)), (proj2 (Z.ltb_ge end_ 0)),
    (proj2 (Z.ltb_ge end_ start)) by lia.
  reflexivity.
Qed.

(** [section(sep, -1, -1)] is the last field. *)
Lemma QString_section_last (sep : QChar) (s : QString) :
  QString_section s sep (-1) (-1) = last (split_by sep s) [].
Proof.
  unfold QString_section. cbv zeta.
  pose proof (split_by_nonempty sep s) as Hne.
  destruct (exists_last Hne) as (f & x & ->).
  rewrite length_app, last_last. cbn [length].
  change (-1 <? 0)%Z with true. cbv iota.
  replace (-1 + Z.of_nat (length f + 1))%Z with (Z.of_nat (length f)) by lia.
  rewrite section_in_range by lia. rewrite Nat2Z.id.
  replace (length f + 1 - length f) with 1 by lia.
  rewrite skipn_app, skipn_all, Nat.sub_diag. simpl. apply app_nil_r.
Qed.

Lemma QString_section_slash (s : QString) :
  QString_section s "/"%char (-1) (-1) = section_last s.
Proof.
  rewrite QString_section_last. unfold section_last. f_equal.
  induction s as [|c s IH]; simpl; [reflexivity|].
  unfold slash. destruct (Ascii.eqb c "/"); now rewrite IH.
Qed.

(** [section(sep, 0, -2)] is what stands in front of the last separator. *)
Lemma QString_section_but_last (sep : QChar) (a b : QString) :
  Forall (fun c => c <> sep) b ->
  QString_section (a ++ sep :: b) sep 0 (-2) = a.
Proof.
  intros Hb. unfold QString_section. cbv zeta.
  rewrite (split_by_snoc _ Hb), length_app. cbn [length].
  pose proof (split_by_nonempty sep a) as Hne.
  assert (0 < length (split_by sep a)) as Hlen
    by (destruct (split_by sep a); [contradiction|simpl; lia]).
  change (0 <? 0)%Z with false. change (-2 <? 0)%Z with true. cbv iota.
  set (n := length (split_by sep a)) in *.
  rewrite section_in_range by lia.
  change (Z.to_nat 0) with 0. rewrite skipn_O.
  replace (Z.to_nat (-2 + Z.of_nat (n + 1)) + 1 - 0) with n by lia.
  subst n. rewrite firstn_app, firstn_all, Nat.sub_diag. simpl.
  rewrite app_nil_r. apply join_by_split_by.
Qed.

Lemma contains_false (s : QString) (c : QChar) :
  contains s c = false <-> Forall (fun d => d <> c) s.
Proof.
  unfold contains. induction s as [|d s IH]; simpl.
  - split; auto.
  - destruct (Ascii.eqb_spec c d) as [->|Hcd]; simpl.
    + split; [discriminate|]. intros H. apply Forall_inv in H. congruence.
    + rewrite IH. split.
      * intros H. constructor; auto.
      * intros H. now apply Forall_inv_tail in H.
Qed.

Lemma contains_true (s : QString) (c : QChar) :
  contains s c = true <-> In c s.
Proof.
  unfold contains. rewrite existsb_exists. split.
  - intros (d & Hd & ->%Ascii.eqb_eq). assumption.
  - intros H. exists c. split; [assumption|apply Ascii.eqb_refl].
Qed.

(* ================================================================== *)
(** * Properties of [PathWithoutFilenameExtension] *)

Lemma last_field_app (sep : QChar) (a b : QString) :
  Forall (fun c => c <> sep) b ->
  last (split_by sep (a ++ sep :: b)) [] = b.
Proof. intros Hb. rewrite (split_by_snoc _ Hb). apply last_last. Qed.

Lemma Forall_weaken {A : Type} (P Q : A -> Prop) (l : list A) :
  (forall a, P a -> Q a) -> Forall P l -> Forall Q l.
Proof. intros H HP. induction HP; constructor; auto. Qed.

(** The name behind the last slash holds a dot when no slash stands behind
    the last dot. *)
Lemma file_name_has_dot (stem ext : QString) :
  Forall (fun c => c <> "."%char /\ c <> "/"%char) ext ->
  contains (QString_section (stem ++ "."%char :: ext) "/"%char (-1) (-1)) "."%char = true.
Proof.
  intros Hext. rewrite QString_section_last. apply contains_true.
  assert (Forall (fun c => c <> "/"%char) ext) as Hs
    by (revert Hext; apply Forall_weaken; tauto).
  destruct (last_separator "/"%char stem) as [Hstem|(a & b & -> & Hb)].
  - rewrite split_by_nosep; [simpl; apply in_elt|].
    apply Forall_app; split; [assumption|].
    constructor; [discriminate|assumption].
  - rewrite <- app_assoc. cbn [app]. rewrite last_field_app; [apply in_elt|].
    apply Forall_app; split; [assumption|].
    constructor; [discriminate|assumption].
Qed.

Lemma PathWithoutFilenameExtension_stem (stem ext : QString) :
  Forall (fun c => c <> "."%char /\ c <> "/"%char) ext ->
  PathWithoutFilenameExtension (stem ++ "."%char :: ext) = stem.
Proof.
  intros Hext. unfold PathWithoutFilenameExtension.
  rewrite file_name_has_dot by assumption.
  apply QString_section_but_last.
  revert Hext; apply Forall_weaken; tauto.
Qed.

(** X1: the text behind the last dot of a file name is cut off with that
    dot, whatever stands in front of it: nothing or a slash as well, so that
    a file whose name starts with its only dot loses its whole name. *)
Theorem PathWithoutFilenameExtension_cuts_extension
    (stem ext : QString) :
  Forall (fun c => c <> "."%char /\ c <> "/"%char) ext ->
  PathWithoutFilenameExtension (stem ++ qs "." ++ ext) = stem /\
  PathWithoutFilenameExtension (qs "." ++ ext) = [] /\
  PathWithoutFilenameExtension (stem ++ qs "/." ++ ext) = stem ++ qs "/".
Proof.
  intros Hext. repeat split.
  - now apply PathWithoutFilenameExtension_stem.
  - now apply (@PathWithoutFilenameExtension_stem [] ext).
  - pose proof (@PathWithoutFilenameExtension_stem (stem ++ qs "/") ext Hext) as H.
    now rewrite <- app_assoc in H.
Qed.

Lemma PathWithoutFilenameExtension_cuts_extension_witness :
  Forall (fun c => c <> "."%char /\ c <> "/"%char) (qs "gz") /\
  PathWithoutFilenameExtension (qs "/music/a.b/song.tar" ++ qs "." ++ qs "gz")
  = qs "/music/a.b/song.tar" /\
  PathWithoutFilenameExtension (qs "." ++ qs "gz") = [] /\
  PathWithoutFilenameExtension (qs "/music/a.b/song.tar" ++ qs "/." ++ qs "gz")
  = qs "/music/a.b/song.tar" ++ qs "/".
Proof.
  assert (Forall (fun c => c <> "."%char /\ c <> "/"%char) (qs "gz")) as H
    by (repeat constructor; discriminate).
  split; [exact H|].
  exact (@PathWithoutFilenameExtension_cuts_extension
           (qs "/music/a.b/song.tar") (qs "gz") H).
Defined.

(** X2: a file name with no dot behind its last slash is returned as it is,
    dots in the names of the directories in front notwithstanding. *)
Theorem PathWithoutFilenameExtension_no_extension (dir name : QString) :
  Forall (fun c => c <> "."%char /\ c <> "/"%char) name ->
  PathWithoutFilenameExtension name = name /\
  PathWithoutFilenameExtension (dir ++ qs "/" ++ name) = dir ++ qs "/" ++ name.
Proof.
  intros Hname.
  assert (Forall (fun c => c <> "/"%char) name) as Hs
    by (revert Hname; apply Forall_weaken; tauto).
  assert (contains name "."%char = false) as Hd.
  { apply contains_false. revert Hname; apply Forall_weaken; tauto. }
  unfold PathWithoutFilenameExtension. split.
  - rewrite QString_section_last, split_by_nosep by assumption.
    cbn [last]. now rewrite Hd.
  - rewrite QString_section_last. cbn [qs list_ascii_of_string app].
    rewrite last_field_app by assumption. now rewrite Hd.
Qed.

Lemma PathWithoutFilenameExtension_no_extension_witness :
  Forall (fun c => c <> "."%char /\ c <> "/"%char) (qs "README") /\
  PathWithoutFilenameExtension (qs "README") = qs "README" /\
  PathWithoutFilenameExtension (qs "/home/j.doe" ++ qs "/" ++ qs "README")
  = qs "/home/j.doe" ++ qs "/" ++ qs "README".
Proof.
  assert (Forall (fun c => c <> "."%char /\ c <> "/"%char) (qs "README")) as H
    by (repeat constructor; discriminate).
  split; [exact H|].
  exact (@PathWithoutFilenameExtension_no_extension (qs "/home/j.doe")
           (qs "README") H).
Defined.

(** X3: with a new extension that has neither dot nor slash,
    [FiddleFileExtension] changes the extension only: what
    [PathWithoutFilenameExtension] makes of its result is what it makes of
    the file name, and a second change of the extension undoes the first. *)
Theorem FiddleFileExtension_changes_extension
    (filename new_extension other : QString) :
  Forall (fun c => c <> "."%char /\ c <> "/"%char) new_extension ->
  PathWithoutFilenameExtension (FiddleFileExtension filename new_extension)
  = PathWithoutFilenameExtension filename /\
  FiddleFileExtension (FiddleFileExtension filename new_extension) other
  = FiddleFileExtension filename other.
Proof.
  intros Hext.
  assert (PathWithoutFilenameExtension
            (FiddleFileExtension filename new_extension)
          = PathWithoutFilenameExtension filename) as H
    by (unfold FiddleFileExtension; now apply PathWithoutFilenameExtension_stem).
  split; [exact H|].
  unfold FiddleFileExtension at 1. rewrite H. reflexivity.
Qed.

Lemma FiddleFileExtension_changes_extension_witness :
  Forall (fun c => c <> "."%char /\ c <> "/"%char) (qs "mp3") /\
  PathWithoutFilenameExtension
    (FiddleFileExtension (qs "/music/song.flac") (qs "mp3"))
  = PathWithoutFilenameExtension (qs "/music/song.flac") /\
  FiddleFileExtension (FiddleFileExtension (qs "/music/song.flac") (qs "mp3"))
    (qs "ogg")
  = FiddleFileExtension (qs "/music/song.flac") (qs "ogg").
Proof.
  assert (Forall (fun c => c <> "."%char /\ c <> "/"%char) (qs "mp3")) as H
    by (repeat constructor; discriminate).
  split; [exact H|].
  exact (@FiddleFileExtension_changes_extension (qs "/music/song.flac")
           (qs "mp3") (qs "ogg") H).
Defined.

(* ================================================================== *)
(** * Properties of [Prepend] and [Updateify] *)

Lemma set_at_app {A : Type} (done todo : list A) (y x : A) :
  set_at (done ++ y :: todo) (length done) x = done ++ x :: todo.
Proof. induction done as [|d done IH]; simpl; [reflexivity|now rewrite IH]. Qed.

Lemma nth_app_here {A : Type} (done todo : list A) (y d : A) :
  nth (length done) (done ++ y :: todo) d = y.
Proof. induction done as [|z done IH]; simpl; auto. Qed.

(** A loop that writes [g (ret[i])] to [ret[i]] for every index is [map g]. *)
Lemma for_index_map {A : Type} (g : A -> A) (d : A) (l : list A) :
  for_index (length l) (fun i ret => set_at ret i (g (nth i ret d))) l
  = map g l.
Proof.
  unfold for_index.
  enough (forall todo done,
             fold_left (fun s i => set_at s i (g (nth i s d)))
               (seq (length done) (length todo)) (done ++ todo)
             = done ++ map g todo) as H by exact (H l []).
  induction todo as [|y todo IH]; intros done; simpl; [reflexivity|].
  rewrite nth_app_here, set_at_app.
  change (done ++ g y :: todo) with (done ++ [g y] ++ todo).
  rewrite app_assoc.
  replace (S (length done)) with (length (done ++ [g y]))
    by (rewrite length_app; simpl; lia).
  rewrite IH. now rewrite <- app_assoc.
Qed.

(** X4: [Prepend] puts the text in front of every string of the list, and of
    nothing else: the strings keep their number and their order, and
    prepending one text after another is prepending the two at once. *)
Theorem Prepend_every_string (text text' : QString) (list : QStringList) :
  Prepend text list = map (fun s => text ++ s) list /\
  Prepend text' (Prepend text list) = Prepend (text' ++ text) list.
Proof.
  assert (forall t l, Prepend t l = map (fun s => t ++ s) l) as H
    by (intros t l; apply (for_index_map (fun s => t ++ s))).
  split; [apply H|].
  rewrite !H, map_map. apply map_ext. intros s. now rewrite app_assoc.
Qed.

(** X5: [Updateify] makes of every column name [c] the assignment
    [c = :c] of an SQL update, in the order of the list. *)
Theorem Updateify_every_string (list : QStringList) :
  Updateify list = map (fun c => c ++ qs " = :" ++ c) list.
Proof.
  unfold Updateify.
  rewrite (for_index_map (fun c => (c ++ qs " = :") ++ c)).
  apply map_ext. intros c. now rewrite <- app_assoc.
Qed.

(* ================================================================== *)
(** * Properties of [IsColorDark] *)

Lemma to_int32_small (z : Z) :
  (-2147483648 <= z < 2147483648)%Z -> to_int32 z = z.
Proof. intros H. unfold to_int32. rewrite Z.mod_small; lia. Qed.

(** For a colour the sum is computed without overflow, and the colour is
    dark when the sum is below 13100. *)
Lemma IsColorDark_sum (c : QColor) :
  valid_color c ->
  IsColorDark c = (30 * red c + 59 * green c + 11 * blue c <? 13100)%Z.
Proof.
  intros (Hr & Hg & Hb & _). unfold IsColorDark.
  rewrite to_int32_small by lia.
  rewrite Z.quot_div_nonneg by lia.
  destruct (Z.ltb_spec (30 * red c + 59 * green c + 11 * blue c) 13100) as [H|H].
  - apply Z.leb_le.
    assert ((30 * red c + 59 * green c + 11 * blue c) / 100 < 131)%Z
      by (apply Z.div_lt_upper_bound; lia). lia.
  - apply Z.leb_gt.
    assert (131 <= (30 * red c + 59 * green c + 11 * blue c) / 100)%Z
      by (apply Z.div_le_lower_bound; lia). lia.
Qed.

(** X6: a colour that is in no channel brighter than a dark colour is
    dark. *)
Theorem IsColorDark_monotone (c d : QColor) :
  valid_color c -> valid_color d ->
  (red c <= red d)%Z -> (green c <= green d)%Z -> (blue c <= blue d)%Z ->
  IsColorDark d = true -> IsColorDark c = true.
Proof.
  intros Hc Hd Hr Hg Hb. rewrite !IsColorDark_sum by assumption.
  intros H%Z.ltb_lt. apply Z.ltb_lt. lia.
Qed.

Lemma IsColorDark_monotone_witness :
  IsColorDark (mkQColor 100 130 0 255) = true.
Proof.
  apply (@IsColorDark_monotone (mkQColor 100 130 0 255)
           (mkQColor 120 130 140 255));
    unfold valid_color; simpl; try lia; reflexivity.
Defined.

(* ================================================================== *)
(** * Properties of [DecodeHtmlEntities] *)

(** [DecodeHtmlEntities] replaces the entities of [html_entities] one after
    the other. *)
Lemma DecodeHtmlEntities_fold (text : QString) :
  DecodeHtmlEntities text =
  fold_left (fun copy e => QString_replace copy (fst e) (snd e))
    html_entities text.
Proof. reflexivity. Qed.

(** A replacement by a text that is not longer does not make the string
    longer. *)
Lemma replace_go_length (before after s : QString) (k : nat) :
  length after <= length before ->
  length (replace_go before after s k) <= length s - k.
Proof.
  intros Hab. revert k; induction s as [|c s IH]; intros k; [simpl; lia|].
  destruct k as [|k]; cbn [replace_go].
  - destruct (startsWith (c :: s) before) eqn:Hs.
    + apply startsWith_inv in Hs.
      assert (length before <= length (c :: s)) as Hle.
      { apply (f_equal (@length _)) in Hs. rewrite length_app in Hs. lia. }
      rewrite length_app. specialize (IH (length before - 1)).
      cbn [length] in *. lia.
    + specialize (IH 0). cbn [length]. lia.
  - specialize (IH k). cbn [length]. lia.
Qed.

Lemma QString_replace_length (s before after : QString) :
  before <> [] -> length after <= length before ->
  length (QString_replace s before after) <= length s.
Proof.
  intros Hb Hab. rewrite QString_replace_nonempty by assumption.
  pose proof (replace_go_length before after s 0 Hab). lia.
Qed.

(** X7: decoding never makes a text longer. *)
Theorem DecodeHtmlEntities_not_longer (text : QString) :
  length (DecodeHtmlEntities text) <= length text.
Proof.
  rewrite DecodeHtmlEntities_fold.
  assert (Forall (fun e => fst e <> [] /\ length (snd e) <= length (fst e))
            html_entities) as H
    by (repeat constructor; simpl; try discriminate; lia).
  revert text. induction H as [|e es [Hne Hlen] _ IH]; intros text; simpl.
  - lia.
  - etransitivity; [apply IH|]. now apply QString_replace_length.
Qed.

(** A replacement in a string made of one block for every character of [s],
    when it can be made block by block. *)
Lemma replace_go_flat_map (before after : QString) (h h' : QChar -> QString)
    (s : QString) :
  (forall pre c s', s = pre ++ c :: s' ->
     replace_go before after (h c ++ flat_map h s') 0
     = h' c ++ replace_go before after (flat_map h s') 0) ->
  replace_go before after (flat_map h s) 0 = flat_map h' s.
Proof.
  intros H.
  enough (forall t pre, s = pre ++ t ->
            replace_go before after (flat_map h t) 0 = flat_map h' t) as G
    by exact (G s [] eq_refl).
  induction t as [|c t IH]; intros pre E; [reflexivity|].
  cbn [flat_map]. rewrite (H pre c t E). f_equal.
  apply (IH (pre ++ [c])). now rewrite <- app_assoc.
Qed.

Lemma occurs_startsWith (e pre t : QString) :
  occurs e (pre ++ t) = false -> startsWith t e = false.
Proof.
  induction pre as [|c pre IH]; intros H.
  - destruct t; simpl in H; now apply orb_false_elim in H.
  - cbn [app occurs] in H. apply orb_false_elim in H as [_ H]. auto.
Qed.

(** In front of a text without [<], [>], [&] and quote the blocks stand
    exactly where their characters stand. *)
Lemma startsWith_flat_map_plain (amp quot lt gt : bool) (q s : QString) :
  Forall plain_char q ->
  startsWith (flat_map (escape_char_left amp quot lt gt) s) q = startsWith s q.
Proof.
  intros Hq. revert s; induction Hq as [|x q (Hlt & Hgt & Hamp & Hquot) _ IH];
    intros s; [reflexivity|].
  destruct s as [|c s]; [reflexivity|].
  cbn [flat_map]. unfold escape_char_left at 1.
  destruct (Ascii.eqb_spec c "<") as [->|H1].
  { destruct lt; cbn [qs list_ascii_of_string app startsWith];
      rewrite ?(proj2 (Ascii.eqb_neq x "&")), ?(proj2 (Ascii.eqb_neq x "<"))
        by assumption; reflexivity. }
  destruct (Ascii.eqb_spec c ">") as [->|H2].
  { destruct gt; cbn [qs list_ascii_of_string app startsWith];
      rewrite ?(proj2 (Ascii.eqb_neq x "&")), ?(proj2 (Ascii.eqb_neq x ">"))
        by assumption; reflexivity. }
  destruct (Ascii.eqb_spec c "&") as [->|H3].
  { destruct amp; cbn [qs list_ascii_of_string app startsWith];
      rewrite ?(proj2 (Ascii.eqb_neq x "&")) by assumption; reflexivity. }
  destruct (Ascii.eqb_spec c quote) as [->|H4].
  { destruct quot; cbn [qs list_ascii_of_string app startsWith];
      rewrite ?(proj2 (Ascii.eqb_neq x "&")), ?(proj2 (Ascii.eqb_neq x quote))
        by assumption; reflexivity. }
  cbn [app startsWith]. now rewrite IH.
Qed.

(** The ampersand that stands for itself is left alone by the replacement
    of an entity that does not occur in [s]. *)
Lemma replace_go_ampersand (q after : QString) (quot lt gt : bool)
    (s pre s' : QString) :
  Forall plain_char q ->
  occurs ("&"%char :: q) s = false ->
  s = pre ++ "&"%char :: s' ->
  replace_go ("&"%char :: q) after
    ("&"%char :: flat_map (escape_char_left false quot lt gt) s') 0
  = "&"%char ::
    replace_go ("&"%char :: q) after
      (flat_map (escape_char_left false quot lt gt) s') 0.
Proof.
  intros Hq Ho ->. apply replace_go_nomatch.
  apply occurs_startsWith in Ho. cbn [startsWith] in *.
  now rewrite startsWith_flat_map_plain.
Qed.

(** A character that is its own block is left alone by the replacement of a
    text that starts with an ampersand. *)
Lemma replace_go_other (q after r : QString) (c : QChar) :
  c <> "&"%char ->
  replace_go ("&"%char :: q) after (c :: r) 0
  = c :: replace_go ("&"%char :: q) after r 0.
Proof.
  intros Hc. apply replace_go_nomatch. apply startsWith_head. congruence.
Qed.

(** One replacement of [DecodeHtmlEntities] in an escaped text, block by
    block: the cases of the four characters with an entity are settled by
    computation, an ampersand that stands for itself by
    [replace_go_ampersand]. *)
Ltac decode_step Ho :=
  rewrite QString_replace_nonempty by discriminate;
  apply replace_go_flat_map; intros pre c s' E;
  unfold escape_char_left at 1 3;
  destruct (Ascii.eqb_spec c "<") as [->|?]; [reflexivity|];
  destruct (Ascii.eqb_spec c ">") as [->|?]; [reflexivity|];
  destruct (Ascii.eqb_spec c "&") as [->|?];
    [first [ reflexivity
           | eapply replace_go_ampersand;
             [repeat constructor; discriminate | exact Ho | exact E] ]|];
  destruct (Ascii.eqb_spec c quote) as [->|?]; [reflexivity|];
  apply replace_go_other; assumption.

Lemma toHtmlEscaped_blocks (s : QString) :
  toHtmlEscaped s = flat_map (escape_char_left true true true true) s.
Proof. reflexivity. Qed.

Lemma flat_map_single (s : QString) :
  flat_map (escape_char_left false false false false) s = s.
Proof.
  induction s as [|c s IH]; [reflexivity|]. cbn [flat_map]. rewrite IH.
  unfold escape_char_left. now repeat destruct (Ascii.eqb _ _).
Qed.

(** X8: decoding undoes [toHtmlEscaped] for every text in which none of the
    entities behind [&amp;] occurs. *)
Theorem DecodeHtmlEntities_toHtmlEscaped (s : QString) :
  (forall e, In e (map fst html_entities) -> e <> qs "&amp;" ->
             occurs e s = false) ->
  DecodeHtmlEntities (toHtmlEscaped s) = s.
Proof.
  intros Ho.
  assert (forall e, In e (tl (map fst html_entities)) -> occurs e s = false)
    as Ho'.
  { intros e He. apply Ho; [now right|].
    simpl in He. decompose [or] He; subst; try discriminate; contradiction. }
  clear Ho. cbn [html_entities map fst tl] in Ho'.
  rewrite toHtmlEscaped_blocks. unfold DecodeHtmlEntities. cbv zeta.
  replace (QString_replace _ (qs "&amp;") (qs "&"))
    with (flat_map (escape_char_left false true true true) s)
    by (symmetry; decode_step I).
  replace (QString_replace _ (qs "&#38;") (qs "&"))
    with (flat_map (escape_char_left false true true true) s)
    by (symmetry; assert (occurs (qs "&#38;") s = false) as H
          by (apply Ho'; simpl; tauto); decode_step H).
  replace (QString_replace _ (qs "&quot;") [quote])
    with (flat_map (escape_char_left false false true true) s)
    by (symmetry; assert (occurs (qs "&quot;") s = false) as H
          by (apply Ho'; simpl; tauto); decode_step H).
  replace (QString_replace _ (qs "&#34;") [quote])
    with (flat_map (escape_char_left false false true true) s)
    by (symmetry; assert (occurs (qs "&#34;") s = false) as H
          by (apply Ho'; simpl; tauto); decode_step H).
  replace (QString_replace _ (qs "&apos;") (qs "'"))
    with (flat_map (escape_char_left false false true true) s)
    by (symmetry; assert (occurs (qs "&apos;") s = false) as H
          by (apply Ho'; simpl; tauto); decode_step H).
  replace (QString_replace _ (qs "&#39;") (qs "'"))
    with (flat_map (escape_char_left false false true true) s)
    by (symmetry; assert (occurs (qs "&#39;") s = false) as H
          by (apply Ho'; simpl; tauto); decode_step H).
  replace (QString_replace _ (qs "&lt;") (qs "<"))
    with (flat_map (escape_char_left false false false true) s)
    by (symmetry; assert (occurs (qs "&lt;") s = false) as H
          by (apply Ho'; simpl; tauto); decode_step H).
  replace (QString_replace _ (qs "&#60;") (qs "<"))
    with (flat_map (escape_char_left false false false true) s)
    by (symmetry; assert (occurs (qs "&#60;") s = false) as H
          by (apply Ho'; simpl; tauto); decode_step H).
  replace (QString_replace _ (qs "&gt;") (qs ">"))
    with (flat_map (escape_char_left false false false false) s)
    by (symmetry; assert (occurs (qs "&gt;") s = false) as H
          by (apply Ho'; simpl; tauto); decode_step H).
  replace (QString_replace _ (qs "&#62;") (qs ">"))
    with (flat_map (escape_char_left false false false false) s)
    by (symmetry; assert (occurs (qs "&#62;") s = false) as H
          by (apply Ho'; simpl; tauto); decode_step H).
  replace (QString_replace _ (qs "&#x27;") (qs "'"))
    with (flat_map (escape_char_left false false false false) s)
    by (symmetry; assert (occurs (qs "&#x27;") s = false) as H
          by (apply Ho'; simpl; tauto); decode_step H).
  apply flat_map_single.
Qed.

Lemma DecodeHtmlEntities_toHtmlEscaped_witness :
  DecodeHtmlEntities (toHtmlEscaped example_html) = example_html.
Proof.
  apply DecodeHtmlEntities_toHtmlEscaped.
  intros e He Hne. simpl in He.
  decompose [or] He; subst; try reflexivity; contradiction.
Defined.

Lemma toHtmlEscaped_twice (s : QString) :
  toHtmlEscaped (toHtmlEscaped s) =
  flat_map (fun c => toHtmlEscaped (escape_char c)) s.
Proof.
  induction s as [|c s IH]; [reflexivity|].
  unfold toHtmlEscaped in *. cbn [flat_map].
  rewrite flat_map_app. now rewrite IH.
Qed.

Lemma flat_map_no_ampersand (quot lt gt : bool) (s : QString) :
  Forall (fun c => c <> "&"%char) s ->
  flat_map (escape_char_left true quot lt gt) s
  = flat_map (escape_char_left false quot lt gt) s.
Proof.
  induction 1 as [|c s Hc _ IH]; [reflexivity|].
  cbn [flat_map]. rewrite IH. f_equal. unfold escape_char_left.
  destruct (Ascii.eqb_spec c "&"); [contradiction|reflexivity].
Qed.

(** X9: a text without ampersand that was escaped twice is decoded twice
    by one call: an [&amp;] that is decoded gives its ampersand to the text
    behind it, which is decoded in turn when it makes an entity with it. *)
Theorem DecodeHtmlEntities_decodes_twice (s : QString) :
  Forall (fun c => c <> "&"%char) s ->
  DecodeHtmlEntities (toHtmlEscaped (toHtmlEscaped s)) = s.
Proof.
  intros Hs. rewrite toHtmlEscaped_twice.
  unfold DecodeHtmlEntities. cbv zeta.
  replace (QString_replace _ (qs "&amp;") (qs "&"))
    with (flat_map (escape_char_left true true true true) s).
  2:{ symmetry. rewrite QString_replace_nonempty by discriminate.
      apply replace_go_flat_map. intros pre c s' E.
      unfold escape_char_left, escape_char.
      destruct (Ascii.eqb_spec c "<") as [->|?]; [reflexivity|].
      destruct (Ascii.eqb_spec c ">") as [->|?]; [reflexivity|].
      destruct (Ascii.eqb_spec c "&") as [->|?]; [reflexivity|].
      destruct (Ascii.eqb_spec c quote) as [->|?]; [reflexivity|].
      cbn [toHtmlEscaped flat_map app]. unfold escape_char.
      rewrite !(proj2 (Ascii.eqb_neq c _)) by assumption.
      apply replace_go_other; assumption. }
  replace (QString_replace _ (qs "&#38;") (qs "&"))
    with (flat_map (escape_char_left true true true true) s)
    by (symmetry; decode_step I).
  replace (QString_replace _ (qs "&quot;") [quote])
    with (flat_map (escape_char_left true false true true) s)
    by (symmetry; decode_step I).
  replace (QString_replace _ (qs "&#34;") [quote])
    with (flat_map (escape_char_left true false true true) s)
    by (symmetry; decode_step I).
  replace (QString_replace _ (qs "&apos;") (qs "'"))
    with (flat_map (escape_char_left true false true true) s)
    by (symmetry; decode_step I).
  replace (QString_replace _ (qs "&#39;") (qs "'"))
    with (flat_map (escape_char_left true false true true) s)
    by (symmetry; decode_step I).
  replace (QString_replace _ (qs "&lt;") (qs "<"))
    with (flat_map (escape_char_left true false false true) s)
    by (symmetry; decode_step I).
  replace (QString_replace _ (qs "&#60;") (qs "<"))
    with (flat_map (escape_char_left true false false true) s)
    by (symmetry; decode_step I).
  replace (QString_replace _ (qs "&gt;") (qs ">"))
    with (flat_map (escape_char_left true false false false) s)
    by (symmetry; decode_step I).
  replace (QString_replace _ (qs "&#62;") (qs ">"))
    with (flat_map (escape_char_left true false false false) s)
    by (symmetry; decode_step I).
  replace (QString_replace _ (qs "&#x27;") (qs "'"))
    with (flat_map (escape_char_left true false false false) s)
    by (symmetry; decode_step I).
  rewrite flat_map_no_ampersand by assumption. apply flat_map_single.
Qed.

Lemma DecodeHtmlEntities_decodes_twice_witness :
  DecodeHtmlEntities (toHtmlEscaped (toHtmlEscaped (qs "<b>1 > 0</b>")))
  = qs "<b>1 > 0</b>".
Proof.
  apply DecodeHtmlEntities_decodes_twice.
  repeat constructor; discriminate.
Defined.

(* ================================================================== *)
(** * Properties of the decimal text of a number *)

Lemma to_int_not_nil (n : Z) :
  Z.to_int n <> Decimal.Pos Decimal.Nil /\ Z.to_int n <> Decimal.Neg Decimal.Nil.
Proof.
  destruct n as [|p|p]; simpl; split; try discriminate;
    intros [= H]; now apply DecimalPos.Unsigned.to_uint_nonnil in H.
Qed.

(** The text of a number stands for that number. *)
Lemma decimal_value_number (n : Z) : decimal_value (QString_number n) = n.
Proof.
  unfold decimal_value, QString_number, qs.
  rewrite string_of_list_ascii_of_string.
  destruct (to_int_not_nil n) as [H1 H2].
  rewrite NilZero.isi by assumption. apply DecimalZ.of_to.
Qed.

Lemma string_of_uint_digits (d : Decimal.uint) :
  Forall is_digit (list_ascii_of_string (NilEmpty.string_of_uint d)).
Proof.
  induction d; simpl; constructor; auto; unfold is_digit; simpl; tauto.
Qed.

Lemma string_of_uint_not_nil (d : Decimal.uint) :
  d <> Decimal.Nil ->
  NilZero.string_of_uint d = NilEmpty.string_of_uint d /\
  list_ascii_of_string (NilEmpty.string_of_uint d) <> [].
Proof. destruct d; intros H; try contradiction; split; simpl; congruence. Qed.

(** The text of a number that is not negative is made of digits, and there
    is one at least. *)
Lemma QString_number_digits (n : Z) :
  (0 <= n)%Z ->
  Forall is_digit (QString_number n) /\ QString_number n <> [].
Proof.
  intros Hn. unfold QString_number, qs.
  destruct n as [|p|p]; [| |lia].
  - simpl. split; [|discriminate].
    constructor; [unfold is_digit; simpl; tauto|constructor].
  - cbn [Z.to_int NilZero.string_of_int].
    destruct (string_of_uint_not_nil (DecimalPos.Unsigned.to_uint_nonnil p))
      as [-> Hne].
    split; [apply string_of_uint_digits|assumption].
Qed.

Lemma is_digit_not (c d : QChar) :
  is_digit c -> ~ is_digit d -> c <> d.
Proof. congruence. Qed.

Lemma digits_without (d : QChar) (s : QString) :
  ~ is_digit d -> Forall is_digit s -> Forall (fun c => c <> d) s.
Proof. intros Hd. apply Forall_weaken. intros c Hc. now apply is_digit_not. Qed.

Lemma not_digit_colon : ~ is_digit ":"%char.
Proof. unfold is_digit; simpl; intuition discriminate. Qed.

Lemma not_digit_x : ~ is_digit "x"%char.
Proof. unfold is_digit; simpl; intuition discriminate. Qed.

(** A zero in front of the text of a number does not change the number. *)
Lemma decimal_value_zero_number (n : Z) :
  (0 <= n)%Z -> decimal_value ("0"%char :: QString_number n) = n.
Proof.
  intros Hn. unfold decimal_value, QString_number, qs.
  cbn [string_of_list_ascii]. rewrite string_of_list_ascii_of_string.
  destruct n as [|p|p]; [reflexivity| |lia].
  cbn [Z.to_int NilZero.string_of_int].
  destruct (string_of_uint_not_nil (DecimalPos.Unsigned.to_uint_nonnil p))
    as [-> _].
  cbn [NilZero.int_of_string Ascii.eqb Bool.eqb NilZero.uint_of_string
       NilEmpty.uint_of_string].
  rewrite NilEmpty.usu. cbn.
  unfold Z.of_uint. cbn [Pos.of_uint].
  now rewrite DecimalPos.Unsigned.of_to.
Qed.

Lemma asprintf_02d_value (n : Z) :
  (0 <= n)%Z ->
  decimal_value (asprintf_02d n) = n /\ Forall is_digit (asprintf_02d n).
Proof.
  intros Hn. unfold asprintf_02d. cbv zeta.
  destruct (QString_number_digits Hn) as [Hd _].
  destruct (length (QString_number n) <? 2).
  - split; [now apply decimal_value_zero_number|].
    constructor; [unfold is_digit; simpl; tauto|assumption].
  - split; [apply decimal_value_number|assumption].
Qed.

Lemma asprintf_02d_decimal (n : Z) :
  (0 <= n)%Z -> decimal_value (asprintf_02d n) = n.
Proof. intros Hn. now apply asprintf_02d_value. Qed.

(** Below 100 [%02d] gives two digits. *)
Lemma asprintf_02d_length (n : Z) :
  (0 <= n < 60)%Z -> length (asprintf_02d n) = 2.
Proof.
  intros Hn.
  assert (exists k, k < 60 /\ n = Z.of_nat k) as (k & Hk & ->)
    by (exists (Z.to_nat n); lia).
  clear Hn. do 60 (destruct k as [|k]; [reflexivity|]). lia.
Qed.

Lemma split_by_field (sep : QChar) (a r : QString) :
  Forall (fun c => c <> sep) a ->
  split_by sep (a ++ sep :: r) = a :: split_by sep r.
Proof. intros Ha. now rewrite split_by_app, (split_by_nosep Ha). Qed.

(* ================================================================== *)
(** * Properties of [PrettyTime] and [PrettyTimeDelta] *)

Lemma qAbs_abs (t : Z) :
  (-2147483648 < t < 2147483648)%Z -> qAbs t = Z.abs t.
Proof.
  intros H. unfold qAbs. destruct (Z.geb_spec t 0).
  - lia.
  - rewrite to_int32_small; lia.
Qed.

(** The fields of the text: hours when there are any, minutes and
    seconds. *)
Lemma PrettyTime_fields (seconds : Z) :
  (-2147483648 < seconds < 2147483648)%Z ->
  let s := Z.abs seconds in
  split_by ":"%char (PrettyTime seconds) =
  if (s <? 3600)%Z
  then [asprintf_d (s / 60); asprintf_02d (s mod 60)]
  else [asprintf_d (s / 3600); asprintf_02d ((s / 60) mod 60);
        asprintf_02d (s mod 60)].
Proof.
  intros H s. unfold PrettyTime. cbv zeta. rewrite (qAbs_abs H). fold s.
  assert (0 <= s)%Z as Hs by (subst s; lia).
  change (60 * 60)%Z with 3600%Z.
  rewrite !Z.quot_div_nonneg, !Z.rem_mod_nonneg; try lia;
    try (apply Z.div_pos; lia).
  assert (0 <= s / 60)%Z as Hm by (apply Z.div_pos; lia).
  assert (0 <= s / 3600)%Z as Hh by (apply Z.div_pos; lia).
  assert (0 <= s mod 60 < 60)%Z as Hs60 by (apply Z.mod_pos_bound; lia).
  assert (0 <= (s / 60) mod 60 < 60)%Z as Hm60 by (apply Z.mod_pos_bound; lia).
  pose proof not_digit_colon as Hc.
  destruct (Z.ltb_spec s 3600) as [Hlt|Hge].
  - rewrite Z.div_small by lia. change (0 >? 0)%Z with false. cbv iota.
    rewrite (Z.mod_small (s / 60)) by (split; [lia|apply Z.div_lt_upper_bound; lia]).
    cbn [qs list_ascii_of_string app].
    rewrite split_by_field
      by (apply (digits_without Hc), QString_number_digits; lia).
    rewrite split_by_nosep
      by (apply (digits_without Hc), asprintf_02d_value; lia).
    reflexivity.
  - assert (0 < s / 3600)%Z as Hpos by (apply Z.div_str_pos; lia).
    rewrite (proj2 (Z.gtb_lt _ _)) by lia.
    cbn [qs list_ascii_of_string app].
    rewrite split_by_field
      by (apply (digits_without Hc), QString_number_digits; lia).
    rewrite split_by_field
      by (apply (digits_without Hc), asprintf_02d_value; lia).
    rewrite split_by_nosep
      by (apply (digits_without Hc), asprintf_02d_value; lia).
    reflexivity.
Qed.

Lemma clock_value_PrettyTime (seconds : Z) :
  (-2147483648 < seconds < 2147483648)%Z ->
  clock_value (PrettyTime seconds) = Z.abs seconds.
Proof.
  intros H. unfold clock_value. rewrite (PrettyTime_fields H). cbv zeta.
  set (s := Z.abs seconds). assert (0 <= s)%Z as Hs by (subst s; lia).
  assert (0 <= s / 60)%Z as Hm by (apply Z.div_pos; lia).
  assert (0 <= s / 3600)%Z as Hh by (apply Z.div_pos; lia).
  assert (0 <= s mod 60 < 60)%Z as Hs60 by (apply Z.mod_pos_bound; lia).
  assert (0 <= (s / 60) mod 60 < 60)%Z as Hm60 by (apply Z.mod_pos_bound; lia).
  destruct (s <? 3600)%Z; cbn [fold_left]; unfold asprintf_d;
    rewrite !decimal_value_number;
    rewrite !asprintf_02d_decimal by lia.
  - pose proof (Z.div_mod s 60). lia.
  - pose proof (Z.div_mod s 60). pose proof (Z.div_mod (s / 60) 60).
    rewrite Z.div_div in * by lia. change (60 * 60)%Z with 3600%Z in *. lia.
Qed.

(** X10: the text of [PrettyTime] reads back as the number of seconds,
    without its sign: it has the fields minutes and seconds below an hour and
    hours, minutes and seconds from an hour on; every field is made of
    digits, the first is a number as [%d] writes it, without a zero in front,
    and every field behind the first has exactly two digits. *)
Theorem PrettyTime_reads_back (seconds : Z) :
  (-2147483648 < seconds < 2147483648)%Z ->
  let fields := split_by ":"%char (PrettyTime seconds) in
  clock_value (PrettyTime seconds) = Z.abs seconds /\
  length fields = (if (Z.abs seconds <? 3600)%Z then 2 else 3) /\
  Forall (fun field => field <> [] /\ Forall is_digit field) fields /\
  hd [] fields = QString_number (decimal_value (hd [] fields)) /\
  Forall (fun field => length field = 2) (tl fields).
Proof.
  intros H fields. split; [now apply clock_value_PrettyTime|].
  subst fields. rewrite (PrettyTime_fields H). cbv zeta.
  set (s := Z.abs seconds). assert (0 <= s)%Z as Hs by (subst s; lia).
  assert (0 <= s / 60)%Z as Hm by (apply Z.div_pos; lia).
  assert (0 <= s / 3600)%Z as Hh by (apply Z.div_pos; lia).
  assert (0 <= s mod 60 < 60)%Z as Hs60 by (apply Z.mod_pos_bound; lia).
  assert (0 <= (s / 60) mod 60 < 60)%Z as Hm60 by (apply Z.mod_pos_bound; lia).
  assert (Hd : forall n, (0 <= n)%Z ->
                 asprintf_d n <> [] /\ Forall is_digit (asprintf_d n)).
  { intros n Hn. destruct (QString_number_digits Hn). now split. }
  assert (H02 : forall n, (0 <= n < 60)%Z ->
                  asprintf_02d n <> [] /\ Forall is_digit (asprintf_02d n)).
  { intros n Hn. split; [|apply asprintf_02d_value; lia].
    pose proof (asprintf_02d_length Hn). now destruct (asprintf_02d n). }
  destruct (s <? 3600)%Z; (split; [reflexivity|]); cbn [tl hd];
    unfold asprintf_d at 2 3; rewrite decimal_value_number;
    (split; [|split; [reflexivity|]]);
    repeat first [apply Forall_nil | apply Forall_cons];
    first [apply Hd; lia | apply H02; lia | apply asprintf_02d_length; lia].
Qed.

Lemma PrettyTime_reads_back_witness :
  clock_value (PrettyTime (-3725)) = Z.abs (-3725) /\
  length (split_by ":"%char (PrettyTime (-3725)))
  = (if (Z.abs (-3725) <? 3600)%Z then 2 else 3) /\
  Forall (fun field => field <> [] /\ Forall is_digit field)
    (split_by ":"%char (PrettyTime (-3725))) /\
  hd [] (split_by ":"%char (PrettyTime (-3725)))
  = QString_number
      (decimal_value (hd [] (split_by ":"%char (PrettyTime (-3725))))) /\
  Forall (fun field => length field = 2)
    (tl (split_by ":"%char (PrettyTime (-3725)))).
Proof. apply (@PrettyTime_reads_back (-3725)%Z). lia. Defined.

(** [PrettyTimeDelta] is one to one. *)
Lemma PrettyTimeDelta_one_to_one (a b : Z) :
  (-2147483648 < a < 2147483648)%Z -> (-2147483648 < b < 2147483648)%Z ->
  PrettyTimeDelta a = PrettyTimeDelta b -> a = b.
Proof.
  intros Ha Hb. unfold PrettyTimeDelta.
  destruct (Z.geb_spec a 0), (Z.geb_spec b 0); intros [= E];
    apply (f_equal clock_value) in E;
    rewrite !clock_value_PrettyTime in E by assumption; lia.
Qed.

(** X11: [PrettyTimeDelta] gives different texts for different numbers of
    seconds. *)
Theorem PrettyTimeDelta_injective (a b : Z) :
  (-2147483648 < a < 2147483648)%Z -> (-2147483648 < b < 2147483648)%Z ->
  a <> b -> PrettyTimeDelta a <> PrettyTimeDelta b.
Proof.
  intros Ha Hb Hab E. apply Hab. now apply PrettyTimeDelta_one_to_one.
Qed.

(** X11, at 65 seconds forwards and backwards, and at 59 and 60 seconds. *)
Lemma PrettyTimeDelta_injective_witness :
  ((65 <> -65)%Z /\ PrettyTimeDelta 65 <> PrettyTimeDelta (-65)) /\
  ((59 <> 60)%Z /\ PrettyTimeDelta 59 <> PrettyTimeDelta 60).
Proof.
  split; (split; [lia|]); apply PrettyTimeDelta_injective; lia.
Defined.

(* ================================================================== *)
(** * Properties of [PrettySize] *)

Lemma QString_number_without_x (n : Z) :
  Forall (fun c => c <> "x"%char) (QString_number n).
Proof.
  destruct (Z.le_gt_cases 0 n) as [Hn|Hn].
  - apply (digits_without not_digit_x), QString_number_digits, Hn.
  - destruct n as [|p|p]; try lia.
    pose proof (QString_number_digits (n:=Z.pos p) ltac:(lia)) as [Hd _].
    unfold QString_number, qs in *. cbn [Z.to_int NilZero.string_of_int] in *.
    cbn [list_ascii_of_string]. constructor; [discriminate|].
    now apply (digits_without not_digit_x).
Qed.

(** X12: the text of a size reads back as the size. *)
Theorem PrettySize_reads_back (size : QSize) :
  size_value (PrettySize size) = size.
Proof.
  unfold size_value, PrettySize. cbv zeta.
  cbn [qs list_ascii_of_string app].
  rewrite split_by_field by apply QString_number_without_x.
  rewrite split_by_nosep by apply QString_number_without_x.
  cbn [nth]. rewrite !decimal_value_number. now destruct size.
Qed.

(* ================================================================== *)
(** * Properties of [Hmac] *)

Lemma byte_xor_comm (a b : Byte.byte) : byte_xor a b = byte_xor b a.
Proof.
  unfold byte_xor.
  destruct (Byte.to_bits a) as (a0 & a1 & a2 & a3 & a4 & a5 & a6 & a7).
  destruct (Byte.to_bits b) as (b0 & b1 & b2 & b3 & b4 & b5 & b6 & b7).
  now rewrite (xorb_comm a0), (xorb_comm a1), (xorb_comm a2), (xorb_comm a3),
    (xorb_comm a4), (xorb_comm a5), (xorb_comm a6), (xorb_comm a7).
Qed.

Lemma byte_xor_zero (a : Byte.byte) : byte_xor a Byte.x00 = a.
Proof.
  unfold byte_xor.
  rewrite <- (Byte.of_bits_to_bits a) at 2.
  destruct (Byte.to_bits a) as (a0 & a1 & a2 & a3 & a4 & a5 & a6 & a7).
  cbn. now rewrite !xorb_false_r.
Qed.

Lemma xor_key_nil (padding : QByteArray) : xor_key padding [] = padding.
Proof. now destruct padding. Qed.

Lemma Hmac_loop (key : QByteArray) :
  forall (todo done inner outer inner' outer' : QByteArray),
    key = done ++ todo ->
    length inner = length done -> length outer = length done ->
    length todo <= length inner' -> length todo <= length outer' ->
    fold_left
      (fun paddings i =>
         (set_at (fst paddings) i
            (byte_xor (nth i (fst paddings) Byte.x00) (nth i key Byte.x00)),
          set_at (snd paddings) i
            (byte_xor (nth i (snd paddings) Byte.x00) (nth i key Byte.x00))))
      (seq (length done) (length todo)) (inner ++ inner', outer ++ outer')
    = (inner ++ xor_key inner' todo, outer ++ xor_key outer' todo).
Proof.
  induction todo as [|k todo IH];
    intros done inner outer inner' outer' E Hi Ho Hi' Ho'.
  - simpl. now rewrite !xor_key_nil.
  - destruct inner' as [|p inner']; [simpl in Hi'; lia|].
    destruct outer' as [|q outer']; [simpl in Ho'; lia|].
    cbn [length seq fold_left fst snd xor_key].
    assert (nth (length done) key Byte.x00 = k) as ->
      by (rewrite E; apply nth_app_here).
    assert (nth (length done) (inner ++ p :: inner') Byte.x00 = p) as ->
      by (rewrite <- Hi; apply nth_app_here).
    assert (nth (length done) (outer ++ q :: outer') Byte.x00 = q) as ->
      by (rewrite <- Ho; apply nth_app_here).
    assert (forall v, set_at (inner ++ p :: inner') (length done) v
                      = (inner ++ [v]) ++ inner') as ->
      by (intros v; rewrite <- Hi, set_at_app, <- app_assoc; reflexivity).
    assert (forall v, set_at (outer ++ q :: outer') (length done) v
                      = (outer ++ [v]) ++ outer') as ->
      by (intros v; rewrite <- Ho, set_at_app, <- app_assoc; reflexivity).
    replace (S (length done)) with (length (done ++ [k]))
      by (rewrite length_app; simpl; lia).
    rewrite IH; rewrite ?length_app; simpl in *; try lia.
    + now rewrite <- !app_assoc.
    + now rewrite <- app_assoc.
Qed.

Section HashingProperties.

Variable hash : Algorithm -> QByteArray -> QByteArray.

Lemma Hmac_xor_key (key data : QByteArray) (method : Algorithm) :
  length key <= 64 ->
  Hmac hash key data method =
  Some (hash method (xor_key (repeat Byte.x5c 64) key ++
                     hash method (xor_key (repeat Byte.x36 64) key ++ data))).
Proof.
  intros Hlen. unfold Hmac. cbv zeta.
  rewrite (proj2 (Nat.leb_le _ _) Hlen).
  unfold for_index. cbv beta.
  pose proof (@Hmac_loop key key [] [] [] (repeat Byte.x36 64)
                (repeat Byte.x5c 64) eq_refl eq_refl eq_refl) as H.
  cbn [app length] in H. rewrite H by (rewrite repeat_length; assumption).
  reflexivity.
Qed.

Lemma xor_bytes_zero (p : Byte.byte) (n : nat) :
  xor_bytes (repeat Byte.x00 n) (repeat p n) = repeat p n.
Proof.
  unfold xor_bytes. induction n as [|n IH]; [reflexivity|].
  cbn [repeat combine map fst snd]. rewrite IH.
  now rewrite byte_xor_comm, byte_xor_zero.
Qed.

Lemma xor_key_xor_bytes (p : Byte.byte) (key : QByteArray) (n : nat) :
  length key <= n ->
  xor_key (repeat p n) key
  = xor_bytes (key ++ repeat Byte.x00 (n - length key)) (repeat p n).
Proof.
  revert n; induction key as [|k key IH]; intros n Hn.
  - rewrite xor_key_nil. cbn [length app]. rewrite Nat.sub_0_r.
    now rewrite xor_bytes_zero.
  - destruct n as [|n]; [simpl in Hn; lia|].
    cbn [repeat xor_key length app Nat.sub]. rewrite IH by (simpl in Hn; lia).
    unfold xor_bytes. cbn [combine map fst snd].
    now rewrite byte_xor_comm.
Qed.

Lemma xor_key_zeros (padding key : QByteArray) (n : nat) :
  xor_key padding (key ++ repeat Byte.x00 n) = xor_key padding key.
Proof.
  revert key n; induction padding as [|p padding IH]; intros key n.
  - now destruct (key ++ repeat Byte.x00 n), key.
  - destruct key as [|k key].
    + cbn [app]. destruct n as [|n]; [reflexivity|].
      cbn [repeat xor_key]. rewrite byte_xor_zero. f_equal.
      rewrite <- (xor_key_nil padding) at 2. apply (IH [] n).
    + cbn [app xor_key]. now rewrite IH.
Qed.

(** X13: for a key of at most 64 bytes [Hmac] is the HMAC of RFC 2104: the
    hash of the key, filled up with zero bytes and combined with the outer
    padding, and of the hash of the key combined with the inner padding and
    of the data.  A longer key fails the assertion. *)
Theorem Hmac_is_rfc2104 (key data : QByteArray) (method : Algorithm) :
  Hmac hash key data method =
  if length key <=? 64 then Some (hmac_rfc2104 hash method key data)
  else None.
Proof.
  destruct (Nat.leb_spec (length key) 64) as [Hlen|Hlen].
  - rewrite Hmac_xor_key by assumption. unfold hmac_rfc2104. cbv zeta.
    now rewrite !xor_key_xor_bytes by assumption.
  - unfold Hmac. cbv zeta.
    now rewrite (proj2 (Nat.leb_gt _ _) Hlen).
Qed.

(** X14: zero bytes at the end of a key do not change the result: a key
    and the same key with zero bytes behind it authenticate the same. *)
Theorem Hmac_key_zero_bytes (key data : QByteArray) (method : Algorithm)
    (n : nat) :
  length key + n <= 64 ->
  Hmac hash (key ++ repeat Byte.x00 n) data method = Hmac hash key data method.
Proof.
  intros Hlen.
  rewrite !Hmac_xor_key by (rewrite ?length_app, ?repeat_length; lia).
  now rewrite !xor_key_zeros.
Qed.

End HashingProperties.

Lemma Hmac_key_zero_bytes_witness :
  Hmac example_hash ([Byte.x6b; Byte.x65; Byte.x79] ++ repeat Byte.x00 2)
    [Byte.x61] Sha256
  = Hmac example_hash [Byte.x6b; Byte.x65; Byte.x79] [Byte.x61] Sha256.
Proof. apply Hmac_key_zero_bytes. simpl. lia. Defined.

(* ================================================================== *)
(** * Properties of [Sha1CoverHash] *)

Lemma toLower_char_twice (c : QChar) :
  toLower_char (toLower_char c) = toLower_char c.
Proof. destruct c as [[] [] [] [] [] [] [] []]; reflexivity. Qed.

Lemma QString_toLower_twice (s : QString) :
  QString_toLower (QString_toLower s) = QString_toLower s.
Proof.
  unfold QString_toLower. rewrite map_map. apply map_ext, toLower_char_twice.
Qed.

(** A character other than U+0000 has no zero byte in its UTF-8 form, in
    lower case as well. *)
Lemma toUtf8_lower_no_zero (c : QChar) :
  c <> zero ->
  forallb (fun b => negb (Byte.eqb b Byte.x00)) (toUtf8_char (toLower_char c))
  = true.
Proof.
  destruct c as [[] [] [] [] [] [] [] []]; intros H;
    try (vm_compute; reflexivity).
  exfalso. apply H. reflexivity.
Qed.

Lemma c_string_app (a b : QByteArray) :
  forallb (fun x => negb (Byte.eqb x Byte.x00)) a = true ->
  c_string (a ++ b) = a ++ c_string b.
Proof.
  induction a as [|x a IH]; [reflexivity|]. cbn [forallb app c_string].
  intros [Hx Ha]%andb_prop. apply negb_true_iff in Hx. rewrite Hx.
  now rewrite IH.
Qed.

Lemma c_string_all (a : QByteArray) :
  forallb (fun x => negb (Byte.eqb x Byte.x00)) a = true -> c_string a = a.
Proof.
  intros H. rewrite <- (app_nil_r a) at 1.
  rewrite c_string_app by assumption. apply app_nil_r.
Qed.

Lemma toUtf8_lower_app (a b : QString) :
  QString_toUtf8 (QString_toLower (a ++ b))
  = QString_toUtf8 (QString_toLower a) ++ QString_toUtf8 (QString_toLower b).
Proof.
  unfold QString_toUtf8, QString_toLower. now rewrite map_app, flat_map_app.
Qed.

Lemma toUtf8_lower_no_zeros (s : QString) :
  Forall (fun c => c <> zero) s ->
  forallb (fun b => negb (Byte.eqb b Byte.x00))
    (QString_toUtf8 (QString_toLower s)) = true.
Proof.
  unfold QString_toUtf8, QString_toLower.
  induction 1 as [|c s Hc _ IH]; [reflexivity|].
  cbn [map flat_map]. rewrite forallb_app, IH.
  now rewrite toUtf8_lower_no_zero.
Qed.

Section CoverHashProperties.

Variable hash : Algorithm -> QByteArray -> QByteArray.

(** X15: on texts of the characters up to U+00FF, which are the characters
    of this development, [Sha1CoverHash] hashes artist and album in lower
    case and as one text: when the artist has no character U+0000, neither
    the place where the artist ends and the album begins nor the case of the
    letters goes into the hash. *)
Theorem Sha1CoverHash_one_text (artist middle album : QString) :
  Forall (fun c => c <> zero) (artist ++ middle) ->
  Sha1CoverHash hash (artist ++ middle) album
  = Sha1CoverHash hash artist (middle ++ album) /\
  Sha1CoverHash hash (QString_toLower artist) (QString_toLower album)
  = Sha1CoverHash hash artist album.
Proof.
  intros [Ha Hm]%Forall_app. unfold Sha1CoverHash. cbv zeta. split.
  - f_equal. cbn [app]. rewrite !toUtf8_lower_app.
    pose proof (toUtf8_lower_no_zeros Ha) as Ha'.
    pose proof (toUtf8_lower_no_zeros Hm) as Hm'.
    rewrite (c_string_all _ Ha'), (c_string_app _ _ Hm').
    rewrite c_string_all by (now rewrite forallb_app, Ha', Hm').
    now rewrite <- app_assoc.
  - now rewrite !QString_toLower_twice.
Qed.

End CoverHashProperties.

Lemma Sha1CoverHash_one_text_witness :
  Sha1CoverHash example_hash (qs "AC" ++ qs "DC") (qs "Live")
  = Sha1CoverHash example_hash (qs "AC") (qs "DC" ++ qs "Live") /\
  Sha1CoverHash example_hash (QString_toLower (qs "AC"))
    (QString_toLower (qs "Live"))
  = Sha1CoverHash example_hash (qs "AC") (qs "Live").
Proof.
  apply (@Sha1CoverHash_one_text example_hash (qs "AC") (qs "DC") (qs "Live")).
  repeat constructor; discriminate.
Defined.

(* ================================================================== *)
(** * Properties of the functions on [QXmlStreamReader] *)

Lemma readNext_token (cur t : Token) (rest : list Token) :
  ends_reading cur = false ->
  readNext (mkReader cur (t :: rest)) = (token_type t, mkReader t rest).
Proof.
  intros H. unfold readNext, atEnd. cbn [current pending].
  unfold ends_reading in H. now rewrite H.
Qed.

Lemma readNext_nothing (cur : Token) :
  ends_reading cur = false ->
  readNext (mkReader cur []) = (Invalid, mkReader (mkToken Invalid []) []).
Proof.
  intros H. unfold readNext, atEnd. cbn [current pending].
  unfold ends_reading in H. now rewrite H.
Qed.

Lemma atEnd_ends_reading (cur : Token) (rest : list Token) :
  atEnd (mkReader cur rest) = ends_reading cur.
Proof. reflexivity. Qed.

Lemma ParseUntilElement_find_token (fuel : nat) (reader : QXmlStreamReader)
    (name_ : QString) :
  ParseUntilElement_loop fuel reader name_
  = find_token (starts name_) fuel reader.
Proof.
  revert reader; induction fuel as [|fuel IH]; intros reader; [reflexivity|].
  cbn [ParseUntilElement_loop find_token].
  destruct (atEnd reader) eqn:Hend; [reflexivity|]. cbn [negb].
  destruct reader as [cur [|t rest]].
  - rewrite readNext_nothing by exact Hend. cbn. apply IH.
  - rewrite readNext_token by exact Hend.
    unfold starts, is_start, QXmlStreamReader_name. cbn [current].
    destruct (token_type t); cbn [andb]; try apply IH.
    destruct (QString_eqb (token_name t) name_); [reflexivity|apply IH].
Qed.

Lemma ParseUntilElementCI_find_token (fuel : nat) (reader : QXmlStreamReader)
    (name_ : QString) :
  ParseUntilElementCI_loop fuel reader name_
  = find_token (startsCI name_) fuel reader.
Proof.
  revert reader; induction fuel as [|fuel IH]; intros reader; [reflexivity|].
  cbn [ParseUntilElementCI_loop find_token].
  destruct (atEnd reader) eqn:Hend; [reflexivity|]. cbn [negb].
  destruct reader as [cur [|t rest]].
  - rewrite readNext_nothing by exact Hend. cbn. apply IH.
  - rewrite readNext_token by exact Hend.
    unfold startsCI, is_start, QXmlStreamReader_name. cbn [current].
    destruct (token_type t); cbn [andb]; try apply IH.
    destruct (QString_eqb (QString_toLower (token_name t)) name_);
      [reflexivity|apply IH].
Qed.

(** The search stops at the first token that is found. *)
Lemma find_token_first (found : Token -> bool) (pre : list Token) :
  forall (fuel : nat) (cur t : Token) (post : list Token),
    ends_reading cur = false -> found t = true ->
    Forall (fun x => found x = false /\ ends_reading x = false) pre ->
    length pre < fuel ->
    find_token found fuel (mkReader cur (pre ++ t :: post))
    = Some (true, mkReader t post).
Proof.
  induction pre as [|x pre IH]; intros fuel cur t post Hcur Ht Hpre Hfuel.
  - destruct fuel as [|fuel]; [simpl in Hfuel; lia|].
    cbn [find_token app]. rewrite atEnd_ends_reading, Hcur. cbn [negb].
    rewrite readNext_token by assumption. cbn [current]. now rewrite Ht.
  - destruct fuel as [|fuel]; [simpl in Hfuel; lia|].
    apply Forall_cons_iff in Hpre as [[Hx Hxe] Hpre].
    cbn [find_token app]. rewrite atEnd_ends_reading, Hcur. cbn [negb].
    rewrite readNext_token by assumption. cbn [current]. rewrite Hx.
    apply IH; auto. simpl in Hfuel. lia.
Qed.

(** The search returns, and when nothing is found it has read to the end. *)
Lemma find_token_none (found : Token -> bool) (rest : list Token) :
  forall (fuel : nat) (cur : Token),
    found (mkToken Invalid []) = false ->
    Forall (fun x => found x = false) rest ->
    length rest + 1 < fuel ->
    exists reader',
      find_token found fuel (mkReader cur rest) = Some (false, reader') /\
      atEnd reader' = true.
Proof.
  induction rest as [|x rest IH]; intros fuel cur Hinv Hrest Hfuel.
  - destruct fuel as [|[|fuel]]; [simpl in Hfuel; lia..|].
    cbn [find_token]. rewrite atEnd_ends_reading.
    destruct (ends_reading cur) eqn:Hcur; cbn [negb]; [eauto|].
    rewrite readNext_nothing by assumption. cbn [current]. rewrite Hinv.
    cbn. eauto.
  - destruct fuel as [|fuel]; [simpl in Hfuel; lia|].
    apply Forall_cons_iff in Hrest as [Hx Hrest].
    cbn [find_token]. rewrite atEnd_ends_reading.
    destruct (ends_reading cur) eqn:Hcur; cbn [negb]; [eauto|].
    rewrite readNext_token by assumption. cbn [current]. rewrite Hx.
    apply IH; auto. simpl in Hfuel. lia.
Qed.

(** The search returns on every reader. *)
Lemma find_token_returns (found : Token -> bool) (rest : list Token) :
  forall (fuel : nat) (cur : Token),
    length rest + 1 < fuel ->
    exists ok reader',
      find_token found fuel (mkReader cur rest) = Some (ok, reader').
Proof.
  induction rest as [|x rest IH]; intros fuel cur Hfuel.
  - destruct fuel as [|[|fuel]]; [simpl in Hfuel; lia..|].
    cbn [find_token]. rewrite atEnd_ends_reading.
    destruct (ends_reading cur) eqn:Hcur; cbn [negb]; [eauto|].
    rewrite readNext_nothing by assumption. cbn [current].
    destruct (found _); [eauto|]. cbn. eauto.
  - destruct fuel as [|fuel]; [simpl in Hfuel; lia|].
    cbn [find_token]. rewrite atEnd_ends_reading.
    destruct (ends_reading cur) eqn:Hcur; cbn [negb]; [eauto|].
    rewrite readNext_token by assumption. cbn [current].
    destruct (found x); [eauto|]. apply IH. simpl in Hfuel. lia.
Qed.

(** X16: [ParseUntilElement] returns on every reader; it stops at the
    first start of an element with the given name and returns [true], and
    when there is none among the tokens to read it returns [false] with the
    reader at its end. *)
Theorem ParseUntilElement_first (cur t : Token) (pre post : list Token)
    (name_ : QString) :
  ends_reading cur = false ->
  starts name_ t = true ->
  Forall (fun x => starts name_ x = false /\ ends_reading x = false) pre ->
  ParseUntilElement (mkReader cur (pre ++ t :: post)) name_
  = Some (true, mkReader t post) /\
  (forall reader,
     exists ok reader', ParseUntilElement reader name_ = Some (ok, reader')) /\
  (forall reader,
     Forall (fun x => starts name_ x = false) (pending reader) ->
     exists reader',
       ParseUntilElement reader name_ = Some (false, reader') /\
       atEnd reader' = true).
Proof.
  intros Hcur Ht Hpre. unfold ParseUntilElement, enough_fuel. repeat split.
  - rewrite ParseUntilElement_find_token. apply find_token_first; auto.
    cbn [pending]. rewrite length_app. simpl. lia.
  - intros [c rest]. rewrite ParseUntilElement_find_token.
    apply find_token_returns. cbn [pending]. lia.
  - intros [c rest] Hrest. rewrite ParseUntilElement_find_token.
    apply find_token_none; auto. cbn [pending]. lia.
Qed.

Lemma ParseUntilElement_first_witness :
  ParseUntilElement
    (mkReader (mkToken StartDocument [])
       ([mkToken StartElement (qs "rss"); mkToken StartElement (qs "Channel")]
        ++ mkToken StartElement (qs "title")
        :: skipn 3 example_tokens)) (qs "title")
  = Some (true, mkReader (mkToken StartElement (qs "title"))
                  (skipn 3 example_tokens)) /\
  (forall reader,
     exists ok reader',
       ParseUntilElement reader (qs "title") = Some (ok, reader')) /\
  (forall reader,
     Forall (fun x => starts (qs "title") x = false) (pending reader) ->
     exists reader',
       ParseUntilElement reader (qs "title") = Some (false, reader') /\
       atEnd reader' = true).
Proof.
  apply ParseUntilElement_first; [reflexivity..|].
  repeat constructor.
Defined.

Lemma QString_toLower_fixed (s t : QString) :
  QString_toLower s = t -> QString_toLower t = t.
Proof. intros <-. apply QString_toLower_twice. Qed.

(** X17: [ParseUntilElementCI] compares the name of an element in lower
    case with the name it is given as it is: it stops at the first start of
    an element whose name in lower case is the given name, and it finds
    nothing at all, reading to the end, when the given name is not in lower
    case itself. *)
Theorem ParseUntilElementCI_lower_case (cur t : Token) (pre post : list Token)
    (name_ : QString) :
  ends_reading cur = false ->
  startsCI name_ t = true ->
  Forall (fun x => startsCI name_ x = false /\ ends_reading x = false) pre ->
  ParseUntilElementCI (mkReader cur (pre ++ t :: post)) name_
  = Some (true, mkReader t post) /\
  (forall reader other,
     QString_toLower other <> other ->
     exists reader',
       ParseUntilElementCI reader other = Some (false, reader') /\
       atEnd reader' = true).
Proof.
  intros Hcur Ht Hpre. unfold ParseUntilElementCI, enough_fuel. split.
  - rewrite ParseUntilElementCI_find_token. apply find_token_first; auto.
    cbn [pending]. rewrite length_app. simpl. lia.
  - intros [c rest] other Hother. rewrite ParseUntilElementCI_find_token.
    assert (forall x, startsCI other x = false) as Hno.
    { intros x. unfold startsCI. destruct (is_start x); [|reflexivity].
      apply QString_eqb_neq. intros E. apply Hother.
      now apply QString_toLower_fixed in E. }
    apply find_token_none; auto.
    + apply Forall_forall. auto.
    + cbn [pending]. lia.
Qed.

Lemma ParseUntilElementCI_lower_case_witness :
  ParseUntilElementCI
    (mkReader (mkToken StartDocument [])
       ([mkToken StartElement (qs "rss")]
        ++ mkToken StartElement (qs "Channel")
        :: skipn 2 example_tokens)) (qs "channel")
  = Some (true, mkReader (mkToken StartElement (qs "Channel"))
                  (skipn 2 example_tokens)) /\
  (forall reader other,
     QString_toLower other <> other ->
     exists reader',
       ParseUntilElementCI reader other = Some (false, reader') /\
       atEnd reader' = true).
Proof.
  apply ParseUntilElementCI_lower_case; [reflexivity..|].
  repeat constructor.
Defined.

Lemma content_not_ending (body : list Token) :
  content body -> Forall (fun t => ends_reading t = false) body.
Proof.
  induction 1 as [|t ts Hs He Hend _ IH|s body e ts Hs _ IHb He _ IHt].
  - constructor.
  - constructor; assumption.
  - constructor.
    + unfold is_start, ends_reading in *. now destruct (token_type s).
    + apply Forall_app. split; [assumption|]. constructor; [|assumption].
      unfold is_end, ends_reading in *. now destruct (token_type e).
Qed.

Lemma last_not_ending (body : list Token) (cur : Token) :
  Forall (fun t => ends_reading t = false) body ->
  ends_reading cur = false -> ends_reading (last body cur) = false.
Proof.
  intros H; revert cur; induction H as [|t ts Ht _ IH]; intros cur Hcur;
    [assumption|].
  destruct ts; [assumption|]. change (last (t :: t0 :: ts) cur)
    with (last (t0 :: ts) cur). now apply IH.
Qed.

Lemma last_cons {A : Type} (ts : list A) (t d : A) :
  last (t :: ts) d = last ts t.
Proof.
  revert t d; induction ts as [|x ts IH]; intros t d; [reflexivity|].
  change (last (t :: x :: ts) d) with (last (x :: ts) d).
  now rewrite (IH x d), (IH x t).
Qed.

Lemma last_app_cons {A : Type} (a b : list A) (x d : A) :
  last (a ++ x :: b) d = last b x.
Proof.
  revert d; induction a as [|y a IH]; intros d; cbn [app].
  - apply last_cons.
  - now rewrite last_cons, IH.
Qed.

(** One turn of the loop of [ConsumeCurrentElement]. *)
Lemma ConsumeCurrentElement_turn (fuel : nat) (level : Z) (cur t : Token)
    (rest : list Token) :
  level <> 0%Z -> ends_reading cur = false ->
  ConsumeCurrentElement_loop (S fuel) level (mkReader cur (t :: rest))
  = ConsumeCurrentElement_loop fuel
      (match token_type t with
       | StartElement => to_int32 (level + 1)
       | EndElement => to_int32 (level - 1)
       | _ => level
       end) (mkReader t rest).
Proof.
  intros Hl Hcur. cbn [ConsumeCurrentElement_loop].
  rewrite (proj2 (Z.eqb_neq level 0) Hl), atEnd_ends_reading, Hcur.
  cbn [negb andb]. now rewrite readNext_token by assumption.
Qed.

(** The loop passes over the content of an element and is on the same
    level behind it. *)
Lemma ConsumeCurrentElement_content (body : list Token) :
  content body ->
  forall (fuel : nat) (level : Z) (cur : Token) (rest : list Token),
    (1 <= level)%Z -> (level + Z.of_nat (length body) < 2147483648)%Z ->
    ends_reading cur = false ->
    ConsumeCurrentElement_loop (length body + fuel) level
      (mkReader cur (body ++ rest))
    = ConsumeCurrentElement_loop fuel level (mkReader (last body cur) rest).
Proof.
  induction 1 as [|t ts Hs He Hend Hts IH|s body e ts Hs Hb IHb He Hts IHt];
    intros fuel level cur rest Hl Hbound Hcur.
  - reflexivity.
  - cbn [length app Nat.add]. rewrite ConsumeCurrentElement_turn by (lia || auto).
    unfold is_start, is_end in Hs, He.
    rewrite last_cons, <- IH; auto; [|simpl in Hbound; lia].
    destruct (token_type t); congruence.
  - pose proof (content_not_ending Hb) as Hbe.
    assert (ends_reading s = false) as Hse
      by (unfold is_start, ends_reading in *; now destruct (token_type s)).
    assert (ends_reading e = false) as Hee
      by (unfold is_end, ends_reading in *; now destruct (token_type e)).
    assert (level + 1 + Z.of_nat (length body) < 2147483648 /\
            level + Z.of_nat (length ts) < 2147483648)%Z as [Hb1 Hb2]
      by (cbn [length] in Hbound; rewrite length_app in Hbound;
          cbn [length] in Hbound; lia).
    cbn [length app Nat.add]. rewrite ConsumeCurrentElement_turn by (lia || auto).
    unfold is_start in Hs. destruct (token_type s) eqn:Es; try discriminate.
    rewrite length_app. cbn [length].
    rewrite to_int32_small by lia.
    rewrite <- app_assoc. cbn [app].
    replace (length body + S (length ts) + fuel)
      with (length body + (S (length ts + fuel))) by lia.
    rewrite IHb by (lia || auto).
    rewrite ConsumeCurrentElement_turn
      by (lia || auto using last_not_ending).
    unfold is_end in He. destruct (token_type e) eqn:Ee; try discriminate.
    rewrite to_int32_small by lia.
    replace (level + 1 - 1)%Z with level by lia.
    rewrite IHt by (lia || auto).
    now rewrite (last_cons (body ++ e :: ts)), last_app_cons.
Qed.

(** The loop returns on every reader. *)
Lemma ConsumeCurrentElement_returns (rest : list Token) :
  forall (fuel : nat) (level : Z) (cur : Token),
    length rest + 1 < fuel ->
    exists reader',
      ConsumeCurrentElement_loop fuel level (mkReader cur rest) = Some reader'.
Proof.
  induction rest as [|x rest IH]; intros fuel level cur Hfuel.
  - destruct fuel as [|[|fuel]]; [simpl in Hfuel; lia..|].
    cbn [ConsumeCurrentElement_loop].
    destruct (negb (level =? 0)%Z && negb (atEnd (mkReader cur []))) eqn:E;
      [|eauto].
    apply andb_prop in E as [_ E]. apply negb_true_iff in E.
    rewrite readNext_nothing by exact E. cbn. rewrite andb_false_r. eauto.
  - destruct fuel as [|fuel]; [simpl in Hfuel; lia|].
    cbn [ConsumeCurrentElement_loop].
    destruct (negb (level =? 0)%Z && negb (atEnd (mkReader cur (x :: rest))))
      eqn:E; [|eauto].
    apply andb_prop in E as [_ E]. apply negb_true_iff in E.
    rewrite readNext_token by exact E. apply IH. simpl in Hfuel. lia.
Qed.

(** X18: [ConsumeCurrentElement] returns on every reader, and called
    inside an element it reads to the end of that element: over the content
    of the element, whole elements included, to the end tag that belongs to
    the element, and no further. *)
Theorem ConsumeCurrentElement_to_end_tag (cur e : Token)
    (body rest : list Token) :
  ends_reading cur = false -> content body -> is_end e = true ->
  (Z.of_nat (length body) < 2147483647)%Z ->
  ConsumeCurrentElement (mkReader cur (body ++ e :: rest))
  = Some (mkReader e rest) /\
  (forall reader, exists reader', ConsumeCurrentElement reader = Some reader').
Proof.
  intros Hcur Hb He Hlen. unfold ConsumeCurrentElement, enough_fuel. split.
  - cbn [pending]. rewrite length_app. cbn [length].
    replace (length body + S (length rest) + 2)
      with (length body + (S (S (S (length rest))))) by lia.
    rewrite ConsumeCurrentElement_content by (lia || auto).
    rewrite ConsumeCurrentElement_turn;
      [|lia|auto using last_not_ending, content_not_ending].
    unfold is_end in He. destruct (token_type e); try discriminate.
    reflexivity.
  - intros [c r]. apply ConsumeCurrentElement_returns. cbn [pending]. lia.
Qed.

Lemma example_content :
  content [ mkToken StartElement (qs "title"); mkToken Characters [];
            mkToken EndElement (qs "title") ].
Proof.
  apply (@content_element (mkToken StartElement (qs "title"))
           [mkToken Characters []] (mkToken EndElement (qs "title")) []);
    try reflexivity; repeat constructor.
Qed.

Lemma ConsumeCurrentElement_to_end_tag_witness :
  ConsumeCurrentElement
    (mkReader (mkToken StartElement (qs "Channel"))
       ([ mkToken StartElement (qs "title"); mkToken Characters [];
          mkToken EndElement (qs "title") ]
        ++ mkToken EndElement (qs "Channel")
        :: [mkToken EndElement (qs "rss"); mkToken EndDocument []]))
  = Some (mkReader (mkToken EndElement (qs "Channel"))
            [mkToken EndElement (qs "rss"); mkToken EndDocument []]) /\
  (forall reader, exists reader', ConsumeCurrentElement reader = Some reader').
Proof.
  apply ConsumeCurrentElement_to_end_tag;
    [reflexivity | exact example_content | reflexivity | simpl; lia].
Defined.

(* ================================================================== *)
(** * Properties of [GetRandomString] *)

Lemma QString_at_in_range (s : QString) (i : Z) :
  (0 <= i < Z.of_nat (length s))%Z ->
  exists c, QString_at s i = Some c /\ In c s.
Proof.
  intros H. unfold QString_at.
  rewrite (proj2 (Z.ltb_ge i 0)) by lia.
  destruct (nth_error s (Z.to_nat i)) as [c|] eqn:E.
  - exists c. split; [reflexivity|]. eapply nth_error_In, E.
  - apply nth_error_None in E. lia.
Qed.

Section RandomProperties.

Variable Generator : Type.
Variable bounded : Generator -> Z -> Z -> Z * Generator.

(** What [QRandomGenerator::bounded] promises: a number from [lowest] up to,
    but not including, [highest]. *)
Hypothesis bounded_in_range :
  forall global lowest highest,
    (lowest < highest)%Z ->
    (lowest <= fst (bounded global lowest highest) < highest)%Z.

Lemma GetRandomString_loop_spec (UseCharacters : QString) (n : nat) :
  UseCharacters <> [] ->
  forall (randstr : QString) (global : Generator),
  exists s global',
    GetRandomString_loop bounded n UseCharacters randstr global
    = Some (randstr ++ s, global') /\
    length s = n /\ Forall (fun c => In c UseCharacters) s.
Proof.
  intros Hne. induction n as [|n IH]; intros randstr global.
  - exists [], global. rewrite app_nil_r. repeat split. constructor.
  - cbn [GetRandomString_loop].
    assert (0 < Z.of_nat (length UseCharacters))%Z as Hlen
      by (destruct UseCharacters; [congruence|simpl; lia]).
    pose proof (bounded_in_range global Hlen) as Hb.
    destruct (bounded global 0 (Z.of_nat (length UseCharacters)))
      as [index global1]. cbn [fst] in Hb.
    destruct (QString_at_in_range _ Hb) as (c & -> & Hc).
    destruct (IH (randstr ++ [c]) global1) as (s & global' & -> & Hs & Hin).
    exists (c :: s), global'. rewrite <- app_assoc. repeat split.
    + simpl. now rewrite Hs.
    + constructor; assumption.
Qed.

(** X19: with a generator that keeps its bounds and characters to choose
    from, [GetRandomString] returns a string of [len] characters (none for a
    negative [len]), every one of them among the characters given. *)
Theorem GetRandomString_of_characters (len : Z) (UseCharacters : QString)
    (global : Generator) :
  UseCharacters <> [] ->
  exists randstr global',
    GetRandomString bounded len UseCharacters global
    = Some (randstr, global') /\
    length randstr = Z.to_nat len /\
    Forall (fun c => In c UseCharacters) randstr.
Proof.
  intros Hne. unfold GetRandomString. cbv zeta.
  destruct (GetRandomString_loop_spec (Z.to_nat len) Hne [] global)
    as (s & global' & E & Hs & Hin).
  exists s, global'. auto.
Qed.

(** X20: [CryptographicRandomString] gives nothing but unreserved characters
    of RFC 3986, which stand for themselves in a URL. *)
Theorem CryptographicRandomString_unreserved (len : Z) (global : Generator) :
  exists randstr global',
    CryptographicRandomString bounded len global = Some (randstr, global') /\
    length randstr = Z.to_nat len /\
    forallb unreserved randstr = true.
Proof.
  unfold CryptographicRandomString. cbv zeta.
  set (U := qs "ABCDEFGHIJKLMNOPQRSTUVWXYZabcdefghijklmnopqrstuvwxyz0123456789-._~").
  assert (U <> []) as Hne by discriminate.
  destruct (GetRandomString_loop_spec (Z.to_nat len) Hne [] global)
    as (s & global' & E & Hs & Hin).
  exists s, global'. repeat split; auto.
  apply forallb_forall. intros c Hc.
  rewrite Forall_forall in Hin. specialize (Hin c Hc).
  assert (forallb unreserved U = true) as HU by (vm_compute; reflexivity).
  rewrite forallb_forall in HU. auto.
Qed.

End RandomProperties.

Lemma example_bounded_in_range (global lowest highest : Z) :
  (lowest < highest)%Z ->
  (lowest <= fst (example_bounded global lowest highest) < highest)%Z.
Proof.
  intros H. unfold example_bounded. cbn [fst].
  pose proof (Z.mod_pos_bound global (highest - lowest)). lia.
Qed.

Lemma GetRandomString_of_characters_witness :
  exists randstr global',
    GetRandomString example_bounded 8 (qs "abc") 2024%Z
    = Some (randstr, global') /\
    length randstr = Z.to_nat 8 /\
    Forall (fun c => In c (qs "abc")) randstr.
Proof.
  apply (@GetRandomString_of_characters Z example_bounded
           example_bounded_in_range 8%Z (qs "abc") 2024%Z).
  discriminate.
Defined.

Lemma CryptographicRandomString_unreserved_witness :
  exists randstr global',
    CryptographicRandomString example_bounded 16 7%Z = Some (randstr, global') /\
    length randstr = Z.to_nat 16 /\
    forallb unreserved randstr = true.
Proof.
  apply (@CryptographicRandomString_unreserved Z example_bounded
           example_bounded_in_range 16%Z 7%Z).
Defined.

(* ================================================================== *)
(** * Properties of [MacAddress] *)

Lemma MacAddress_fold (allInterfaces : list QNetworkInterface) :
  MacAddress allInterfaces =
  let ret :=
    fold_left
      (fun ret netif =>
         if left_out netif then ret
         else if isEmpty ret || is_wired_or_wifi netif
              then hardwareAddress netif
              else ret)
      allInterfaces [] in
  if isEmpty ret then qs "00:00:00:00:00:00" else ret.
Proof. reflexivity. Qed.

(** Behind the interfaces that are left out or neither Ethernet nor Wifi an
    address that was found stays. *)
Lemma MacAddress_keeps (post : list QNetworkInterface) (ret : QString) :
  ret <> [] ->
  Forall (fun x => left_out x = true \/ is_wired_or_wifi x = false) post ->
  fold_left
    (fun ret netif =>
       if left_out netif then ret
       else if isEmpty ret || is_wired_or_wifi netif
            then hardwareAddress netif
            else ret)
    post ret = ret.
Proof.
  intros Hne H. induction H as [|x post [Hx|Hx] _ IH]; cbn [fold_left];
    [reflexivity| |].
  - now rewrite Hx.
  - rewrite Hx. destruct ret; [congruence|]. cbn [isEmpty orb].
    destruct (left_out x); assumption.
Qed.

(** Interfaces that are left out find no address. *)
Lemma MacAddress_skips (pre : list QNetworkInterface) (ret : QString) :
  Forall (fun x => left_out x = true) pre ->
  fold_left
    (fun ret netif =>
       if left_out netif then ret
       else if isEmpty ret || is_wired_or_wifi netif
            then hardwareAddress netif
            else ret)
    pre ret = ret.
Proof.
  intros H. induction H as [|x pre Hx _ IH]; cbn [fold_left]; [reflexivity|].
  now rewrite Hx.
Qed.

(** The address the loop ends with is the one it started with or that of an
    interface that was not left out. *)
Lemma MacAddress_from (l : list QNetworkInterface) (ret : QString) :
  let ret' :=
    fold_left
      (fun ret netif =>
         if left_out netif then ret
         else if isEmpty ret || is_wired_or_wifi netif
              then hardwareAddress netif
              else ret)
      l ret in
  ret' = ret \/
  exists netif, In netif l /\ left_out netif = false /\
                ret' = hardwareAddress netif.
Proof.
  cbv zeta. revert ret; induction l as [|x l IH]; intros ret; [now left|].
  cbn [fold_left].
  destruct (left_out x) eqn:Hx.
  - destruct (IH ret) as [E|(n & Hn & Hl & E)]; [now left|].
    right. exists n. repeat split; auto. now right.
  - destruct (isEmpty ret || is_wired_or_wifi x).
    + destruct (IH (hardwareAddress x)) as [E|(n & Hn & Hl & E)].
      * right. exists x. repeat split; auto. now left.
      * right. exists n. repeat split; auto. now right.
    + destruct (IH ret) as [E|(n & Hn & Hl & E)]; [now left|].
      right. exists n. repeat split; auto. now right.
Qed.

(** X21: [MacAddress] never returns an empty string: it returns the
    address of an interface that is not left out (one with an address other
    than zeros that is up, running and not the loopback), or zeros. *)
Theorem MacAddress_not_empty (allInterfaces : list QNetworkInterface) :
  MacAddress allInterfaces <> [] /\
  (MacAddress allInterfaces = qs "00:00:00:00:00:00" \/
   exists netif,
     In netif allInterfaces /\ left_out netif = false /\
     MacAddress allInterfaces = hardwareAddress netif).
Proof.
  rewrite MacAddress_fold. cbv zeta.
  destruct (MacAddress_from allInterfaces []) as [E|(n & Hn & Hl & E)];
    cbv zeta in E; rewrite E.
  - cbn. split; [discriminate|now left].
  - destruct (hardwareAddress n) eqn:Ha; cbn [isEmpty].
    + split; [discriminate|now left].
    + split; [discriminate|]. right. exists n. rewrite Ha. auto.
Qed.

(** X22: the address of the last interface of type Ethernet or Wifi that
    is not left out is returned when it is not empty, whatever interfaces
    stand in front of it.  (An empty address counts as none found: the
    next interface that is not left out would take its place.) *)
Theorem MacAddress_prefers_wired_or_wifi (pre post : list QNetworkInterface)
    (netif : QNetworkInterface) :
  left_out netif = false -> is_wired_or_wifi netif = true ->
  hardwareAddress netif <> [] ->
  Forall (fun x => left_out x = true \/ is_wired_or_wifi x = false) post ->
  MacAddress (pre ++ netif :: post) = hardwareAddress netif.
Proof.
  intros Hl Hw Hne Hpost. rewrite MacAddress_fold. cbv zeta.
  rewrite fold_left_app. cbn [fold_left]. rewrite Hl, Hw, orb_true_r.
  rewrite (MacAddress_keeps Hne Hpost).
  destruct (hardwareAddress netif); [congruence|reflexivity].
Qed.

Lemma MacAddress_prefers_wired_or_wifi_witness :
  MacAddress (firstn 4 example_interfaces
              ++ mkInterface (qs "a4:5e:60:c1:02:03")
                   (Z.lor (Z.lor IsUp IsRunning) CanBroadcast) Wifi
              :: skipn 5 example_interfaces)
  = hardwareAddress
      (mkInterface (qs "a4:5e:60:c1:02:03")
         (Z.lor (Z.lor IsUp IsRunning) CanBroadcast) Wifi).
Proof.
  apply MacAddress_prefers_wired_or_wifi;
    [reflexivity | reflexivity | discriminate |].
  repeat first [ apply Forall_nil
               | apply Forall_cons;
                 [first [left; reflexivity | right; reflexivity]|] ].
Defined.

(** X23: when no interface of type Ethernet or Wifi can be taken, the
    address of the first interface that is not left out is returned when it
    is not empty. *)
Theorem MacAddress_first_other (pre post : list QNetworkInterface)
    (netif : QNetworkInterface) :
  Forall (fun x => left_out x = true) pre ->
  left_out netif = false -> hardwareAddress netif <> [] ->
  Forall (fun x => left_out x = true \/ is_wired_or_wifi x = false) post ->
  MacAddress (pre ++ netif :: post) = hardwareAddress netif.
Proof.
  intros Hpre Hl Hne Hpost. rewrite MacAddress_fold. cbv zeta.
  rewrite fold_left_app, (MacAddress_skips [] Hpre).
  cbn [fold_left isEmpty orb]. rewrite Hl.
  rewrite (MacAddress_keeps Hne Hpost).
  destruct (hardwareAddress netif); [congruence|reflexivity].
Qed.

Lemma MacAddress_first_other_witness :
  MacAddress ([ mkInterface (qs "00:00:00:00:00:00")
                  (Z.lor (Z.lor IsUp IsRunning) IsLoopBack) Loopback ]
              ++ mkInterface (qs "0a:00:27:00:00:01") (Z.lor IsUp IsRunning)
                   Virtual
              :: [ mkInterface (qs "52:54:00:12:34:57") CanBroadcast Ethernet;
                   mkInterface (qs "0a:00:27:00:00:02") (Z.lor IsUp IsRunning)
                     Virtual ])
  = hardwareAddress
      (mkInterface (qs "0a:00:27:00:00:01") (Z.lor IsUp IsRunning) Virtual).
Proof.
  apply MacAddress_first_other;
    [repeat constructor | reflexivity | discriminate |].
  repeat first [ apply Forall_nil
               | apply Forall_cons;
                 [first [left; reflexivity | right; reflexivity]|] ].
Defined.

(* ================================================================== *)
(** * [CopyRecursive] with nothing to copy *)

(** X24: [CopyRecursive] looks neither at what [mkpath] returns nor at
    whether its source is there: when the listings of the source are empty
    behind [mkpath], as they are for a source that names nothing
    ([entry_names_nothing]) or holds hidden entries only, it returns [true]
    after three calls, and the file system is what [mkpath] has left. *)
Theorem CopyRecursive_nothing_to_copy (fuel : nat)
    (source destination : QString) (w : World) :
  let dest_path := destination ++ qs "/" ++ section_last source in
  let made := make_path (fs_root w) (fs_cwd w) dest_path in
  entry_names (fst made) (fs_cwd w) (QDir source) dirs_not_hidden = [] ->
  entry_names (fst made) (fs_cwd w) (QDir source) files_not_hidden = [] ->
  exists w',
    CopyRecursive (S fuel) source destination w = Some (true, w') /\
    fs_root w' = fst made /\
    calls w' = calls w ++
               [ Did (QDir_mkpath_step dest_path) (snd made);
                 Listed (QDir source) dirs_not_hidden [];
                 Listed (QDir source) files_not_hidden [] ] /\
    warnings w' = warnings w.
Proof.
  intros dest_path made Hdirs Hfiles.
  cbn [CopyRecursive]. fold dest_path.
  unfold bind at 1. unfold QDir_mkpath, perform. cbn [apply_step].
  fold made. destruct made as [root' ok] eqn:Emade. cbn [fst snd] in *.
  unfold bind at 1. unfold QDir_entryList at 1. cbn [fs_root fs_cwd].
  fold dirs_not_hidden. rewrite Hdirs.
  unfold bind at 1. cbn [for_children]. unfold ret at 1.
  unfold bind at 1. unfold QDir_entryList at 1. cbn [fs_root fs_cwd].
  fold files_not_hidden. rewrite Hfiles. cbn [for_children]. unfold ret.
  eexists. split; [reflexivity|]. cbn [fs_root calls warnings].
  repeat split. now rewrite <- !app_assoc.
Qed.

Lemma CopyRecursive_nothing_to_copy_witness :
  exists w',
    CopyRecursive 1 (qs "/nothing") (qs "/backup") example_world
    = Some (true, w') /\
    fs_root w' =
    fst (make_path (fs_root example_world) (fs_cwd example_world)
           (qs "/backup" ++ qs "/" ++ section_last (qs "/nothing"))) /\
    calls w' = calls example_world ++
               [ Did (QDir_mkpath_step
                        (qs "/backup" ++ qs "/" ++ section_last (qs "/nothing")))
                   (snd (make_path (fs_root example_world)
                           (fs_cwd example_world)
                           (qs "/backup" ++ qs "/" ++
                            section_last (qs "/nothing"))));
                 Listed (QDir (qs "/nothing")) dirs_not_hidden [];
                 Listed (QDir (qs "/nothing")) files_not_hidden [] ] /\
    warnings w' = warnings example_world.
Proof.
  apply (@CopyRecursive_nothing_to_copy 0 (qs "/nothing") (qs "/backup")
           example_world); reflexivity.
Defined.

(* ================================================================== *)
(** * Properties of [Copy] *)

Lemma skipn_repeat_same {A : Type} (x : A) (k n : nat) :
  skipn k (repeat x n) = repeat x (n - k).
Proof.
  revert n; induction k as [|k IH]; intros n.
  - now rewrite Nat.sub_0_r.
  - destruct n as [|n]; [reflexivity|]. cbn [repeat skipn Nat.sub]. apply IH.
Qed.

Lemma store_next (done chunk : QByteArray) (n : nat) :
  length chunk <= n ->
  store (map Some done ++ repeat None n) (Z.of_nat (length done)) chunk
  = map Some (done ++ chunk) ++ repeat None (n - length chunk).
Proof.
  intros Hn. unfold store. rewrite Nat2Z.id.
  rewrite firstn_app, length_map, Nat.sub_diag, firstn_O, app_nil_r.
  rewrite firstn_all2 by (rewrite length_map; lia).
  rewrite skipn_app, length_map.
  rewrite skipn_all2 by (rewrite length_map; lia).
  replace (length done + length chunk - length done) with (length chunk) by lia.
  rewrite skipn_repeat_same. cbn [app]. now rewrite map_app, <- app_assoc.
Qed.

Section DevicesProperties.

Variable QIODevice : Type.
Variable open : QIODevice -> OpenMode -> bool * QIODevice.
Variable size : QIODevice -> Z.
Variable read : QIODevice -> Z -> Z * QByteArray * QIODevice.
Variable write : QIODevice -> list Cell -> Z * QIODevice.

(** The bytes a device has still to give, and the bytes it has been
    given. *)
Variable unread : QIODevice -> QByteArray.
Variable received : QIODevice -> list Cell.

(** What the devices promise: [read] reports an error or gives the next
    bytes, not more than it is asked for and one at least when there is one
    and it is asked for one; [write] reports an error or takes the first of
    the bytes it is given, one at least when there is one. *)
Hypothesis read_contract :
  forall d maxlen n chunk d',
    (0 <= maxlen)%Z -> read d maxlen = (n, chunk, d') ->
    n = (-1)%Z \/
    (n = Z.of_nat (length chunk) /\ (n <= maxlen)%Z /\
     unread d = chunk ++ unread d' /\
     ((0 < maxlen)%Z -> unread d <> [] -> (0 < n)%Z)).

Hypothesis write_contract :
  forall d data n d',
    write d data = (n, d') ->
    n = (-1)%Z \/
    ((0 <= n <= Z.of_nat (length data))%Z /\
     received d' = received d ++ firstn (Z.to_nat n) data /\
     (data <> [] -> (0 < n)%Z)).

Lemma Copy_read_all (total : QByteArray) (fuel : nat) :
  forall (source : QIODevice) (done : QByteArray),
    done ++ unread source = total ->
    length (unread source) < fuel ->
    exists r,
      Copy_read read fuel source (Z.of_nat (length total))
        (Z.of_nat (length done))
        (map Some done ++ repeat None (length (unread source))) = Some r /\
      match r with
      | inl _ => True
      | inr (data, source') => data = map Some total /\ unread source' = []
      end.
Proof.
  induction fuel as [|fuel IH]; intros source done Htotal Hfuel; [lia|].
  cbn [Copy_read].
  assert (Z.of_nat (length total) - Z.of_nat (length done)
          = Z.of_nat (length (unread source)))%Z as Hmax
    by (rewrite <- Htotal, length_app; lia).
  rewrite Hmax.
  destruct (read source (Z.of_nat (length (unread source))))
    as [[n chunk] source'] eqn:Er.
  destruct (read_contract (Nat2Z.is_nonneg _) Er)
    as [->|(-> & Hle & Hun & Hprog)];
    [cbn; eexists; split; [reflexivity|exact I]|].
  rewrite (proj2 (Z.eqb_neq _ _)) by lia.
  assert (length chunk <= length (unread source)) as Hlen by lia.
  rewrite store_next by assumption.
  replace (Z.of_nat (length done) + Z.of_nat (length chunk))%Z
    with (Z.of_nat (length (done ++ chunk))) by (rewrite length_app; lia).
  assert (length (unread source) - length chunk = length (unread source'))
    as Hrest by (rewrite Hun, length_app; lia).
  rewrite Hrest.
  assert ((done ++ chunk) ++ unread source' = total) as Htotal'
    by (rewrite <- app_assoc, <- Hun; exact Htotal).
  destruct ((Z.of_nat (length chunk) >? 0)%Z &&
            negb (Z.of_nat (length (done ++ chunk)) =? Z.of_nat (length total))%Z)
    eqn:Econt.
  - apply andb_prop in Econt as [Hpos _]. apply Z.gtb_lt in Hpos.
    apply IH; [assumption|lia].
  - eexists. split; [reflexivity|]. cbn beta iota.
    assert (unread source' = []) as Hnil.
    { apply andb_false_iff in Econt as [Hz|Hz].
      - rewrite Z.gtb_ltb in Hz; apply Z.ltb_ge in Hz.
        destruct (unread source) as [|b u] eqn:Eu.
        + destruct (unread source'); [reflexivity|].
          apply (f_equal (@length _)) in Hun. rewrite length_app in Hun.
          simpl in Hun. lia.
        + assert (0 < Z.of_nat (length chunk))%Z
            by (apply Hprog; [simpl; lia|discriminate]). lia.
      - apply negb_false_iff, Z.eqb_eq in Hz.
        rewrite <- Htotal', !length_app in Hz.
        destruct (unread source'); [reflexivity|simpl in Hz; lia]. }
    rewrite Hnil in *. rewrite app_nil_r in *. cbn [length repeat].
    rewrite ?app_nil_r. split; [now rewrite Htotal'|reflexivity].
Qed.

Lemma Copy_write_all (data : list Cell) (fuel : nat) :
  forall (destination : QIODevice) (before : list Cell) (pos : nat),
    received destination = before ++ firstn pos data ->
    pos <= length data ->
    length data - pos < fuel ->
    exists ok destination',
      Copy_write write fuel destination (Z.of_nat (length data))
        (Z.of_nat pos) data = Some (ok, destination') /\
      (ok = true -> received destination' = before ++ data).
Proof.
  induction fuel as [|fuel IH]; intros destination before pos Hrec Hpos Hfuel;
    [lia|].
  cbn [Copy_write]. rewrite Nat2Z.id.
  destruct (write destination (skipn pos data)) as [n destination'] eqn:Ew.
  destruct (write_contract Ew) as [->|(Hn & Hrec' & Hprog)].
  { cbn. do 2 eexists. split; [reflexivity|discriminate]. }
  rewrite (proj2 (Z.eqb_neq _ _)) by lia.
  rewrite length_skipn in Hn.
  assert (received destination' = before ++ firstn (pos + Z.to_nat n) data)
    as Hrec2.
  { rewrite Hrec', Hrec, <- app_assoc. f_equal.
    rewrite <- (firstn_skipn pos (firstn (pos + Z.to_nat n) data)).
    rewrite firstn_firstn, skipn_firstn_comm.
    replace (Nat.min pos (pos + Z.to_nat n)) with pos by lia.
    now replace (pos + Z.to_nat n - pos) with (Z.to_nat n) by lia. }
  replace (Z.of_nat pos + n)%Z with (Z.of_nat (pos + Z.to_nat n)) by lia.
  destruct ((n >? 0)%Z &&
            negb (Z.of_nat (pos + Z.to_nat n) =? Z.of_nat (length data))%Z)
    eqn:Econt.
  - apply andb_prop in Econt as [Hgt _]. apply Z.gtb_lt in Hgt.
    apply IH; [assumption|lia|lia].
  - do 2 eexists. split; [reflexivity|]. intros _.
    rewrite Hrec2. f_equal. apply firstn_all2.
    apply andb_false_iff in Econt as [Hz|Hz].
    + rewrite Z.gtb_ltb in Hz; apply Z.ltb_ge in Hz.
      destruct (skipn pos data) eqn:Es.
      * apply (f_equal (@length _)) in Es. rewrite length_skipn in Es.
        simpl in Es. lia.
      * assert (0 < n)%Z by (apply Hprog; discriminate). lia.
    + apply negb_false_iff, Z.eqb_eq in Hz. lia.
Qed.

(** X25: with devices that keep their promises and a source whose size is
    the number of bytes it has to give, [Copy] returns, and when it returns
    [true] the destination has been given the bytes of the source, all of
    them and in their order, and the source has none left. *)
Theorem Copy_copies_all (source destination source1 destination1 : QIODevice) :
  open source ReadOnly = (true, source1) ->
  open destination WriteOnly = (true, destination1) ->
  size source1 = Z.of_nat (length (unread source1)) ->
  exists ok source' destination',
    Copy open size read write source destination
    = Some (ok, source', destination') /\
    (ok = true ->
     received destination'
     = received destination1 ++ map Some (unread source1) /\
     unread source' = []).
Proof.
  intros Hs Hd Hsize. unfold Copy. rewrite Hs, Hd. cbn [negb].
  cbv zeta. rewrite Hsize, Nat2Z.id.
  destruct (@Copy_read_all (unread source1) (S (length (unread source1)))
              source1 [] eq_refl ltac:(lia)) as (r & Er & Hr).
  cbn [length map app] in Er. change (Z.of_nat 0) with 0%Z in Er.
  rewrite Er. destruct r as [source'|[data source']].
  { do 3 eexists. split; [reflexivity|discriminate]. }
  destruct Hr as [-> Hnil].
  destruct (@Copy_write_all (map Some (unread source1))
              (S (length (unread source1))) destination1
              (received destination1) 0)
    as (ok & destination' & Ew & Hw).
  { cbn [firstn]. now rewrite app_nil_r. }
  { lia. }
  { rewrite length_map. lia. }
  rewrite length_map in Ew. change (Z.of_nat 0) with 0%Z in Ew. rewrite Ew.
  do 3 eexists. split; [reflexivity|]. intros ->. auto.
Qed.

(** X26: [Copy] does not look at how many bytes it has read: when the
    source has a size but gives no byte, [Copy] hands as many bytes of its
    buffer as the size says to the destination, not one of which has ever
    been set, and returns [true]. *)
Theorem Copy_short_read
    (source destination source1 destination1 source2 destination2 : QIODevice)
    (bytes : Z) :
  open source ReadOnly = (true, source1) ->
  open destination WriteOnly = (true, destination1) ->
  size source1 = bytes -> (0 < bytes)%Z ->
  read source1 bytes = (0%Z, [], source2) ->
  write destination1 (repeat None (Z.to_nat bytes)) = (bytes, destination2) ->
  Copy open size read write source destination
  = Some (true, source2, destination2).
Proof.
  intros Hs Hd Hsize Hpos Hr Hw. unfold Copy. rewrite Hs, Hd. cbn [negb].
  cbv zeta. rewrite Hsize. cbn [Copy_read]. rewrite Z.sub_0_r, Hr.
  cbn [Z.eqb Z.gtb Z.compare andb Z.add].
  unfold store. cbn [Z.to_nat firstn skipn map length app Nat.add].
  cbn [Copy_write Z.to_nat skipn]. rewrite Hw.
  rewrite (proj2 (Z.eqb_neq bytes (-1))) by lia.
  rewrite (proj2 (Z.gtb_lt bytes 0)) by lia.
  cbn [Z.add]. now rewrite Z.eqb_refl.
Qed.

End DevicesProperties.

Lemma Buffer_read_contract (d : Buffer) (maxlen n : Z) (chunk : QByteArray)
    (d' : Buffer) :
  (0 <= maxlen)%Z -> Buffer_read d maxlen = (n, chunk, d') ->
  n = (-1)%Z \/
  (n = Z.of_nat (length chunk) /\ (n <= maxlen)%Z /\
   Buffer_unread d = chunk ++ Buffer_unread d' /\
   ((0 < maxlen)%Z -> Buffer_unread d <> [] -> (0 < n)%Z)).
Proof.
  intros Hmax [= <- <- <-]. right. repeat split.
  - rewrite length_firstn. lia.
  - set (k := Nat.min (Z.to_nat maxlen) (S (buffer_more d))).
    set (U := Buffer_unread d).
    assert (Buffer_unread
              (mkBuffer (buffer_data d) (buffer_pos d + length (firstn k U))
                 (buffer_more d) (buffer_opens d))
            = skipn (length (firstn k U)) U) as ->.
    { unfold Buffer_unread, U. cbn [buffer_pos buffer_data].
      unfold Buffer_unread. rewrite skipn_map, skipn_skipn.
      now rewrite Nat.add_comm. }
    rewrite length_firstn.
    destruct (Nat.le_ge_cases k (length U)) as [H|H].
    + rewrite Nat.min_l by assumption. symmetry. apply firstn_skipn.
    + rewrite Nat.min_r by assumption.
      now rewrite firstn_all2, skipn_all2, app_nil_r by lia.
  - intros Hpos Hne. rewrite length_firstn.
    destruct (Buffer_unread d); [congruence|]. simpl. lia.
Qed.

Lemma Buffer_write_contract (d : Buffer) (data : list Cell) (n : Z)
    (d' : Buffer) :
  Buffer_write d data = (n, d') ->
  n = (-1)%Z \/
  ((0 <= n <= Z.of_nat (length data))%Z /\
   buffer_data d' = buffer_data d ++ firstn (Z.to_nat n) data /\
   (data <> [] -> (0 < n)%Z)).
Proof.
  unfold Buffer_write. cbv zeta. intros E.
  remember (S (buffer_more d)) as k eqn:Ek.
  injection E as <- <-. right. cbn [buffer_data].
  rewrite !length_firstn. repeat split; try lia.
  - f_equal. rewrite Nat2Z.id.
    destruct (Nat.le_ge_cases k (length data)) as [H|H].
    + now rewrite Nat.min_l by assumption.
    + rewrite Nat.min_r by assumption. now rewrite !firstn_all2 by lia.
  - intros Hne. destruct data; [congruence|]. simpl. lia.
Qed.

Lemma Copy_copies_all_witness :
  exists ok source' destination',
    Copy Buffer_open Buffer_size Buffer_read Buffer_write example_source
      example_destination
    = Some (ok, source', destination') /\
    (ok = true ->
     buffer_data destination'
     = buffer_data example_destination ++
       map Some (Buffer_unread example_source) /\
     Buffer_unread source' = []).
Proof.
  apply (@Copy_copies_all Buffer Buffer_open Buffer_size Buffer_read
           Buffer_write Buffer_unread buffer_data Buffer_read_contract
           Buffer_write_contract example_source example_destination
           example_source example_destination);
    reflexivity.
Defined.

Lemma Copy_short_read_witness :
  Copy Buffer_open (fun _ => 3%Z) Buffer_read Buffer_write
    (mkBuffer [] 0 0 true) example_destination
  = Some (true, mkBuffer [] 0 0 true,
          mkBuffer [None; None; None] 0 2 true).
Proof.
  apply (@Copy_short_read Buffer Buffer_open (fun _ => 3%Z) Buffer_read
           Buffer_write (mkBuffer [] 0 0 true) example_destination
           (mkBuffer [] 0 0 true) example_destination
           (mkBuffer [] 0 0 true) (mkBuffer [None; None; None] 0 2 true) 3%Z);
    reflexivity.
Defined.

(* ================================================================== *)
(** * Properties of [ParseRFC822DateTime] *)

Lemma class_run_app (class : QChar -> bool) (f r : QString) :
  Forall (fun c => class c = true) f ->
  class_run class (f ++ r) = length f + class_run class r.
Proof.
  induction 1 as [|c f Hc _ IH]; [reflexivity|].
  cbn [app class_run length]. now rewrite Hc, IH.
Qed.

Lemma class_run_other (class : QChar -> bool) (r : QString) :
  starts_with class r = false -> class_run class r = 0.
Proof. destruct r as [|c r]; [reflexivity|]. simpl. now intros ->. Qed.

Lemma try_counts_first (rest : QString -> option (list QString))
    (s : QString) (min count : nat) (captured : list QString) :
  rest (skipn count s) = Some captured ->
  try_counts rest s min count = Some (firstn count s :: captured).
Proof. intros H. destruct count; cbn [try_counts]; now rewrite H. Qed.

(** A piece matches a text of its class when it cannot take more or less
    than that text and the rest of the expression matches behind it. *)
Lemma match_items_field (item : Item) (items : list Item) (f r : QString)
    (captured : list QString) :
  Forall (fun c => item_class item c = true) f ->
  item_min item <= length f ->
  match item_max item with
  | Some max =>
      length f <= max /\
      (length f = max \/ starts_with (item_class item) r = false)
  | None => starts_with (item_class item) r = false
  end ->
  match_items items r = Some captured ->
  match_items (item :: items) (f ++ r) = Some (f :: captured).
Proof.
  intros Hf Hmin Hmax Hrest. cbn [match_items]. cbv zeta.
  rewrite (class_run_app _ r Hf).
  assert (match item_max item with
          | Some max => Nat.min (length f + class_run (item_class item) r) max
          | None => length f + class_run (item_class item) r
          end = length f) as ->.
  { destruct (item_max item) as [max|].
    - destruct Hmax as [Hle [->|Hr]]; [lia|].
      rewrite (class_run_other _ _ Hr). lia.
    - rewrite (class_run_other _ _ Hmax). lia. }
  rewrite (proj2 (Nat.leb_le _ _) Hmin).
  rewrite (@try_counts_first _ _ _ _ captured).
  - now rewrite firstn_app, firstn_all, Nat.sub_diag, firstn_O, app_nil_r.
  - now rewrite skipn_app, skipn_all, Nat.sub_diag.
Qed.

Lemma match_items_one (c : QChar) (items : list Item) (r : QString)
    (captured : list QString) :
  match_items items r = Some captured ->
  match_items (one c :: items) (c :: r) = Some ([c] :: captured).
Proof.
  intros H. apply (@match_items_field (one c) items [c] r captured); auto.
  - constructor; [apply Ascii.eqb_refl|constructor].
  - cbn. auto.
Qed.

(** The expression of [ParseRFC822DateTime] starts with a digit. *)
Lemma match_items_no_digit (items : list Item) (s : QString) :
  starts_with is_d s = false ->
  match_items (mkItem is_d 1 (Some 2) :: items) s = None.
Proof.
  intros H. cbn [match_items item_class item_max item_min]. cbv zeta.
  now rewrite (class_run_other _ _ H).
Qed.

Lemma search_items_no_digit (items : list Item) (pre s : QString) :
  Forall (fun c => is_d c = false) pre ->
  starts_with is_d s = true ->
  search_items (mkItem is_d 1 (Some 2) :: items) (pre ++ s)
  = search_items (mkItem is_d 1 (Some 2) :: items) s.
Proof.
  intros Hpre Hs. induction Hpre as [|c pre Hc _ IH]; [reflexivity|].
  cbn [app search_items]. rewrite match_items_no_digit by exact Hc.
  exact IH.
Qed.

Lemma is_d_not_w_sep :
  is_d " "%char = false /\ is_w " "%char = false /\ is_d ":"%char = false.
Proof. repeat split. Qed.

Lemma QMap_value_missing (map : list (QString * Z)) (key : QString) :
  ~ In key (List.map fst map) -> QMap_value map key = 0%Z.
Proof.
  induction map as [|[k v] map IH]; [reflexivity|]. cbn [List.map fst In].
  intros H. cbn [QMap_value].
  destruct (QString_eqb_spec k key) as [->|Hk]; [tauto|]. apply IH. tauto.
Qed.

(** X27: [ParseRFC822DateTime] reads the first run of day, name of the
    month, year and time of day in a text: what stands in front of the day
    (a day of the week, without digit) and behind the seconds (a time zone)
    is not looked at, the year is taken as it is written, also with two
    digits, and a name of the month that is not in the table in its exact
    spelling gives the month 0, with which the date is not valid. *)
Theorem ParseRFC822DateTime_fields
    (pre dd mon yyyy hh mi ss post : QString) :
  Forall (fun c => is_d c = false) pre ->
  field_of is_d 1 2 dd -> field_of is_w 3 12 mon ->
  Forall (fun c => is_d c = true) yyyy -> yyyy <> [] ->
  field_of is_d 1 2 hh -> field_of is_d 1 2 mi -> field_of is_d 1 2 ss ->
  length ss = 2 \/ starts_with is_d post = false ->
  let result :=
    ParseRFC822DateTime
      (pre ++ dd ++ qs " " ++ mon ++ qs " " ++ yyyy ++ qs " " ++
       hh ++ qs ":" ++ mi ++ qs ":" ++ ss ++ post) in
  let date :=
    mkQDate (QString_toInt yyyy) (QMap_value monthmap mon) (QString_toInt dd) in
  result
  = mkQDateTime date
      (mkQTime (QString_toInt hh) (QString_toInt mi) (QString_toInt ss)) /\
  (~ In mon (map fst monthmap) -> QDate_isValid date = false).
Proof.
  intros Hpre [Hdd Ldd] [Hmon Lmon] Hy Ly [Hhh Lhh] [Hmi Lmi] [Hss Lss] Hend
    result date.
  assert (1 <= length yyyy) by (destruct yyyy; [congruence|simpl; lia]).
  split.
  - subst result date. unfold ParseRFC822DateTime, rfc822_regexp.
    assert (starts_with is_d
              (dd ++ qs " " ++ mon ++ qs " " ++ yyyy ++ qs " " ++
               hh ++ qs ":" ++ mi ++ qs ":" ++ ss ++ post) = true) as Hstart.
    { destruct Hdd as [|c dd Hc _]; [simpl in Ldd; lia|exact Hc]. }
    rewrite (search_items_no_digit _ _ Hpre Hstart).
    assert (match_items
              [ mkItem is_d 1 (Some 2); one " "%char; mkItem is_w 3 (Some 12);
                one " "%char; mkItem is_d 1 None; one " "%char;
                mkItem is_d 1 (Some 2); one ":"%char; mkItem is_d 1 (Some 2);
                one ":"%char; mkItem is_d 1 (Some 2) ]
              (dd ++ qs " " ++ mon ++ qs " " ++ yyyy ++ qs " " ++
               hh ++ qs ":" ++ mi ++ qs ":" ++ ss ++ post)
            = Some [dd; qs " "; mon; qs " "; yyyy; qs " "; hh; qs ":"; mi;
                    qs ":"; ss]) as Hmatch.
    { cbn [qs list_ascii_of_string app].
      apply match_items_field; cbn [item_class item_min item_max];
        [assumption|lia|split; [lia|now right]|].
      apply match_items_one.
      apply match_items_field; cbn [item_class item_min item_max];
        [assumption|lia|split; [lia|now right]|].
      apply match_items_one.
      apply match_items_field; cbn [item_class item_min item_max];
        [assumption|lia|reflexivity|].
      apply match_items_one.
      apply match_items_field; cbn [item_class item_min item_max];
        [assumption|lia|split; [lia|now right]|].
      apply match_items_one.
      apply match_items_field; cbn [item_class item_min item_max];
        [assumption|lia|split; [lia|now right]|].
      apply match_items_one.
      apply match_items_field; cbn [item_class item_min item_max];
        [assumption|lia|split; [lia|exact Hend]|].
      reflexivity. }
    destruct (dd ++ qs " " ++ mon ++ qs " " ++ yyyy ++ qs " " ++
              hh ++ qs ":" ++ mi ++ qs ":" ++ ss ++ post) as [|c text];
      [discriminate|].
    cbn [search_items]. rewrite Hmatch. reflexivity.
  - intros Hno. subst date. unfold QDate_isValid. cbn [year month day].
    rewrite (QMap_value_missing _ _ Hno). cbn.
    now rewrite !andb_false_r.
Qed.

Lemma ParseRFC822DateTime_fields_witness :
  let result :=
    ParseRFC822DateTime
      (qs "Tue, " ++ qs "15" ++ qs " " ++ qs "Nov" ++ qs " " ++ qs "94" ++
       qs " " ++ qs "08" ++ qs ":" ++ qs "12" ++ qs ":" ++ qs "31" ++
       qs " GMT") in
  let date :=
    mkQDate (QString_toInt (qs "94")) (QMap_value monthmap (qs "Nov"))
      (QString_toInt (qs "15")) in
  result
  = mkQDateTime date
      (mkQTime (QString_toInt (qs "08")) (QString_toInt (qs "12"))
         (QString_toInt (qs "31"))) /\
  (~ In (qs "Nov") (map fst monthmap) -> QDate_isValid date = false).
Proof.
  apply ParseRFC822DateTime_fields;
    try (split; [repeat constructor|simpl; lia]).
  - repeat constructor.
  - repeat constructor.
  - discriminate.
  - now left.
Defined.

(* ================================================================== *)
(** * Making a directory *)

Lemma entry_app_some (name : QString) (es extra : Entries) (child : Node) :
  entry name es = Some child -> entry name (es ++ extra) = Some child.
Proof.
  induction es as [|[n c] es IH]; [discriminate|]. cbn [app entry].
  destruct (QString_eqb n name); auto.
Qed.

Lemma entry_app_none (name : QString) (es extra : Entries) :
  entry name es = None -> entry name (es ++ extra) = entry name extra.
Proof.
  induction es as [|[n c] es IH]; [reflexivity|]. cbn [app entry].
  destruct (QString_eqb n name); [discriminate|auto].
Qed.

Lemma entry_update_entry_other (name other : QString) (h : Node -> Node)
    (es : Entries) :
  other <> name -> entry other (update_entry name h es) = entry other es.
Proof.
  intros Hne. induction es as [|[n c] es IH]; [reflexivity|].
  cbn [update_entry]. destruct (QString_eqb_spec n name) as [->|Hn].
  - cbn [entry]. now rewrite (QString_eqb_neq (not_eq_sym Hne)).
  - cbn [entry]. now rewrite IH.
Qed.

(** Entries put behind those of the directory at [p] change nothing at a
    place that is not on the way to [p]. *)
Lemma lookup_update_append (f : Entries -> Entries) :
  (forall es, exists extra, f es = es ++ extra) ->
  forall (p q : list QString) (root x : Node),
    lookup root q = Some x ->
    (forall rest, p <> q ++ rest) ->
    lookup (update root p f) q = Some x.
Proof.
  intros Hf. induction p as [|name p IH]; intros q root x Hq Hno.
  - destruct q as [|n q]; [now elim (Hno [])|].
    destruct root as [a d|es]; [exact Hq|]. cbn [update lookup] in *.
    destruct (Hf es) as [extra ->].
    destruct (entry n es) as [child|] eqn:E; [|discriminate].
    now rewrite (@entry_app_some _ _ extra _ E).
  - destruct root as [a d|es]; [exact Hq|].
    destruct q as [|n q]; [now elim (Hno (name :: p))|].
    cbn [update lookup] in *.
    destruct (QString_eqb_spec n name) as [->|Hn].
    + rewrite entry_update_entry.
      destruct (entry name es) as [child|]; [|discriminate].
      cbn [option_map]. apply IH; [assumption|].
      intros rest E. apply (Hno rest). cbn [app]. now rewrite E.
    + now rewrite entry_update_entry_other.
Qed.

(** An update in a directory that has just been put behind the entries
    of the directory at [p]. *)
Lemma update_appended (root : Node) (p : list QString) (name : QString)
    (cur : Entries) (f : Entries -> Entries) (D : Entries) :
  lookup root p = Some (Dir D) -> entry name D = None ->
  update (update root p (fun es => es ++ [(name, Dir cur)])) (p ++ [name]) f
  = update root p (fun es => es ++ [(name, Dir (f cur))]).
Proof.
  revert root; induction p as [|q p IH]; intros root Hp Hname.
  - cbn [lookup] in Hp. injection Hp as ->. cbn [update app].
    f_equal. clear -Hname.
    induction D as [|[n c] D IH]; cbn [app update_entry entry] in *.
    + now rewrite QString_eqb_refl.
    + destruct (QString_eqb n name); [discriminate|]. now rewrite IH.
  - destruct root as [a d|es]; [discriminate|]. cbn [lookup] in Hp.
    cbn [update app]. f_equal. rewrite update_entry_twice.
    destruct (entry q es) as [child|] eqn:Eq; [|discriminate].
    clear -IH Hp Hname Eq.
    induction es as [|[n c] es IHes]; [reflexivity|].
    cbn [entry update_entry] in *.
    destruct (QString_eqb n q).
    + injection Eq as ->. now rewrite IH.
    + now rewrite IHes.
Qed.

Lemma lookup_appended (root : Node) (p : list QString) (name : QString)
    (n : Node) (D : Entries) :
  lookup root p = Some (Dir D) -> entry name D = None ->
  lookup (update root p (fun es => es ++ [(name, n)])) (p ++ [name]) = Some n.
Proof.
  intros Hp Hname.
  rewrite (@lookup_child _ _ name (D ++ [(name, n)])).
  - rewrite entry_app_none by assumption. cbn [entry].
    now rewrite QString_eqb_refl.
  - exact (@lookup_update _ _ (fun es => es ++ [(name, n)]) _ Hp).
Qed.

Lemma make_step_existing (root : Node) (p : list QString) (name : QString)
    (n : Node) :
  lookup root (p ++ [name]) = Some n -> plain_name name = true ->
  make_step (root, Some p) name = (root, Some (p ++ [name])).
Proof.
  intros Hn (H1 & H2 & H3 & _)%plain_name_spec. unfold make_step.
  cbn [fst snd]. rewrite lookup_app in Hn.
  destruct (lookup root p) as [[a d|es]|]; try discriminate.
  rewrite !QString_eqb_neq by assumption. cbn [orb].
  cbn [lookup] in Hn. now destruct (entry name es).
Qed.

Lemma make_step_new (root : Node) (p : list QString) (name : QString)
    (D : Entries) :
  lookup root p = Some (Dir D) -> entry name D = None ->
  plain_name name = true ->
  make_step (root, Some p) name
  = (update root p (fun es => es ++ [(name, Dir [])]), Some (p ++ [name])).
Proof.
  intros Hp Hname (H1 & H2 & H3 & _)%plain_name_spec. unfold make_step.
  cbn [fst snd]. rewrite Hp, !QString_eqb_neq by assumption. cbn [orb].
  now rewrite Hname.
Qed.

Lemma make_step_names (root : Node) (names : list QString) :
  Forall (fun name => plain_name name = true) names ->
  forall (start : list QString) (n : Node),
    lookup root (start ++ names) = Some n ->
    fold_left make_step names (root, Some start)
    = (root, Some (start ++ names)).
Proof.
  induction 1 as [|name names Hname _ IH]; intros start n Hn.
  - now rewrite app_nil_r.
  - cbn [fold_left].
    change (start ++ name :: names) with (start ++ [name] ++ names) in *.
    rewrite app_assoc in *.
    destruct (lookup root (start ++ [name])) as [m|] eqn:Em.
    + rewrite (@make_step_existing _ _ _ _ Em Hname). eapply IH, Hn.
    + rewrite lookup_app, Em in Hn. discriminate.
Qed.

(** [mkpath] makes a directory that is missing in a directory that is
    there. *)
Lemma make_path_new (root : Node) (cwd : list QString) (path : QString)
    (parent : list QString) (name : QString) (D : Entries) :
  plain_path path (parent ++ [name]) ->
  lookup root parent = Some (Dir D) -> entry name D = None ->
  make_path root cwd path
  = (update root parent (fun es => es ++ [(name, Dir [])]), true).
Proof.
  intros Hpath Hp Hname.
  pose proof (plain_path_absolute Hpath) as Habs.
  destruct Hpath as [Hf Hplain]. unfold make_path. cbv zeta.
  rewrite Hf, Habs by (now destruct parent). cbn [fold_left].
  apply Forall_app in Hplain as [Hparent Hn].
  apply Forall_inv in Hn.
  assert (make_step (root, Some []) [] = (root, Some [])) as ->.
  { unfold make_step. cbn [fst snd lookup].
    destruct root as [a d|es]; [|reflexivity].
    destruct parent; discriminate. }
  rewrite fold_left_app.
  rewrite (@make_step_names root parent Hparent [] _ Hp). cbn [app fold_left].
  rewrite (@make_step_new _ _ _ _ Hp Hname Hn). cbn [fst snd].
  now rewrite (@lookup_appended _ _ _ (Dir []) _ Hp Hname).
Qed.

(* ================================================================== *)
(** * Copying a directory *)

Lemma distinct_NoDup (names : list QString) :
  distinct names = true -> NoDup names.
Proof.
  induction names as [|name names IH]; [constructor|]. cbn [distinct].
  intros [H1 H2]%andb_prop. constructor; [|auto].
  apply negb_true_iff in H1. intros Hin.
  assert (existsb (QString_eqb name) names = true) as E
    by (apply existsb_exists; exists name; auto using QString_eqb_refl).
  congruence.
Qed.

Lemma NoDup_insert {A : Type} (x : A) (a b : list A) :
  NoDup (a ++ b) -> ~ In x (a ++ b) -> NoDup (a ++ x :: b).
Proof.
  induction a as [|y a IH]; cbn [app]; intros Hnd Hx.
  - now constructor.
  - apply NoDup_cons_iff in Hnd as [Hy Hnd]. constructor.
    + rewrite in_app_iff in *. cbn [In] in *. intros [H|[->|H]]; tauto.
    + apply IH; [assumption|]. intros H. apply Hx. now right.
Qed.

(** The names of two kinds of entries of a directory, one kind behind the
    other. *)
Lemma NoDup_filters (a b : QString * Node -> bool) (es : Entries) :
  (forall e, a e = true -> b e = false) ->
  NoDup (map fst es) ->
  NoDup (map fst (filter a es) ++ map fst (filter b es)).
Proof.
  intros Hab. induction es as [|e es IH]; cbn [map filter app];
    [constructor|].
  intros [He Hnd]%NoDup_cons_iff. specialize (IH Hnd).
  assert (~ In (fst e) (map fst (filter a es) ++ map fst (filter b es)))
    as Hnot.
  { rewrite in_app_iff. intros [H|H]; apply He;
      apply in_map_iff in H as (e' & <- & [H _]%filter_In);
      now apply in_map. }
  destruct (a e) eqn:Ea.
  - rewrite (Hab e Ea). cbn [map app]. now constructor.
  - destruct (b e); [|assumption]. cbn [map]. now apply NoDup_insert.
Qed.

Lemma entry_In (es : Entries) (e : QString * Node) :
  NoDup (map fst es) -> In e es -> entry (fst e) es = Some (snd e).
Proof.
  induction es as [|[n c] es IH]; [contradiction|]. cbn [map fst In entry].
  intros [Hn Hnd]%NoDup_cons_iff [<-|Hin].
  - cbn [fst snd]. now rewrite QString_eqb_refl.
  - destruct (QString_eqb_spec n (fst e)) as [->|]; [|auto].
    elim Hn. now apply in_map.
Qed.

Lemma entry_notin (name : QString) (es : Entries) :
  ~ In name (map fst es) -> entry name es = None.
Proof.
  induction es as [|[n c] es IH]; [reflexivity|]. cbn [map fst In entry].
  intros H. destruct (QString_eqb_spec n name); [tauto|]. apply IH. tauto.
Qed.

Lemma flat_map_filter {A B : Type} (a : A -> bool) (g : A -> B) (l : list A) :
  flat_map (fun e => if a e then [g e] else []) l = map g (filter a l).
Proof.
  induction l as [|e l IH]; [reflexivity|]. cbn [flat_map filter].
  destruct (a e); cbn [app map]; now rewrite IH.
Qed.

Lemma not_below_child (sp dp : list QString) (sname c : QString) :
  (forall rest, dp <> sp ++ rest) ->
  forall rest, dp ++ [sname] <> (sp ++ [c]) ++ rest.
Proof.
  intros Hno rest E. rewrite <- app_assoc in E. cbn [app] in E.
  destruct (@exists_last _ (c :: rest)) as (l & a & El); [discriminate|].
  rewrite El, app_assoc in E. apply app_inj_tail in E as [E _].
  exact (Hno l E).
Qed.

Lemma perform_false (s : Step) (w : World) (root' : Node) :
  apply_step (fs_cwd w) s (fs_root w) = (root', false) ->
  exists w', perform s w = Some (false, w').
Proof. intros H. unfold perform. rewrite H. eauto. Qed.

Section CopyTree.

(** The file system in which a copy is made of the directory at [sp],
    with the entries [es] and the path [source], in the directory at [dp],
    which has the entries [D]; the copy is called [sname] and has the path
    [dest_path]. *)
Variable root0 : Node.
Variables sp dp : list QString.
Variable sname : QString.
Variables es D : Entries.
Variables source dest_path : QString.

Hypothesis Hsource : plain_path source sp.
Hypothesis Htarget : plain_path dest_path (dp ++ [sname]).
Hypothesis Hsp : lookup root0 sp = Some (Dir es).
Hypothesis Hdp : lookup root0 dp = Some (Dir D).
Hypothesis Hname : entry sname D = None.
Hypothesis Hno : forall rest, dp <> sp ++ rest.

(** The file system when the copy has the entries [cur]. *)
Let T (cur : Entries) : Node :=
  update root0 dp (fun es => es ++ [(sname, Dir cur)]).

Lemma T_target (cur : Entries) :
  lookup (T cur) (dp ++ [sname]) = Some (Dir cur).
Proof. exact (@lookup_appended _ _ _ (Dir cur) _ Hdp Hname). Qed.

Lemma T_source (cur : Entries) (q : list QString) (x : Node) :
  lookup root0 (sp ++ q) = Some x -> lookup (T cur) (sp ++ q) = Some x.
Proof.
  intros Hq. apply lookup_update_append; [eauto|assumption|].
  intros rest E. apply (Hno (q ++ rest)). now rewrite app_assoc.
Qed.

Lemma T_step (cur : Entries) (f : Entries -> Entries) :
  update (T cur) (dp ++ [sname]) f = T (f cur).
Proof. exact (@update_appended _ _ _ cur f _ Hdp Hname). Qed.

Lemma T_source_dir (cur : Entries) : lookup (T cur) sp = Some (Dir es).
Proof.
  rewrite <- (app_nil_r sp). apply T_source. now rewrite app_nil_r.
Qed.

Lemma T_source_child (cur : Entries) (e : QString * Node) :
  entry (fst e) es = Some (snd e) ->
  lookup (T cur) (sp ++ [fst e]) = Some (snd e).
Proof.
  intros He. apply T_source.
  now rewrite (@lookup_child _ _ (fst e) _ Hsp).
Qed.

Lemma copy_dirs_loop (QT_fuel : nat) (L : Entries) :
  forall (prev : Entries) (w : World),
    fs_root w = T prev ->
    NoDup (map fst prev ++ map fst L) ->
    Forall (fun e => plain_name (fst e) = true /\
                     entry (fst e) es = Some (snd e) /\
                     is_dir (snd e) = true /\
                     well_formed (snd e) = true /\
                     depth (snd e) <= QT_fuel /\ copies (snd e)) L ->
    exists w',
      for_children (map fst L)
        (fun child =>
           ok <- CopyRecursive QT_fuel (source ++ qs "/" ++ child) dest_path ;;
           if ok then ret true
           else
             _ <- qLog_Warning [qs "Failed to copy dir";
                                source ++ qs "/" ++ child; qs "to";
                                dest_path] ;;
             ret false) w
      = Some (forallb (fun e => copyable (snd e)) L, w') /\
      (forallb (fun e => copyable (snd e)) L = true ->
       fs_root w' = T (prev ++ map (fun e => (fst e, copy_of (snd e))) L) /\
       fs_cwd w' = fs_cwd w /\ warnings w' = warnings w).
Proof.
  induction L as [|[c child] L IH]; intros prev w Hroot Hnd Hall.
  - exists w. cbn [map for_children forallb]. rewrite app_nil_r. auto.
  - apply Forall_cons_iff in Hall
      as [(Hplain & Hent & Hdir & Hwf & Hdep & Hcopies) Hall].
    cbn [fst snd] in *. cbn [map fst for_children forallb snd].
    destruct (Hcopies QT_fuel (source ++ qs "/" ++ c) dest_path w sp c
                (dp ++ [sname]) prev) as (w1 & E1 & H1); auto.
    + now apply plain_path_child.
    + rewrite Hroot. exact (@T_source_child prev (c, child) Hent).
    + rewrite Hroot. apply T_target.
    + apply entry_notin. intros Hin.
      apply NoDup_remove_2 in Hnd. apply Hnd, in_app_iff. now left.
    + now apply not_below_child.
    + unfold bind at 1. unfold bind at 1. rewrite E1.
      destruct (copyable child) eqn:Ec; cbn [andb].
      * destruct (H1 eq_refl) as (R1 & C1 & W1). unfold ret at 1.
        destruct (IH (prev ++ [(c, copy_of child)]) w1)
          as (w2 & E2 & H2).
        -- rewrite R1, Hroot.
           exact (T_step prev (fun es0 => es0 ++ [(c, copy_of child)])).
        -- rewrite map_app, <- app_assoc. exact Hnd.
        -- assumption.
        -- exists w2. split; [exact E2|]. intros Hb.
           destruct (H2 Hb) as (R2 & C2 & W2).
           rewrite <- app_assoc in R2.
           repeat split; [exact R2 | congruence | congruence].
      * eexists. split; [reflexivity|discriminate].
Qed.

Lemma copy_files_loop (L : Entries) :
  forall (prev : Entries) (w : World),
    fs_root w = T prev ->
    NoDup (map fst prev ++ map fst L) ->
    Forall (fun e => plain_name (fst e) = true /\
                     entry (fst e) es = Some (snd e) /\
                     is_file (snd e) = true) L ->
    exists w',
      for_children (map fst L)
        (fun child =>
           ok <- QFile_copy (source ++ qs "/" ++ child)
                            (dest_path ++ qs "/" ++ child) ;;
           if ok then ret true
           else
             _ <- qLog_Warning [qs "Failed to copy file";
                                source ++ qs "/" ++ child; qs "to";
                                dest_path] ;;
             ret false) w
      = Some (forallb (fun e => copyable (snd e)) L, w') /\
      (forallb (fun e => copyable (snd e)) L = true ->
       fs_root w' = T (prev ++ map (fun e => (fst e, copy_of (snd e))) L) /\
       fs_cwd w' = fs_cwd w /\ warnings w' = warnings w).
Proof.
  induction L as [|[c child] L IH]; intros prev w Hroot Hnd Hall.
  - exists w. cbn [map for_children forallb]. rewrite app_nil_r. auto.
  - apply Forall_cons_iff in Hall as [(Hplain & Hent & Hfile) Hall].
    cbn [fst snd] in *. destruct child as [a data|sub]; [|discriminate].
    cbn [map fst for_children forallb snd copyable].
    assert (Hfrom : resolve (T prev) (fs_cwd w) (source ++ qs "/" ++ c)
                    = Some (sp ++ [c]))
      by (apply (@resolve_plain_path _ _ _ _ _ es);
          auto using plain_path_child, T_source_dir).
    assert (Hto : resolve (T prev) (fs_cwd w) (dest_path ++ qs "/" ++ c)
                  = Some ((dp ++ [sname]) ++ [c]))
      by (apply (@resolve_plain_path _ _ _ _ _ prev);
          auto using plain_path_child, T_target).
    pose proof (@T_source_child prev (c, File a data) Hent) as Hc.
    cbn [fst snd] in Hc.
    destruct a; cbn [andb].
    + destruct (@perform_true
                  (QFile_copy_step (source ++ qs "/" ++ c)
                     (dest_path ++ qs "/" ++ c)) w
                  (T (prev ++ [(c, File true data)])))
        as (w1 & E1 & R1 & C1 & L1 & W1).
      { cbn [apply_step]. rewrite Hroot, Hfrom.
        apply (@at_path_true _ _ _ _ ((dp ++ [sname]) ++ [c]));
          [exact Hto|].
        unfold copy_file. rewrite Hc.
        rewrite parent_and_name_snoc, T_target.
        rewrite entry_notin.
        - now rewrite (T_step prev (fun es0 => es0 ++ [(c, File true data)])).
        - intros Hin. apply NoDup_remove_2 in Hnd.
          apply Hnd, in_app_iff. now left. }
      change (perform (QFile_copy_step (source ++ qs "/" ++ c)
                         (dest_path ++ qs "/" ++ c)) w)
        with (QFile_copy (source ++ qs "/" ++ c) (dest_path ++ qs "/" ++ c) w)
        in E1.
      unfold bind at 1. unfold bind at 1. rewrite E1. unfold ret at 1.
      destruct (IH (prev ++ [(c, File true data)]) w1)
        as (w2 & E2 & H2).
      * assumption.
      * rewrite map_app, <- app_assoc. exact Hnd.
      * assumption.
      * exists w2. split; [exact E2|]. intros Hb.
        destruct (H2 Hb) as (R2 & C2 & W2). rewrite <- app_assoc in R2.
        repeat split; [exact R2 | congruence | congruence].
    + destruct (@perform_false
                  (QFile_copy_step (source ++ qs "/" ++ c)
                     (dest_path ++ qs "/" ++ c)) w (fs_root w))
        as (w1 & E1).
      { cbn [apply_step]. rewrite Hroot, Hfrom. unfold at_path.
        rewrite Hto. unfold copy_file. now rewrite Hc. }
      change (perform (QFile_copy_step (source ++ qs "/" ++ c)
                         (dest_path ++ qs "/" ++ c)) w)
        with (QFile_copy (source ++ qs "/" ++ c) (dest_path ++ qs "/" ++ c) w)
        in E1.
      unfold bind at 1. unfold bind at 1. rewrite E1.
      eexists. split; [reflexivity|discriminate].
Qed.

End CopyTree.

Lemma visible_dir_not_file (e : QString * Node) :
  visible_dir e = true -> visible_file e = false.
Proof.
  unfold visible_dir, visible_file. destruct e as [name [a d|sub]];
    cbn [snd is_dir is_file andb]; [discriminate|reflexivity].
Qed.

Lemma section_last_plain_path (path : QString) (parent : list QString)
    (name : QString) :
  plain_path path (parent ++ [name]) -> section_last path = name.
Proof.
  intros [H _]. unfold section_last. rewrite H.
  change ([] :: parent ++ [name]) with (([] :: parent) ++ [name]).
  apply last_last.
Qed.

(** What can be copied of a directory: the directories in it that are not
    hidden, and the files in it that are not hidden. *)
Lemma copyable_Dir (es : Entries) :
  copyable (Dir es)
  = forallb (fun e => copyable (snd e)) (filter visible_dir es) &&
    forallb (fun e => copyable (snd e)) (filter visible_file es).
Proof.
  cbn [copyable]. induction es as [|[name n] es IH]; [reflexivity|].
  cbn [forallb filter fst snd]. rewrite IH.
  unfold visible_dir, visible_file. cbn [fst snd].
  destruct (isHidden name), n as [a d|sub];
    cbn [is_dir is_file andb negb orb forallb snd];
    try reflexivity.
  - rewrite !andb_assoc. f_equal. apply andb_comm.
  - now rewrite andb_assoc.
Qed.

Lemma all_accessible_copyable (n : Node) :
  all_accessible n = true -> copyable n = true.
Proof.
  induction n as [a d|es IH] using Node_ind; [auto|].
  cbn [all_accessible copyable]. rewrite !forallb_forall.
  rewrite Forall_forall in IH. intros H e He.
  rewrite (IH e He (H e He)). apply orb_true_r.
Qed.

(** [CopyRecursive] on every directory, wherever it stands. *)
Lemma CopyRecursive_copies_node (n : Node) : copies n.
Proof.
  induction n as [a d|es IH] using Node_ind;
    intros fuel source destination w sparent sname dp D
           Hs Hd Hn Hdp Hname Hno Hdir Hwf Hdepth;
    [discriminate|].
  destruct fuel as [|fuel]; [cbn [depth] in Hdepth; lia|].
  cbn [well_formed] in Hwf.
  apply andb_prop in Hwf as [[Hplain Hdist]%andb_prop Hwfs].
  rewrite forallb_forall in Hplain, Hwfs.
  apply distinct_NoDup in Hdist.
  pose proof (@depth_entries _ _ Hdepth) as Hdeps.
  rewrite Forall_forall in Hdeps, IH.
  pose proof (@section_last_plain_path _ _ _ Hs) as Hlast.
  assert (Hsname : plain_name sname = true).
  { destruct Hs as [_ Hs]. apply Forall_app in Hs as [_ Hs].
    now apply Forall_inv in Hs. }
  pose proof (@plain_path_child _ _ _ Hd Hsname) as Hdest.
  assert (Hsrc_ne : source <> []).
  { intros ->. destruct Hs as [Hs _]. cbn in Hs. injection Hs as Hs.
    now destruct sparent. }
  rewrite copyable_Dir.
  cbn [CopyRecursive]. rewrite Hlast, (@QDir_nonempty _ Hsrc_ne).
  set (dest_path := destination ++ qs "/" ++ sname) in *.
  set (T := fun cur : Entries =>
              update (fs_root w) dp (fun es => es ++ [(sname, Dir cur)])).
  (* the destination directory *)
  destruct (@perform_true (QDir_mkpath_step dest_path) w (T []))
    as (w1 & E1 & R1 & C1 & _ & W1).
  { cbn [apply_step]. now apply (@make_path_new _ _ _ _ _ D). }
  unfold bind at 1. unfold QDir_mkpath. rewrite E1.
  assert (Hsp : forall cur, lookup (T cur) (sparent ++ [sname])
                            = Some (Dir es)).
  { intros cur. eapply T_source_dir; eassumption. }
  assert (Hres : forall cur, resolve (T cur) (fs_cwd w) source
                             = Some (sparent ++ [sname])).
  { intros cur.
    destruct (@lookup_prefix_dir _ _ _ _ (Hsp cur)) as [sib Hsib];
      [discriminate|].
    now apply (@resolve_plain_path _ _ _ _ _ sib). }
  (* the directories *)
  destruct (QDir_entryList_run source (Z.lor QDir_NoDotAndDotDot QDir_Dirs) w1)
    as (w2 & E2 & R2 & C2 & _ & W2).
  unfold bind at 1. rewrite E2.
  change (Z.lor QDir_NoDotAndDotDot QDir_Dirs) with dirs_not_hidden.
  rewrite R1, C1, (@entry_names_visible_dirs _ _ _ _ _ (Hres []) (Hsp [])).
  unfold dirs_of. rewrite <- filter_names.
  change (filter (fun e => is_dir (snd e) && negb (isHidden (fst e))) es)
    with (filter visible_dir es).
  destruct (@copy_dirs_loop (fs_root w) (sparent ++ [sname]) dp sname es D
              source dest_path Hs Hdest Hn Hdp Hname Hno fuel
              (filter visible_dir es) [] w2)
    as (w3 & E3 & H3).
  { now rewrite R2, R1. }
  { cbn [map app]. pose proof (@NoDup_filters visible_dir visible_file es
                                 visible_dir_not_file Hdist) as Hnd.
    now apply NoDup_app_remove_r in Hnd. }
  { apply Forall_forall. intros e [Hin Hvis]%filter_In.
    apply andb_prop in Hvis as [Hvis _].
    repeat split; auto using entry_In. }
  unfold bind at 1.
  match goal with
  | |- context [for_children ?l ?b w2] =>
      assert (E3' : for_children l b w2
                    = Some (forallb (fun e => copyable (snd e))
                              (filter visible_dir es), w3)) by exact E3
  end.
  rewrite E3'. clear E3'.
  destruct (forallb (fun e => copyable (snd e)) (filter visible_dir es));
    cbn [andb]; [|eexists; split; [reflexivity|discriminate]].
  destruct (H3 eq_refl) as (R3 & C3 & W3).
  (* the files *)
  destruct (QDir_entryList_run source (Z.lor QDir_NoDotAndDotDot QDir_Files)
              w3) as (w4 & E4 & R4 & C4 & _ & W4).
  unfold bind at 1. rewrite E4.
  change (Z.lor QDir_NoDotAndDotDot QDir_Files) with files_not_hidden.
  cbn [app] in R3. rewrite R3, C3, C2, C1.
  set (copied := map (fun e => (fst e, copy_of (snd e)))
                   (filter visible_dir es)) in *.
  pose proof (@entry_names_visible_files _ _ _ _ _ (Hres copied) (Hsp copied))
    as Hfiles.
  unfold T in Hfiles. rewrite Hfiles.
  unfold files_of. rewrite <- filter_names.
  change (filter (fun e => is_file (snd e) && negb (isHidden (fst e))) es)
    with (filter visible_file es).
  destruct (@copy_files_loop (fs_root w) (sparent ++ [sname]) dp sname es D
              source dest_path Hs Hdest Hn Hdp Hname Hno
              (filter visible_file es) copied w4)
    as (w5 & E5 & H5).
  { now rewrite R4, R3. }
  { unfold copied. rewrite map_map. cbn [fst].
    exact (@NoDup_filters visible_dir visible_file es
             visible_dir_not_file Hdist). }
  { apply Forall_forall. intros e [Hin Hvis]%filter_In.
    apply andb_prop in Hvis as [Hvis _].
    repeat split; auto using entry_In. }
  exists w5. split; [exact E5|]. intros Hb.
  destruct (H5 Hb) as (R5 & C5 & W5). split.
  - rewrite R5. unfold copied. cbn [copy_of].
    now rewrite !flat_map_filter.
  - split; congruence.
Qed.

(** X28: CopyRecursive copies a directory.  Called with enough fuel on the
    absolute path of a directory [n] in which every file is accessible and
    on the absolute path of a directory that is not the source or inside it
    and has no entry of the name of the source, it returns [true], writes no
    warning, and leaves the file system with one more entry in the
    destination, behind the others and of the name of the source: the
    directory [copy_of n], which has the directories of [n] that are not
    hidden, each copied in the same way, in front of the files of [n] that
    are not hidden. *)
Theorem CopyRecursive_copies (fuel : nat) (source destination : QString)
    (w : World) (sparent : list QString) (sname : QString)
    (dp : list QString) (D : Entries) (n : Node) :
  plain_path source (sparent ++ [sname]) ->
  plain_path destination dp ->
  lookup (fs_root w) (sparent ++ [sname]) = Some n ->
  lookup (fs_root w) dp = Some (Dir D) ->
  entry sname D = None ->
  (forall rest, dp <> (sparent ++ [sname]) ++ rest) ->
  is_dir n = true -> well_formed n = true -> all_accessible n = true ->
  depth n <= fuel ->
  exists w',
    CopyRecursive fuel source destination w = Some (true, w') /\
    fs_root w' = update (fs_root w) dp (fun es => es ++ [(sname, copy_of n)]) /\
    fs_cwd w' = fs_cwd w /\ warnings w' = warnings w.
Proof.
  intros Hs Hd Hn Hdp Hname Hno Hdir Hwf Hacc Hdepth.
  destruct (@CopyRecursive_copies_node n fuel source destination w sparent
              sname dp D Hs Hd Hn Hdp Hname Hno Hdir Hwf Hdepth)
    as (w' & E & H).
  rewrite (all_accessible_copyable _ Hacc) in E, H. eauto.
Qed.

Lemma CopyRecursive_copies_witness :
  exists w',
    CopyRecursive 2 (qs "/music/album") (qs "/backup") example_world
    = Some (true, w') /\
    fs_root w' =
    update (fs_root example_world) [qs "backup"]
      (fun es => es ++ [(qs "album", copy_of (Dir example_album))]) /\
    fs_cwd w' = fs_cwd example_world /\
    warnings w' = warnings example_world.
Proof.
  apply (@CopyRecursive_copies 2 (qs "/music/album") (qs "/backup")
           example_world [qs "music"] (qs "album") [qs "backup"] []
           (Dir example_album)).
  - exact example_album_path.
  - split; [reflexivity|]. repeat constructor.
  - reflexivity.
  - reflexivity.
  - reflexivity.
  - intros rest. discriminate.
  - reflexivity.
  - reflexivity.
  - reflexivity.
  - exact (le_n 2).
Defined.

(* ================================================================== *)
(** * A removal returns, and returns [false] when a file cannot be removed *)


Section RemoveTreeReturns.

Variable leaf : QString -> Step.
Hypothesis leaf_unlink :
  forall cwd path root,
    apply_step cwd (leaf path) root = at_path root cwd path unlink.




End RemoveTreeReturns.

(* ================================================================== *)
(** * Giving up at the first failure: the three functions *)





(** C8, the removal of the same directory: the first file is removed, the
    removal of the second fails, the third is still there. *)
Example removal_gives_up :
  option_map
    (fun r => (fst r, lookup (fs_root (snd r)) [qs "music"; qs "locked"],
               last (calls (snd r)) (Listed [] 0 [])))
    (RemoveRecursive 2 (qs "/music/locked") example_world)
  = Some (false,
          Some (Dir [ (qs "b", File false (qs "B"));
                      (qs "c", File true (qs "C")) ]),
          Did (QFile_remove_step (qs "/music/locked/b")) false).
Proof. vm_compute. reflexivity. Qed.
